(** * Site-Map-Tree-Visualiser: URL normalisation, filtering, roll-up

    A shallow embedding of the pure core of [app.py]:
    [_normalize_path], [normalize_input_url], [normalize_pages_only],
    [normalize_internal_all] and the aggregation loop of
    [render_treemap_go_from_urls], together with the parts of Python's
    [str], [re] and [urllib.parse] that these functions call.

    Python strings are modelled as lists of characters whose code points lie
    in U+0000..U+00FF, one [ascii] per code point. *)

From Stdlib Require Import List Ascii String Bool Arith ZArith Lia.
From Stdlib Require Import Numbers.DecimalString.
From Stdlib Require Import Sorting.Sorted Sorting.Permutation.
Import ListNotations.
Open Scope string_scope.
Open Scope list_scope.
Open Scope nat_scope.

(** ** Strings *)

Definition str := list ascii.

Definition lit (s : string) : list ascii := list_ascii_of_string s.
Coercion lit : string >-> list.

Definition lits (l : list string) : list str := map lit l.

(** ** Exceptions *)

Inductive exn :=
| ValueError (msg : string)
| KeyError
| IndexError.

Inductive result (A : Type) :=
| Ok (a : A)
| Raise (e : exn).
Arguments Ok {A} a.
Arguments Raise {A} e.

Definition bind {A B} (r : result A) (k : A -> result B) : result B :=
  match r with
  | Ok a => k a
  | Raise e => Raise e
  end.

Notation "x <- e ;; k" := (bind e (fun x => k))
  (at level 61, e at next level, right associativity).
Notation "' p <- e ;; k" := (bind e (fun x => let 'p := x in k))
  (at level 61, p pattern, e at next level, right associativity).

(** ** Python built-ins used by the application *)

Module Py.

Definition code (c : ascii) : nat := nat_of_ascii c.

(** [str.isspace] on one character: the code points below 256 that Python
    treats as whitespace are 9..13, 28..32, 0x85 and 0xA0. *)
Definition isspace (c : ascii) : bool :=
  let n := code c in
  ((9 <=? n) && (n <=? 13)) || ((28 <=? n) && (n <=? 32))
  || (n =? 133) || (n =? 160).

(** [str.lower] on one character: A..Z and the Latin-1 capitals
    U+00C0..U+00DE (except the multiplication sign U+00D7) move up by 32. *)
Definition lower_char (c : ascii) : ascii :=
  let n := code c in
  if ((65 <=? n) && (n <=? 90))
     || ((192 <=? n) && (n <=? 222) && negb (n =? 215))
  then ascii_of_nat (n + 32) else c.

Definition lower (s : str) : str := map lower_char s.

Definition isascii_alpha (c : ascii) : bool :=
  let n := code c in
  ((65 <=? n) && (n <=? 90)) || ((97 <=? n) && (n <=? 122)).

Definition isascii_digit (c : ascii) : bool :=
  let n := code c in (48 <=? n) && (n <=? 57).

Definition is_empty (s : str) : bool :=
  match s with [] => true | _ :: _ => false end.

Fixpoint str_eqb (a b : str) : bool :=
  match a, b with
  | [], [] => true
  | x :: a', y :: b' => Ascii.eqb x y && str_eqb a' b'
  | _, _ => false
  end.

(** [c in s] for a one-character [c]. *)
Definition mem (c : ascii) (s : str) : bool := existsb (Ascii.eqb c) s.

Fixpoint drop_while (p : ascii -> bool) (s : str) : str :=
  match s with
  | [] => []
  | c :: t => if p c then drop_while p t else s
  end.

Fixpoint take_while (p : ascii -> bool) (s : str) : str :=
  match s with
  | [] => []
  | c :: t => if p c then c :: take_while p t else []
  end.

(** [s.lstrip(chars)], [s.rstrip(chars)], with the set of characters given
    as a predicate. *)
Definition lstrip_by (p : ascii -> bool) (s : str) : str := drop_while p s.
Definition rstrip_by (p : ascii -> bool) (s : str) : str :=
  rev (drop_while p (rev s)).

(** [s.strip()] *)
Definition strip (s : str) : str := rstrip_by isspace (lstrip_by isspace s).

(** [s.startswith(p)], [s.endswith(p)] *)
Fixpoint startswith (p s : str) : bool :=
  match p, s with
  | [], _ => true
  | _ :: _, [] => false
  | a :: p', b :: s' => Ascii.eqb a b && startswith p' s'
  end.

Definition endswith (suf s : str) : bool := startswith (rev suf) (rev s).

(** [sub in s] for a string [sub]. *)
Fixpoint contains (sub s : str) : bool :=
  startswith sub s
  || match s with
     | [] => false
     | _ :: t => contains sub t
     end.

(** [partition c s] is [Some (s[:i], s[i+1:])] for [i = s.find(c)], and
    [None] when [s.find(c)] is [-1]. *)
Fixpoint partition (c : ascii) (s : str) : option (str * str) :=
  match s with
  | [] => None
  | x :: t =>
      if Ascii.eqb x c then Some ([], t)
      else match partition c t with
           | Some (a, b) => Some (x :: a, b)
           | None => None
           end
  end.

(** [s.split(c)] for a one-character separator. *)
Fixpoint split (c : ascii) (s : str) : list str :=
  match s with
  | [] => [[]]
  | x :: t =>
      if Ascii.eqb x c then [] :: split c t
      else match split c t with
           | h :: r => (x :: h) :: r
           | [] => [[x]]
           end
  end.

(** [sep.join(l)] *)
Fixpoint join (sep : str) (l : list str) : str :=
  match l with
  | [] => []
  | x :: t =>
      match t with
      | [] => x
      | _ :: _ => x ++ sep ++ join sep t
      end
  end.

(** Comparison of strings: lexicographic on code points. *)
Fixpoint lex_compare {A} (cmp : A -> A -> comparison) (a b : list A)
  : comparison :=
  match a, b with
  | [], [] => Eq
  | [], _ :: _ => Lt
  | _ :: _, [] => Gt
  | x :: a', y :: b' =>
      match cmp x y with
      | Eq => lex_compare cmp a' b'
      | c => c
      end
  end.

Definition char_compare (x y : ascii) : comparison :=
  Nat.compare (code x) (code y).

Definition str_compare : str -> str -> comparison := lex_compare char_compare.

Definition leb_of {A} (cmp : A -> A -> comparison) (x y : A) : bool :=
  match cmp x y with Gt => false | _ => true end.

Definition str_leb : str -> str -> bool := leb_of str_compare.

(** [sorted(l)] with the order given as a boolean [<=]; the insertion keeps
    equal elements in their original order, as Python's sort does. *)
Fixpoint insert {A} (leb : A -> A -> bool) (x : A) (l : list A) : list A :=
  match l with
  | [] => [x]
  | y :: t => if leb x y then x :: l else y :: insert leb x t
  end.

Definition sorted {A} (leb : A -> A -> bool) (l : list A) : list A :=
  fold_right (insert leb) [] l.

Definition str_eq_dec : forall a b : str, {a = b} + {a <> b} :=
  list_eq_dec ascii_dec.

(** [set(l)] as the list of its distinct elements.  Python iterates a set in
    an unspecified order; the application only ever sorts the set. *)
Definition set (l : list str) : list str := nodup str_eq_dec l.

(** [str(n)] for a natural number. *)
Definition str_of_nat (n : nat) : str :=
  lit (NilZero.string_of_uint (Nat.to_uint n)).

End Py.

(** ** [re]: the two patterns of the application *)

Module Re.

(** [re.sub(r"/+", "/", s)]: every maximal run of slashes becomes one. *)
Fixpoint sub_slashes (s : str) : str :=
  match s with
  | [] => []
  | c :: t =>
      match t with
      | c' :: _ =>
          if Ascii.eqb c "/" && Ascii.eqb c' "/" then sub_slashes t
          else c :: sub_slashes t
      | [] => [c]
      end
  end.

Definition scheme_tail_char (c : ascii) : bool :=
  Py.isascii_alpha c || Py.isascii_digit c || Py.mem c "+.-".

(** [re.match(r"^[a-zA-Z][a-zA-Z0-9+.-]*://", s)] as a boolean.  The
    character class excludes [:], so the greedy star has one way to match. *)
Definition match_scheme_prefix (s : str) : bool :=
  match s with
  | [] => false
  | c :: t =>
      Py.isascii_alpha c
      && Py.startswith "://" (Py.drop_while scheme_tail_char t)
  end.

End Re.

(** ** [urllib.parse]: [urlsplit] and [urlunsplit]

    Transcribed from CPython 3.11's [urllib/parse.py], for [str] arguments,
    the default [scheme=''] and [allow_fragments=True].  [_checknetloc] only
    raises when NFKC normalisation of the authority produces one of
    [/?#@:], which no code point below 256 does, so it is a no-op here.
    [urlsplit] is memoised with [lru_cache], which does not change what it
    returns. *)

Module Urllib.

(** The named 5-tuple [SplitResult]. *)
Record SplitResult := mkSplit {
  scheme : str;
  netloc : str;
  path : str;
  query : str;
  fragment : str
}.

Definition uses_netloc : list str :=
  lits [""; "ftp"; "http"; "gopher"; "nntp"; "telnet";
        "imap"; "wais"; "file"; "mms"; "https"; "shttp";
        "snews"; "prospero"; "rtsp"; "rtspu"; "rsync";
        "svn"; "svn+ssh"; "sftp"; "nfs"; "git"; "git+ssh";
        "ws"; "wss"].

Definition scheme_chars : str :=
  "abcdefghijklmnopqrstuvwxyzABCDEFGHIJKLMNOPQRSTUVWXYZ0123456789+-.".

(** [_WHATWG_C0_CONTROL_OR_SPACE]: the code points 0..32. *)
Definition c0_control_or_space (c : ascii) : bool := Py.code c <=? 32.

(** [_UNSAFE_URL_BYTES_TO_REMOVE]: tab, carriage return, line feed. *)
Definition unsafe_url_byte (c : ascii) : bool :=
  let n := Py.code c in (n =? 9) || (n =? 13) || (n =? 10).

Definition netloc_delim (c : ascii) : bool := Py.mem c "/?#".

(** [_splitnetloc(url, start)]: the authority runs from [start] to the first
    of [/], [?], [#], or to the end. *)
Definition _splitnetloc (url : str) (start : nat) : str * str :=
  let tail := skipn start url in
  (Py.take_while (fun c => negb (netloc_delim c)) tail,
   Py.drop_while (fun c => negb (netloc_delim c)) tail).

Section Urlsplit.

(** [_check_bracketed_netloc]: the validation of an authority that holds
    both [[] and []] (an IPv6 or IPvFuture literal).  It is done by
    [ipaddress] and differs between Python releases, so its verdict is a
    parameter: [None] when the authority is accepted, [Some msg] when
    [ValueError(msg)] is raised. *)
Variable check_bracketed_netloc : str -> option string.

Definition urlsplit (url : str) : result SplitResult :=
  let url := Py.lstrip_by c0_control_or_space url in
  let url := filter (fun c => negb (unsafe_url_byte c)) url in
  let '(scheme, url) :=
    match Py.partition ":" url with
    | Some (c0 :: pre, post) =>
        if Py.isascii_alpha c0
           && forallb (fun c => Py.mem c scheme_chars) (c0 :: pre)
        then (Py.lower (c0 :: pre), post)
        else ([], url)
    | _ => ([], url)
    end in
  '(netloc, url) <-
    (if Py.startswith "//" url then
       let '(netloc, url) := _splitnetloc url 2 in
       if (Py.mem "[" netloc && negb (Py.mem "]" netloc))
          || (Py.mem "]" netloc && negb (Py.mem "[" netloc))
       then Raise (ValueError "Invalid IPv6 URL")
       else if Py.mem "[" netloc && Py.mem "]" netloc then
         match check_bracketed_netloc netloc with
         | Some msg => Raise (ValueError msg)
         | None => Ok (netloc, url)
         end
       else Ok (netloc, url)
     else Ok ([], url)) ;;
  let '(url, fragment) :=
    match Py.partition "#" url with
    | Some (a, b) => (a, b)
    | None => (url, [])
    end in
  let '(url, query) :=
    match Py.partition "?" url with
    | Some (a, b) => (a, b)
    | None => (url, [])
    end in
  Ok (mkSplit scheme netloc url query fragment).

End Urlsplit.

Definition urlunsplit (components : str * str * str * str * str) : str :=
  let '(scheme, netloc, url, query, fragment) := components in
  let url :=
    if negb (Py.is_empty netloc)
       || (negb (Py.is_empty scheme)
           && existsb (Py.str_eqb scheme) uses_netloc
           && negb (Py.startswith "//" url))
    then
      let url :=
        if negb (Py.is_empty url) && negb (Py.startswith "/" url)
        then "/" ++ url else url in
      "//" ++ netloc ++ url
    else url in
  let url := if negb (Py.is_empty scheme) then scheme ++ ":" ++ url else url in
  let url := if negb (Py.is_empty query) then url ++ "?" ++ query else url in
  let url :=
    if negb (Py.is_empty fragment) then url ++ "#" ++ fragment else url in
  url.

End Urllib.

(** ** The application: normalisation and filtering *)

Import Urllib.

Definition ASSET_EXTS : list str :=
  lits [".jpg"; ".jpeg"; ".png"; ".gif"; ".webp"; ".avif"; ".svg"; ".ico";
        ".css"; ".js"; ".map";
        ".json"; ".xml"; ".rss"; ".atom";
        ".pdf"; ".doc"; ".docx"; ".xls"; ".xlsx"; ".ppt"; ".pptx";
        ".zip"; ".gz"; ".tar"; ".tgz"; ".rar"; ".7z";
        ".mp3"; ".wav"; ".m4a"; ".ogg"; ".webm"; ".mp4"; ".mov"; ".avi";
        ".woff"; ".woff2"; ".ttf"; ".otf"; ".eot";
        ".dmg"; ".exe"; ".bin"; ".apk"].

(** The tuple of [lower.endswith((".html", ".htm", ".php"))]. *)
Definition PAGE_EXTS : list str := lits [".html"; ".htm"; ".php"].

Definition _normalize_path (path : str) : str :=
  let path := Re.sub_slashes (if Py.is_empty path then lit "/" else path) in
  if negb (Py.str_eqb path "/") && Py.endswith "/" path
  then removelast path
  else path.

(** The messages of the two [ValueError]s of [normalize_input_url]. *)
Definition MSG_EMPTY : string :=
  "Please enter a domain or URL, e.g. example.com or https://example.com/path".
Definition MSG_NO_HOST : string :=
  "Invalid domain/URL. Try like example.com or https://example.com/path".

Section App.

Variable check_bracketed_netloc : str -> option string.

Let urlsplit := Urllib.urlsplit check_bracketed_netloc.

Definition normalize_input_url (raw : str) : result str :=
  let s := Py.strip raw in
  if Py.is_empty s then Raise (ValueError MSG_EMPTY)
  else
    let s :=
      if negb (Re.match_scheme_prefix s)
      then "https://" ++ Py.lstrip_by (Ascii.eqb "/") s
      else s in
    pu <- urlsplit s ;;
    if Py.is_empty (netloc pu) then Raise (ValueError MSG_NO_HOST)
    else
      let path := _normalize_path (path pu) in
      Ok (urlunsplit (Py.lower (scheme pu), Py.lower (netloc pu), path,
                      lit "", lit "")).

(** The host filter shared by both loops. *)
Definition host_in_scope (host base_host : str) (include_subdomains : bool)
  : bool :=
  Py.str_eqb host base_host
  || (include_subdomains && Py.endswith ("." ++ base_host) host).

Definition http_scheme (s : str) : bool :=
  Py.str_eqb s "http" || Py.str_eqb s "https".

(** One iteration of the loop of [normalize_pages_only]: [Ok None] is
    [continue], [Ok (Some v)] is [out.append(v)]. *)
Definition pages_only_step (base_host : str)
    (include_subdomains preserve_qf : bool) (u : str)
  : result (option str) :=
  let u := Py.strip u in
  if Py.is_empty u then Ok None
  else
    pu <- urlsplit u ;;
    if negb (http_scheme (scheme pu)) then Ok None
    else
      let host := Py.lower (netloc pu) in
      if negb (host_in_scope host base_host include_subdomains) then Ok None
      else
        let path := _normalize_path (path pu) in
        let lower := Py.lower path in
        if existsb (fun ext => Py.endswith ext lower) ASSET_EXTS then Ok None
        else if Py.mem "." lower
                && negb (existsb (fun ext => Py.endswith ext lower) PAGE_EXTS)
        then Ok None
        else
          let query := if preserve_qf then query pu else lit "" in
          let frag := if preserve_qf then fragment pu else lit "" in
          Ok (Some (urlunsplit (scheme pu, host, path, query, frag))).

(** One iteration of the loop of [normalize_internal_all]. *)
Definition internal_all_step (base_host : str)
    (include_subdomains preserve_qf : bool) (u : str)
  : result (option str) :=
  let u := Py.strip u in
  if Py.is_empty u then Ok None
  else
    pu <- urlsplit u ;;
    if negb (http_scheme (scheme pu)) then Ok None
    else
      let host := Py.lower (netloc pu) in
      if negb (host_in_scope host base_host include_subdomains) then Ok None
      else
        let path := _normalize_path (path pu) in
        let query := if preserve_qf then query pu else lit "" in
        let frag := if preserve_qf then fragment pu else lit "" in
        Ok (Some (urlunsplit (scheme pu, host, path, query, frag))).

(** [for u in urls: ...] building [out]; the first exception ends the loop. *)
Fixpoint collect (step : str -> result (option str)) (urls : list str)
  : result (list str) :=
  match urls with
  | [] => Ok []
  | u :: rest =>
      r <- step u ;;
      out <- collect step rest ;;
      Ok (match r with Some v => v :: out | None => out end)
  end.

Definition normalize_pages_only (urls : list str) (base_host : str)
    (include_subdomains preserve_qf : bool) : result (list str) :=
  out <- collect (pages_only_step base_host include_subdomains preserve_qf)
                 urls ;;
  Ok (Py.sorted Py.str_leb (Py.set out)).

Definition normalize_internal_all (urls : list str) (base_host : str)
    (include_subdomains preserve_qf : bool) : result (list str) :=
  out <- collect (internal_all_step base_host include_subdomains preserve_qf)
                 urls ;;
  Ok (Py.sorted Py.str_leb (Py.set out)).

(** The choice the main script makes between the two filters:
    [if pages_only: urls = normalize_pages_only(...) else: urls =
    normalize_internal_all(...)]. *)
Definition filter_urls (pages_only : bool) (urls : list str) (base_host : str)
    (include_subdomains preserve_qf : bool) : result (list str) :=
  if pages_only
  then normalize_pages_only urls base_host include_subdomains preserve_qf
  else normalize_internal_all urls base_host include_subdomains preserve_qf.

End App.

(** ** The application: hierarchy aggregation *)

(** A node is a [tuple[str, ...]] of segments. *)
Definition node := list str.

Fixpoint node_eqb (a b : node) : bool :=
  match a, b with
  | [], [] => true
  | x :: a', y :: b' => Py.str_eqb x y && node_eqb a' b'
  | _, _ => false
  end.

(** Dictionaries keyed by nodes, in insertion order. *)
Module Dict.

Fixpoint get {V} (k : node) (d : list (node * V)) : option V :=
  match d with
  | [] => None
  | (k', v) :: t => if node_eqb k k' then Some v else get k t
  end.

Definition contains {V} (k : node) (d : list (node * V)) : bool :=
  match get k d with Some _ => true | None => false end.

(** [d[k] = v] *)
Fixpoint set {V} (k : node) (v : V) (d : list (node * V)) : list (node * V) :=
  match d with
  | [] => [(k, v)]
  | (k', v') :: t =>
      if node_eqb k k' then (k, v) :: t else (k', v') :: set k v t
  end.

Definition keys {V} (d : list (node * V)) : list node := map fst d.

End Dict.

(** [Counter]: a missing key counts 0. *)
Definition count_of (k : node) (c : list (node * nat)) : nat :=
  match Dict.get k c with Some n => n | None => 0 end.

Definition incr (k : node) (c : list (node * nat)) : list (node * nat) :=
  Dict.set k (count_of k c + 1) c.

Record AggState := mkAgg {
  counts : list (node * nat);
  example_url : list (node * str);
  leaf_first_url : list (node * str);
  leaf_multi : list node
}.

Definition agg_init : AggState := mkAgg [] [] [] [].

(** The order of [sorted(counts.keys(), key=lambda t: (len(t), t))]. *)
Definition node_key_compare (a b : node) : comparison :=
  match Nat.compare (List.length a) (List.length b) with
  | Eq => Py.lex_compare Py.str_compare a b
  | c => c
  end.

Definition node_key_leb : node -> node -> bool := Py.leb_of node_key_compare.

(** The arguments handed to [go.Treemap]. *)
Record Treemap := mkTreemap {
  ids : list str;
  labels : list str;
  parents : list str;
  values : list nat;
  customdata : list str
}.

Definition node_id (n : node) : str := "|" ++ Py.join "|" n.

Section Aggregator.

Variable check_bracketed_netloc : str -> option string.

Let urlsplit := Urllib.urlsplit check_bracketed_netloc.

(** [chain = [host] + parts] *)
Definition chain_of (u : str) : result (list str) :=
  pu <- urlsplit u ;;
  let host := if Py.is_empty (netloc pu) then lit "/" else netloc pu in
  let parts :=
    filter (fun s => negb (Py.is_empty s))
      (Py.split "/" (if Py.is_empty (path pu) then lit "/" else path pu)) in
  Ok (host :: parts).

(** [levels = max(2, int(levels))] *)
Definition clamp_levels (levels : Z) : nat := Z.to_nat (Z.max 2 levels).

(** The inner loop [for i in range(k)]. *)
Definition count_prefix (u : str) (chain : list str) (st : AggState) (i : nat)
  : AggState :=
  let n := firstn (i + 1) chain in
  mkAgg (incr n (counts st))
        (if negb (Dict.contains n (example_url st))
         then Dict.set n u (example_url st) else example_url st)
        (leaf_first_url st)
        (leaf_multi st).

(** One iteration of [for u in urls]; [levels] is already clamped. *)
Definition agg_url (levels : nat) (st : AggState) (u : str)
  : result AggState :=
  chain <- chain_of u ;;
  let k := Nat.min levels (List.length chain) in
  let st := fold_left (count_prefix u chain) (seq 0 k) st in
  let leaf_node := firstn k chain in
  if Dict.contains leaf_node (leaf_first_url st)
  then Ok (mkAgg (counts st) (example_url st) (leaf_first_url st)
                 (if existsb (node_eqb leaf_node) (leaf_multi st)
                  then leaf_multi st else leaf_multi st ++ [leaf_node]))
  else Ok (mkAgg (counts st) (example_url st)
                 (Dict.set leaf_node u (leaf_first_url st))
                 (leaf_multi st)).

Fixpoint agg_loop (levels : nat) (st : AggState) (urls : list str)
  : result AggState :=
  match urls with
  | [] => Ok st
  | u :: rest => st' <- agg_url levels st u ;; agg_loop levels st' rest
  end.

Definition aggregate (urls : list str) (levels : Z) : result AggState :=
  agg_loop (clamp_levels levels) agg_init urls.

Definition node_prefix_url (st : AggState) (n : node) : result str :=
  scheme <-
    match Dict.get n (example_url st) with
    | Some ex =>
        if Py.is_empty ex then Ok (lit "https")
        else pu <- urlsplit ex ;; Ok (scheme pu)
    | None => Ok (lit "https")
    end ;;
  let host := match n with h :: _ => h | [] => lit "" end in
  let path :=
    if 1 <? List.length n then "/" ++ Py.join "/" (tl n) else lit "/" in
  Ok (scheme ++ "://" ++ host ++ path).

Definition lookup_id (id_map : list (node * str)) (n : node) : result str :=
  match Dict.get n id_map with
  | Some i => Ok i
  | None => Raise KeyError
  end.

Definition hover_text (st : AggState) (n : node) : result str :=
  match Dict.get n (leaf_first_url st) with
  | Some u =>
      if negb (existsb (node_eqb n) (leaf_multi st)) then Ok u
      else
        p <- node_prefix_url st n ;;
        Ok (Py.str_of_nat (count_of n (counts st)) ++ " URLs under " ++ p)
  | None =>
      p <- node_prefix_url st n ;;
      Ok (Py.str_of_nat (count_of n (counts st)) ++ " URLs under " ++ p)
  end.

(** The emission loop [for node in nodes_sorted]. *)
Fixpoint emit (st : AggState) (id_map : list (node * str))
    (nodes : list node) (acc : Treemap) : result Treemap :=
  match nodes with
  | [] => Ok acc
  | n :: rest =>
      nid <- lookup_id id_map n ;;
      parent <-
        (if List.length n =? 1 then Ok (lit "")
         else lookup_id id_map (removelast n)) ;;
      label <-
        match n with
        | [] => Raise IndexError
        | _ :: _ =>
            let l := last n [] in
            Ok (if negb (Py.is_empty l) then l else lit "/")
        end ;;
      hover <- hover_text st n ;;
      emit st id_map rest
        (mkTreemap (ids acc ++ [nid]) (labels acc ++ [label])
                   (parents acc ++ [parent])
                   (values acc ++ [count_of n (counts st)])
                   (customdata acc ++ [hover]))
  end.

Definition nodes_sorted (st : AggState) : list node :=
  Py.sorted node_key_leb (Dict.keys (counts st)).

Definition render_treemap_go_from_urls (urls : list str) (levels : Z)
  : result Treemap :=
  st <- aggregate urls levels ;;
  let nodes := nodes_sorted st in
  let id_map := map (fun n => (n, node_id n)) nodes in
  emit st id_map nodes (mkTreemap [] [] [] [] []).

End Aggregator.

(** ** The application: page metrics and the mapping run *)

Definition LOGIN_TOKENS : list str :=
  lits ["login"; "sign-in"; "signin"; "wp-login"; "user/login";
        "users/login"; "account/login"; "my-account"; "auth"; "session/new";
        "wp-admin"; "/admin/login"].

Section PageMetrics.

Variable check_bracketed_netloc : str -> option string.

Let urlsplit := Urllib.urlsplit check_bracketed_netloc.

Definition compute_depth (url : str) : result nat :=
  pu <- urlsplit url ;;
  let path := if Py.is_empty (path pu) then lit "/" else path pu in
  let segs :=
    filter (fun s => negb (Py.is_empty s)) (Py.split "/" path) in
  Ok (List.length segs).

Definition looks_like_login (url : str) : result bool :=
  p <- urlsplit url ;;
  let s := Py.lower (path p ++ "?" ++ query p) in
  Ok (existsb (fun t => Py.contains t s) LOGIN_TOKENS).

Definition first_section (url : str) : result str :=
  pu <- urlsplit url ;;
  let path := if Py.is_empty (path pu) then lit "/" else path pu in
  let segs :=
    filter (fun s => negb (Py.is_empty s)) (Py.split "/" path) in
  Ok (match segs with
      | s :: _ => s
      | [] => lit "/"
      end).

(** [depths = [compute_depth(u) for u in urls]] *)
Fixpoint depths_of (urls : list str) : result (list nat) :=
  match urls with
  | [] => Ok []
  | u :: rest =>
      d <- compute_depth u ;;
      ds <- depths_of rest ;;
      Ok (d :: ds)
  end.

(** [any(looks_like_login(u) for u in urls)]: the generator stops at the
    first URL that looks like a login page. *)
Fixpoint any_login (urls : list str) : result bool :=
  match urls with
  | [] => Ok false
  | u :: rest =>
      b <- looks_like_login u ;;
      if b then Ok true else any_login rest
  end.

(** The integer statistics of a run: [n_pages], [max_depth] and
    [login_found].  ([avg_depth] is a float and is left out.) *)
Record Stats := mkStats {
  n_pages : nat;
  max_depth : nat;
  login_found : bool
}.

Definition page_stats (urls : list str) : result Stats :=
  depths <- depths_of urls ;;
  let n := List.length urls in
  let md := if n =? 0 then 0 else fold_right Nat.max 0 depths in
  login <- any_login urls ;;
  Ok (mkStats n md login).

(** [max_segments = 1; for u in urls: max_segments = max(max_segments,
    1 + compute_depth(u))] *)
Fixpoint max_segments_loop (max_segments : nat) (urls : list str)
  : result nat :=
  match urls with
  | [] => Ok max_segments
  | u :: rest =>
      d <- compute_depth u ;;
      max_segments_loop (Nat.max max_segments (1 + d)) rest
  end.

Definition max_segments (urls : list str) : result nat :=
  max_segments_loop 1 urls.

(** The treemap of a run: [render_treemap_go_from_urls(urls,
    max_segments)]. *)
Definition run_treemap (urls : list str) : result Treemap :=
  m <- max_segments urls ;;
  render_treemap_go_from_urls check_bracketed_netloc urls (Z.of_nat m).

(** The start of a run: [normalized_url = normalize_input_url(base_url);
    host = urlsplit(normalized_url).netloc.lower()]. *)
Definition run_host (base_url : str) : result str :=
  normalized_url <- normalize_input_url check_bracketed_netloc base_url ;;
  pu <- urlsplit normalized_url ;;
  Ok (Py.lower (netloc pu)).

End PageMetrics.

(** * Specification vocabulary

    Predicates and views in which the properties below are stated.  None of
    them is part of the program. *)

(** ** Sorted outputs *)

Definition str_lt (a b : str) : Prop := Py.str_compare a b = Lt.

(** Strictly ascending lists of strings. *)
Definition ascending (l : list str) : Prop := StronglySorted str_lt l.

(** ** The stages of [urlsplit] *)

(** What [urlsplit] does to its argument before it looks for a scheme. *)
Definition prepare (url : str) : str :=
  filter (fun c => negb (unsafe_url_byte c))
         (Py.lstrip_by c0_control_or_space url).

Definition safe_char (c : ascii) : bool := negb (unsafe_url_byte c).

Definition split_scheme (url : str) : str * str :=
  match Py.partition ":" url with
  | Some (c0 :: pre, post) =>
      if Py.isascii_alpha c0
         && forallb (fun c => Py.mem c scheme_chars) (c0 :: pre)
      then (Py.lower (c0 :: pre), post)
      else ([], url)
  | _ => ([], url)
  end.

(** The test [urlsplit] applies to what precedes the first colon. *)
Definition valid_scheme (s : str) : bool :=
  match s with
  | [] => false
  | c0 :: _ =>
      Py.isascii_alpha c0 && forallb (fun c => Py.mem c scheme_chars) s
  end.

Definition bracket_mismatch (n : str) : bool :=
  (Py.mem "[" n && negb (Py.mem "]" n))
  || (Py.mem "]" n && negb (Py.mem "[" n)).

(** The message of the [ValueError] that [urlsplit] raises for an authority
    with unbalanced or rejected brackets. *)
Definition bracket_error (chk : str -> option string) (n : str)
  : option string :=
  if bracket_mismatch n then Some "Invalid IPv6 URL"%string
  else if Py.mem "[" n && Py.mem "]" n then chk n
  else None.

Definition split_authority (chk : str -> option string) (url : str)
  : result (str * str) :=
  if Py.startswith "//" url then
    let '(netloc, url) := _splitnetloc url 2 in
    if bracket_mismatch netloc then Raise (ValueError "Invalid IPv6 URL")
    else if Py.mem "[" netloc && Py.mem "]" netloc then
      match chk netloc with
      | Some msg => Raise (ValueError msg)
      | None => Ok (netloc, url)
      end
    else Ok (netloc, url)
  else Ok ([], url).

Definition split_at (c : ascii) (url : str) : str * str :=
  match Py.partition c url with
  | Some (a, b) => (a, b)
  | None => (url, [])
  end.

(** The authority [urlsplit] finds in a URL, when there is one. *)
Definition authority (url : str) : option str :=
  let '(_, r) := split_scheme (prepare url) in
  if Py.startswith "//" r then Some (fst (_splitnetloc r 2)) else None.

(** What holds of every [SplitResult] that [urlsplit] returns. *)
Record split_wf (chk : str -> option string) (pu : SplitResult) : Prop := {
  wf_safe :
    Forall (fun c => safe_char c = true)
           (netloc pu ++ path pu ++ query pu ++ fragment pu);
  wf_netloc : Forall (fun c => netloc_delim c = false) (netloc pu);
  wf_path_q : ~ In "?"%char (path pu);
  wf_path_f : ~ In "#"%char (path pu);
  wf_query_f : ~ In "#"%char (query pu);
  wf_brackets : bracket_mismatch (netloc pu) = false;
  wf_checked :
    Py.mem "[" (netloc pu) && Py.mem "]" (netloc pu) = true ->
    chk (netloc pu) = None;
  wf_rooted :
    netloc pu <> [] -> path pu = [] \/ exists t, path pu = "/"%char :: t
}.

(** A validation of bracketed authorities that accepts everything, as in
    the Python releases that do not validate them. *)
Definition accept_bracketed (n : str) : option string := None.

(** ** The pieces [urlunsplit] glues together *)

Definition lead_slash (p : str) : str :=
  if negb (Py.is_empty p) && negb (Py.startswith "/" p) then "/" ++ p else p.

Definition query_part (q : str) : str :=
  if negb (Py.is_empty q) then "?" ++ q else [].

Definition fragment_part (f : str) : str :=
  if negb (Py.is_empty f) then "#" ++ f else [].

(** ** Paths *)

(** No two adjacent slashes. *)
Definition no_dslash (s : str) : Prop :=
  forall a b, s <> a ++ "/"%char :: "/"%char :: b.

(** A path in the normal form [_normalize_path] produces. *)
Definition normal_path (p : str) : Prop :=
  p <> [] /\ Re.sub_slashes p = p /\ (p = lit "/" \/ Py.endswith "/" p = false).

(** The pages-only rule of [normalize_pages_only], on a normalised path:
    no asset extension, and no dot unless the path ends in a page
    extension. *)
Definition page_like (p : str) : bool :=
  negb (existsb (fun ext => Py.endswith ext (Py.lower p)) ASSET_EXTS)
  && negb (Py.mem "." (Py.lower p)
           && negb (existsb (fun ext => Py.endswith ext (Py.lower p))
                            PAGE_EXTS)).

(** The loop body of the filter the main script picks. *)
Definition filter_step (chk : str -> option string) (pages_only : bool)
  : str -> bool -> bool -> str -> result (option str) :=
  if pages_only then pages_only_step chk else internal_all_step chk.

(** The string [normalize_input_url] hands to [urlsplit]. *)
Definition with_scheme (s : str) : str :=
  if negb (Re.match_scheme_prefix s)
  then "https://" ++ Py.lstrip_by (Ascii.eqb "/") s
  else s.

(** ** The aggregator *)

Definition b2n (b : bool) : nat := if b then 1 else 0.

(** [n] is one of the prefixes [chain[:i+1]] counted for a URL with leaf
    node [leaf]: a non-empty prefix of the leaf node. *)
Definition covers (n leaf : node) : bool :=
  negb (List.length n =? 0)
  && (List.length n <=? List.length leaf)
  && node_eqb n (firstn (List.length n) leaf).

(** [m] is a child of [n]: one segment longer, with [n] as prefix. *)
Definition is_child (n m : node) : bool :=
  (List.length m =? List.length n + 1)
  && node_eqb n (firstn (List.length n) m).

(** The counts of the children of [n] among the emitted nodes, summed. *)
Definition children_sum (st : AggState) (n : node) : nat :=
  list_sum (map (fun m => count_of m (counts st))
                (filter (is_child n) (Dict.keys (counts st)))).

(** A counter as the loop builds it: no key twice, no count of zero. *)
Definition counter_wf (c : list (node * nat)) : Prop :=
  NoDup (Dict.keys c) /\ forall n v, Dict.get n c = Some v -> 1 <= v.

(** The parent identifier the emission loop gives a node. *)
Definition parent_id (n : node) : str :=
  if List.length n =? 1 then lit "" else node_id (removelast n).

(** [leaf_multi.add(n)] *)
Definition multi_add (n : node) (l : list node) : list node :=
  if existsb (node_eqb n) l then l else l ++ [n].

(** The values of the rows without a parent: the top-level boxes. *)
Definition root_values (t : Treemap) : list nat :=
  map snd (filter (fun r => Py.is_empty (fst r))
                  (combine (parents t) (values t))).

Section AggregatorViews.

Variable chk : str -> option string.

(** The leaf node of a URL: its chain cut at [k = min(levels, len(chain))]. *)
Definition leaf_of (levels : nat) (u : str) : result node :=
  chain <- chain_of chk u ;;
  Ok (firstn (Nat.min levels (List.length chain)) chain).

Definition leaf_is (levels : nat) (n : node) (u : str) : bool :=
  match leaf_of levels u with
  | Ok m => node_eqb m n
  | Raise _ => false
  end.

Definition counted_at (levels : nat) (n : node) (u : str) : bool :=
  match leaf_of levels u with
  | Ok leaf => covers n leaf
  | Raise _ => false
  end.

(** A URL counted at [n] whose leaf node lies strictly below [n]. *)
Definition counted_below (L : nat) (n : node) (u : str) : bool :=
  counted_at L n u && negb (leaf_is L n u).

(** The child of [n] on the way to the leaf node of [u]. *)
Definition child_towards (L : nat) (n : node) (u : str) : node :=
  match leaf_of L u with
  | Ok leaf => firstn (List.length n + 1) leaf
  | Raise _ => []
  end.

(** What the loop has recorded after the URLs [done]: the first URL of each
    leaf node, and the leaf nodes reached twice. *)
Definition leaves_recorded (L : nat) (st : AggState) (done : list str) : Prop :=
  forall n,
    Dict.get n (leaf_first_url st) = find (leaf_is L n) done /\
    (In n (leaf_multi st) <->
     2 <= List.length (filter (leaf_is L n) done)).

(** What the loop has counted after the URLs [done]. *)
Definition counts_recorded (L : nat) (st : AggState) (done : list str) : Prop :=
  forall n,
    count_of n (counts st) = List.length (filter (counted_at L n) done).

(** The representative URL of a node after the URLs [done]: the first URL
    counted at it. *)
Definition examples_recorded (L : nat) (st : AggState) (done : list str)
  : Prop :=
  forall n, Dict.get n (example_url st) = find (counted_at L n) done.

(** [urlsplit] accepts the URL. *)
Definition parses (u : str) : Prop := exists pu, urlsplit chk u = Ok pu.

End AggregatorViews.

(** * Properties *)

(** ** The result monad *)

Lemma bind_Ok {A B} (r : result A) (k : A -> result B) (b : B) :
  bind r k = Ok b -> exists a, r = Ok a /\ k a = Ok b.
Proof.
  destruct r as [a|e]; simpl; intros H; [exists a; auto | discriminate].
Qed.

Lemma bind_Raise {A B} (r : result A) (k : A -> result B) (e : exn) :
  bind r k = Raise e ->
  r = Raise e \/ exists a, r = Ok a /\ k a = Raise e.
Proof.
  destruct r as [a|e']; simpl; intros H.
  - right; exists a; split; [reflexivity | exact H].
  - left; congruence.
Qed.

(** ** Orders: lexicographic comparison *)

Section LexOrder.

Context {A : Type} (cmp : A -> A -> comparison).
Hypothesis cmp_eq : forall x y, cmp x y = Eq <-> x = y.
Hypothesis cmp_antisym : forall x y, cmp y x = CompOpp (cmp x y).
Hypothesis cmp_trans :
  forall x y z, cmp x y = Lt -> cmp y z = Lt -> cmp x z = Lt.

Lemma lex_compare_eq (a b : list A) : Py.lex_compare cmp a b = Eq <-> a = b.
Proof.
  revert b; induction a as [|x a IH]; intros [|y b]; simpl;
    try (split; [discriminate | discriminate]); [tauto|].
  destruct (cmp x y) eqn:E.
  - apply cmp_eq in E; subst. rewrite IH. split; congruence.
  - split; [discriminate|]. intros H; inversion H; subst.
    assert (cmp y y = Eq) by (apply cmp_eq; reflexivity). congruence.
  - split; [discriminate|]. intros H; inversion H; subst.
    assert (cmp y y = Eq) by (apply cmp_eq; reflexivity). congruence.
Qed.

Lemma lex_compare_antisym (a b : list A) :
  Py.lex_compare cmp b a = CompOpp (Py.lex_compare cmp a b).
Proof.
  revert b; induction a as [|x a IH]; intros [|y b]; simpl; auto.
  rewrite (cmp_antisym x y). destruct (cmp x y); simpl; auto.
Qed.

Lemma lex_compare_trans (a b c : list A) :
  Py.lex_compare cmp a b = Lt -> Py.lex_compare cmp b c = Lt ->
  Py.lex_compare cmp a c = Lt.
Proof.
  revert b c; induction a as [|x a IH]; intros [|y b] [|z c]; simpl;
    try discriminate; auto.
  destruct (cmp x y) eqn:Exy; try discriminate.
  - apply cmp_eq in Exy; subst y.
    destruct (cmp x z); try discriminate; auto. apply IH.
  - destruct (cmp y z) eqn:Eyz; try discriminate.
    + apply cmp_eq in Eyz; subst z. rewrite Exy. auto.
    + rewrite (cmp_trans _ _ _ Exy Eyz). auto.
Qed.

End LexOrder.

Lemma code_inj (x y : ascii) : Py.code x = Py.code y -> x = y.
Proof.
  unfold Py.code; intros H.
  rewrite <- (ascii_nat_embedding x), <- (ascii_nat_embedding y), H.
  reflexivity.
Qed.

Lemma char_compare_eq (x y : ascii) : Py.char_compare x y = Eq <-> x = y.
Proof.
  unfold Py.char_compare. rewrite Nat.compare_eq_iff.
  split; [apply code_inj | congruence].
Qed.

Lemma char_compare_antisym (x y : ascii) :
  Py.char_compare y x = CompOpp (Py.char_compare x y).
Proof. unfold Py.char_compare. apply Nat.compare_antisym. Qed.

Lemma char_compare_trans (x y z : ascii) :
  Py.char_compare x y = Lt -> Py.char_compare y z = Lt ->
  Py.char_compare x z = Lt.
Proof.
  unfold Py.char_compare. rewrite !Nat.compare_lt_iff. lia.
Qed.

Lemma str_compare_eq (a b : str) : Py.str_compare a b = Eq <-> a = b.
Proof. apply lex_compare_eq, char_compare_eq. Qed.

Lemma str_compare_antisym (a b : str) :
  Py.str_compare b a = CompOpp (Py.str_compare a b).
Proof. apply lex_compare_antisym, char_compare_antisym. Qed.

Lemma str_compare_trans (a b c : str) :
  Py.str_compare a b = Lt -> Py.str_compare b c = Lt ->
  Py.str_compare a c = Lt.
Proof.
  apply lex_compare_trans;
    [apply char_compare_eq | apply char_compare_trans].
Qed.

(** ** [sorted] *)

Section Sorted.

Context {A : Type} (cmp : A -> A -> comparison).
Hypothesis cmp_eq : forall x y, cmp x y = Eq <-> x = y.
Hypothesis cmp_antisym : forall x y, cmp y x = CompOpp (cmp x y).
Hypothesis cmp_trans :
  forall x y z, cmp x y = Lt -> cmp y z = Lt -> cmp x z = Lt.

Let leb := Py.leb_of cmp.
Let le (x y : A) : Prop := leb x y = true.
Let lt (x y : A) : Prop := cmp x y = Lt.

Lemma leb_total (x y : A) : leb x y = true \/ leb y x = true.
Proof.
  unfold leb, Py.leb_of. rewrite (cmp_antisym x y).
  destruct (cmp x y); simpl; auto.
Qed.

Lemma le_lt_or_eq (x y : A) : le x y <-> lt x y \/ x = y.
Proof.
  unfold le, lt, leb, Py.leb_of. rewrite <- cmp_eq.
  destruct (cmp x y); split; intros H; auto; try discriminate;
    destruct H; discriminate.
Qed.

Lemma le_trans (x y z : A) : le x y -> le y z -> le x z.
Proof.
  rewrite !le_lt_or_eq. intros [H1| ->] [H2| ->]; auto.
  left; eapply cmp_trans; eauto.
Qed.

Lemma insert_perm (x : A) (l : list A) :
  Permutation (Py.insert leb x l) (x :: l).
Proof.
  induction l as [|y l IH]; simpl; auto.
  destruct (leb x y); auto.
  rewrite IH. apply perm_swap.
Qed.

Lemma sorted_perm (l : list A) : Permutation (Py.sorted leb l) l.
Proof.
  induction l as [|x l IH]; simpl; auto.
  rewrite insert_perm. auto.
Qed.

Lemma sorted_In (l : list A) (x : A) : In x (Py.sorted leb l) <-> In x l.
Proof.
  split; apply Permutation_in; [|symmetry]; apply sorted_perm.
Qed.

Lemma insert_sorted (x : A) (l : list A) :
  StronglySorted le l -> StronglySorted le (Py.insert leb x l).
Proof.
  induction 1 as [|y l Hs IH Hy]; simpl.
  - constructor; constructor.
  - destruct (leb x y) eqn:E.
    + constructor; [constructor; auto|].
      constructor; auto.
      eapply Forall_impl; [|exact Hy]. intros z Hz.
      eapply le_trans; eauto.
    + constructor; auto.
      assert (Hyx : le y x) by (destruct (leb_total x y); congruence).
      eapply Permutation_Forall; [symmetry; apply insert_perm|].
      constructor; auto.
Qed.

Lemma sorted_sorted (l : list A) : StronglySorted le (Py.sorted leb l).
Proof.
  induction l; simpl; [constructor | apply insert_sorted; auto].
Qed.

Lemma sorted_fix (l : list A) : StronglySorted le l -> Py.sorted leb l = l.
Proof.
  induction 1 as [|x l Hs IH Hx]; simpl; auto.
  rewrite IH. destruct l as [|y l]; simpl; auto.
  inversion Hx as [|? ? Hxy _]; subst. unfold le in Hxy. rewrite Hxy. auto.
Qed.

Lemma sorted_nodup_lt (l : list A) :
  StronglySorted le l -> NoDup l -> StronglySorted lt l.
Proof.
  induction 1 as [|x l Hs IH Hx]; intros Hnd; constructor;
    inversion Hnd; subst; auto.
  rewrite Forall_forall in *. intros y Hy.
  destruct (proj1 (le_lt_or_eq x y) (Hx y Hy)); auto.
  subst; contradiction.
Qed.

Lemma sorted_lt_le (l : list A) : StronglySorted lt l -> StronglySorted le l.
Proof.
  induction 1 as [|x l Hs IH Hx]; constructor; auto.
  eapply Forall_impl; [|exact Hx]. intros y Hy.
  apply le_lt_or_eq; auto.
Qed.

Lemma sorted_lt_NoDup (l : list A) : StronglySorted lt l -> NoDup l.
Proof.
  induction 1 as [|x l Hs IH Hx]; constructor; auto.
  intros Hin. rewrite Forall_forall in Hx. specialize (Hx x Hin).
  unfold lt in Hx. assert (cmp x x = Eq) by (apply cmp_eq; auto). congruence.
Qed.

End Sorted.

Lemma set_In (l : list str) (x : str) : In x (Py.set l) <-> In x l.
Proof. apply nodup_In. Qed.

Lemma sorted_set_ascending (l : list str) :
  ascending (Py.sorted Py.str_leb (Py.set l)).
Proof.
  apply (sorted_nodup_lt Py.str_compare str_compare_eq).
  - apply sorted_sorted;
      [apply str_compare_eq | apply str_compare_antisym
      | apply str_compare_trans].
  - eapply Permutation_NoDup;
      [symmetry; apply sorted_perm | apply NoDup_nodup].
Qed.

Lemma sorted_set_In (l : list str) (x : str) :
  In x (Py.sorted Py.str_leb (Py.set l)) <-> In x l.
Proof.
  unfold Py.str_leb. rewrite sorted_In. apply set_In.
Qed.

Lemma sorted_set_fix (l : list str) :
  ascending l -> Py.sorted Py.str_leb (Py.set l) = l.
Proof.
  intros H. unfold Py.set.
  rewrite nodup_fixed_point
    by (apply (sorted_lt_NoDup Py.str_compare str_compare_eq); exact H).
  apply sorted_fix.
  apply (sorted_lt_le Py.str_compare str_compare_eq). exact H.
Qed.

(** ** The collecting loop *)

Lemma collect_In (step : str -> result (option str)) (urls out : list str) :
  collect step urls = Ok out ->
  forall v, In v out <-> exists u, In u urls /\ step u = Ok (Some v).
Proof.
  revert out; induction urls as [|u urls IH]; simpl; intros out H v.
  - inversion H; subst. split; [intros [] | intros (? & [] & _)].
  - apply bind_Ok in H as (r & Hr & H).
    apply bind_Ok in H as (out' & Hout & H).
    inversion H; subst; clear H. specialize (IH _ Hout v).
    destruct r as [w|]; simpl; rewrite IH; split.
    + intros [->|(u' & Hin & Hu')]; [exists u; auto | exists u'; auto].
    + intros (u' & [->|Hin] & Hu'); [left; congruence | right; exists u'; auto].
    + intros (u' & Hin & Hu'); exists u'; auto.
    + intros (u' & [->|Hin] & Hu'); [congruence | exists u'; auto].
Qed.

Lemma collect_fix (step : str -> result (option str)) (l : list str) :
  Forall (fun v => step v = Ok (Some v)) l -> collect step l = Ok l.
Proof.
  induction 1 as [|v l Hv _ IH]; simpl; auto.
  rewrite Hv; simpl. rewrite IH; simpl. reflexivity.
Qed.

Lemma collect_weaken (step1 step2 : str -> result (option str))
    (urls p : list str) :
  (forall u r, step1 u = Ok r ->
     exists r', step2 u = Ok r' /\ forall v, r = Some v -> r' = Some v) ->
  collect step1 urls = Ok p ->
  exists a, collect step2 urls = Ok a /\ incl p a.
Proof.
  intros Hstep. revert p; induction urls as [|u urls IH]; simpl; intros p H.
  - inversion H; subst. exists []; split; auto. apply incl_refl.
  - apply bind_Ok in H as (r & Hr & H).
    apply bind_Ok in H as (p' & Hp' & H).
    inversion H; subst; clear H.
    destruct (Hstep _ _ Hr) as (r' & Hr' & Hrr').
    destruct (IH _ Hp') as (a' & Ha' & Hincl).
    rewrite Hr', Ha'; simpl. eexists; split; [reflexivity|].
    destruct r as [v|].
    + rewrite (Hrr' v eq_refl). apply incl_cons; [left; auto|].
      apply incl_tl; auto.
    + destruct r'; [apply incl_tl|]; auto.
Qed.

(** ** Both filters return a strictly ascending list *)

Section FilterOrder.

Variable chk : str -> option string.

Lemma normalize_pages_only_In urls base sub pqf out :
  normalize_pages_only chk urls base sub pqf = Ok out ->
  forall v, In v out <->
    exists u, In u urls /\ pages_only_step chk base sub pqf u = Ok (Some v).
Proof.
  unfold normalize_pages_only; intros H v.
  apply bind_Ok in H as (l & Hl & H). inversion H; subst; clear H.
  rewrite sorted_set_In. eapply collect_In; eauto.
Qed.

Lemma normalize_internal_all_In urls base sub pqf out :
  normalize_internal_all chk urls base sub pqf = Ok out ->
  forall v, In v out <->
    exists u, In u urls /\ internal_all_step chk base sub pqf u = Ok (Some v).
Proof.
  unfold normalize_internal_all; intros H v.
  apply bind_Ok in H as (l & Hl & H). inversion H; subst; clear H.
  rewrite sorted_set_In. eapply collect_In; eauto.
Qed.

Lemma normalize_pages_only_ascending urls base sub pqf out :
  normalize_pages_only chk urls base sub pqf = Ok out -> ascending out.
Proof.
  unfold normalize_pages_only; intros H.
  apply bind_Ok in H as (l & Hl & H). inversion H; subst.
  apply sorted_set_ascending.
Qed.

Lemma normalize_internal_all_ascending urls base sub pqf out :
  normalize_internal_all chk urls base sub pqf = Ok out -> ascending out.
Proof.
  unfold normalize_internal_all; intros H.
  apply bind_Ok in H as (l & Hl & H). inversion H; subst.
  apply sorted_set_ascending.
Qed.

Lemma ascending_NoDup (l : list str) : ascending l -> NoDup l.
Proof. apply (sorted_lt_NoDup Py.str_compare str_compare_eq). Qed.

Lemma pages_step_weaker base sub pqf u r :
  pages_only_step chk base sub pqf u = Ok r ->
  exists r', internal_all_step chk base sub pqf u = Ok r' /\
             forall v, r = Some v -> r' = Some v.
Proof.
  unfold pages_only_step, internal_all_step.
  destruct (Py.is_empty (Py.strip u)).
  { intros H; inversion H; subst. eexists; split; [reflexivity|discriminate]. }
  destruct (urlsplit chk (Py.strip u)) as [pu|e]; cbn [bind]; [|discriminate].
  destruct (negb (http_scheme (scheme pu))).
  { intros H; inversion H; subst. eexists; split; [reflexivity|discriminate]. }
  destruct (negb (host_in_scope _ _ _)).
  { intros H; inversion H; subst. eexists; split; [reflexivity|discriminate]. }
  intros H; eexists; split; [reflexivity|].
  intros v ->.
  destruct (existsb _ ASSET_EXTS); [discriminate|].
  destruct (_ && _); [discriminate|]. congruence.
Qed.

End FilterOrder.

Section FilterClaims.

Variable chk : str -> option string.

(** C9. For every raw URL list and policy, the output of the filter, in
    either mode, has no duplicate strings and is sorted in ascending
    lexicographic order of the canonical URL strings (strictly, since it has
    no duplicates); the same input always yields that same output. *)
Theorem C9_filters_sorted_unique :
  forall pages_only urls base sub pqf out,
    filter_urls chk pages_only urls base sub pqf = Ok out ->
    NoDup out /\
    StronglySorted (fun a b => Py.str_leb a b = true) out /\
    ascending out /\
    (forall out',
        filter_urls chk pages_only urls base sub pqf = Ok out' ->
        out' = out).
Proof.
  intros pages_only urls base sub pqf out H.
  assert (Ha : ascending out).
  { destruct pages_only; simpl in H;
      [eapply normalize_pages_only_ascending
      | eapply normalize_internal_all_ascending];
      eauto. }
  split; [apply ascending_NoDup; auto|].
  split; [apply (sorted_lt_le Py.str_compare str_compare_eq); exact Ha|].
  split; [exact Ha|]. intros out' H'. congruence.
Qed.

(** C10. With the same base host and flags, every URL returned by the
    pages-only filter is also returned by the all-internal filter. *)
Theorem C10_pages_subset_internal :
  forall urls base sub pqf pages,
    normalize_pages_only chk urls base sub pqf = Ok pages ->
    exists internal,
      normalize_internal_all chk urls base sub pqf = Ok internal /\
      forall v, In v pages -> In v internal.
Proof.
  intros urls base sub pqf pages H.
  unfold normalize_pages_only in H. apply bind_Ok in H as (p & Hp & H).
  inversion H; subst; clear H.
  destruct (collect_weaken _ (internal_all_step chk base sub pqf) _ _
              (pages_step_weaker chk base sub pqf) Hp) as (a & Ha & Hincl).
  unfold normalize_internal_all. rewrite Ha; simpl.
  eexists; split; [reflexivity|].
  intros v. rewrite !sorted_set_In. apply Hincl.
Qed.

End FilterClaims.

(** ** Characters *)

#[global] Arguments Ascii.eqb : simpl never.

(** Turn the string literals of a goal into lists of characters. *)
Ltac unlit := cbv beta iota fix delta [lit list_ascii_of_string] in *.

Ltac all_chars c :=
  destruct c as [[] [] [] [] [] [] [] []]; vm_compute; try reflexivity;
  try discriminate; auto.

Lemma lower_char_idem (c : ascii) :
  Py.lower_char (Py.lower_char c) = Py.lower_char c.
Proof. all_chars c. Qed.

(** A character below [a] that [lower] leaves alone is not the lower case
    of anything else. *)
Lemma lower_char_fixes (d c : ascii) :
  Py.lower_char d = d -> (Py.code d <? 97) = true ->
  Ascii.eqb d (Py.lower_char c) = Ascii.eqb d c.
Proof.
  intros Hd Ha. destruct (Ascii.eqb_spec d c) as [->|Hne].
  - rewrite Hd. apply Ascii.eqb_refl.
  - apply Ascii.eqb_neq. intros ->. revert Hne Hd Ha. clear.
    destruct c as [[] [] [] [] [] [] [] []]; vm_compute; congruence.
Qed.

Lemma str_eqb_eq (a b : str) : Py.str_eqb a b = true <-> a = b.
Proof.
  revert b; induction a as [|x a IH]; intros [|y b]; simpl;
    try (split; [discriminate | discriminate]); [tauto|].
  rewrite andb_true_iff, IH, Ascii.eqb_eq.
  split; [intros [-> ->]|intros H; inversion H]; auto.
Qed.

Lemma str_eqb_refl (a : str) : Py.str_eqb a a = true.
Proof. apply str_eqb_eq; reflexivity. Qed.

Lemma is_empty_true (s : str) : Py.is_empty s = true <-> s = [].
Proof. destruct s; simpl; split; congruence. Qed.

Lemma is_empty_false (s : str) : Py.is_empty s = false <-> s <> [].
Proof. destruct s; simpl; split; congruence. Qed.

Lemma mem_In (c : ascii) (s : str) : Py.mem c s = true <-> In c s.
Proof.
  unfold Py.mem. rewrite existsb_exists. split.
  - intros (x & Hin & E). apply Ascii.eqb_eq in E; subst; auto.
  - intros H; exists c; split; auto. apply Ascii.eqb_refl.
Qed.

Lemma mem_false (c : ascii) (s : str) : Py.mem c s = false <-> ~ In c s.
Proof. rewrite <- mem_In. destruct (Py.mem c s); split; congruence. Qed.

Lemma mem_app (c : ascii) (a b : str) :
  Py.mem c (a ++ b) = Py.mem c a || Py.mem c b.
Proof. apply existsb_app. Qed.

Lemma mem_lower (d : ascii) (s : str) :
  Py.lower_char d = d -> (Py.code d <? 97) = true ->
  Py.mem d (Py.lower s) = Py.mem d s.
Proof.
  intros Hd Ha. unfold Py.mem, Py.lower.
  induction s as [|c s IH]; simpl; auto.
  rewrite lower_char_fixes by assumption. rewrite IH. reflexivity.
Qed.

Lemma lower_idem (s : str) : Py.lower (Py.lower s) = Py.lower s.
Proof.
  unfold Py.lower. rewrite map_map. apply map_ext, lower_char_idem.
Qed.

Lemma lower_app (a b : str) : Py.lower (a ++ b) = Py.lower a ++ Py.lower b.
Proof. apply map_app. Qed.

(** ** Prefixes, suffixes and scans *)

Lemma startswith_app (p s : str) : Py.startswith p (p ++ s) = true.
Proof.
  induction p as [|a p IH]; simpl; auto.
  rewrite Ascii.eqb_refl; auto.
Qed.

Lemma startswith_single (a c : ascii) (t : str) :
  Py.startswith [a] (c :: t) = Ascii.eqb a c.
Proof. simpl. apply andb_true_r. Qed.

Lemma startswith_spec (p s : str) :
  Py.startswith p s = true <-> exists t, s = p ++ t.
Proof.
  split.
  - revert s; induction p as [|a p IH]; intros s H; simpl in *.
    + exists s; auto.
    + destruct s as [|b s]; [discriminate|].
      apply andb_true_iff in H as [E H]. apply Ascii.eqb_eq in E; subst.
      destruct (IH _ H) as (t & ->). exists t; auto.
  - intros (t & ->). apply startswith_app.
Qed.

Lemma endswith_spec (suf s : str) :
  Py.endswith suf s = true <-> exists t, s = t ++ suf.
Proof.
  unfold Py.endswith. rewrite startswith_spec. split; intros (t & H).
  - exists (rev t). rewrite <- (rev_involutive s), H, rev_app_distr.
    rewrite rev_involutive. reflexivity.
  - exists (rev t). rewrite H, rev_app_distr. reflexivity.
Qed.

Lemma endswith_last (c d : ascii) (x : str) :
  Py.endswith [c] (x ++ [d]) = Ascii.eqb c d.
Proof.
  unfold Py.endswith. rewrite rev_app_distr. simpl.
  destruct (Ascii.eqb c d); auto.
Qed.

Lemma endswith_cons (suf : str) (c : ascii) (s : str) :
  Py.endswith suf (c :: s) = Py.endswith suf s || Py.str_eqb suf (c :: s).
Proof.
  destruct (Py.endswith suf (c :: s)) eqn:E.
  - apply endswith_spec in E as (t & E). symmetry.
    destruct t as [|c' t]; simpl in E.
    + subst suf. rewrite str_eqb_refl. apply orb_true_r.
    + inversion E; subst. apply orb_true_iff; left.
      apply endswith_spec. exists t; auto.
  - symmetry. apply orb_false_iff. split.
    + destruct (Py.endswith suf s) eqn:E'; auto.
      apply endswith_spec in E' as (t & ->).
      rewrite <- E. symmetry. apply endswith_spec. exists (c :: t); auto.
    + destruct (Py.str_eqb suf (c :: s)) eqn:E'; auto.
      apply str_eqb_eq in E'. subst suf. rewrite <- E. symmetry.
      apply endswith_spec. exists []; auto.
Qed.

Lemma take_drop_while (p : ascii -> bool) (s : str) :
  Py.take_while p s ++ Py.drop_while p s = s.
Proof.
  induction s as [|c s IH]; simpl; auto.
  destruct (p c); simpl; congruence.
Qed.

Lemma take_while_Forall (p : ascii -> bool) (s : str) :
  Forall (fun c => p c = true) (Py.take_while p s).
Proof.
  induction s as [|c s IH]; simpl; auto.
  destruct (p c) eqn:E; auto.
Qed.

Lemma drop_while_head (p : ascii -> bool) (s : str) :
  match Py.drop_while p s with
  | [] => True
  | c :: _ => p c = false
  end.
Proof.
  induction s as [|c s IH]; simpl; auto.
  destruct (p c) eqn:E; auto.
Qed.

Lemma take_while_app (p : ascii -> bool) (a b : str) :
  Forall (fun c => p c = true) a ->
  match b with [] => True | c :: _ => p c = false end ->
  Py.take_while p (a ++ b) = a /\ Py.drop_while p (a ++ b) = b.
Proof.
  intros Ha Hb. induction Ha as [|c a Hc _ IH]; simpl.
  - destruct b as [|c b]; simpl; auto. rewrite Hb. auto.
  - rewrite Hc. destruct IH as [-> ->]. auto.
Qed.

Lemma drop_while_none (p : ascii -> bool) (s : str) :
  match s with [] => True | c :: _ => p c = false end ->
  Py.drop_while p s = s.
Proof. destruct s as [|c s]; simpl; auto. intros ->; auto. Qed.

Lemma rstrip_by_none (p : ascii -> bool) (x : str) (c : ascii) :
  p c = false -> Py.rstrip_by p (x ++ [c]) = x ++ [c].
Proof.
  intros H. unfold Py.rstrip_by. rewrite rev_app_distr. simpl.
  rewrite H. simpl. rewrite rev_involutive. reflexivity.
Qed.

Lemma filter_all {A} (p : A -> bool) (l : list A) :
  Forall (fun x => p x = true) l -> filter p l = l.
Proof.
  induction 1 as [|x l Hx _ IH]; simpl; auto.
  rewrite Hx, IH. reflexivity.
Qed.

Lemma filter_Forall {A} (p : A -> bool) (l : list A) :
  Forall (fun x => p x = true) (filter p l).
Proof.
  apply Forall_forall. intros x Hx. apply filter_In in Hx. tauto.
Qed.

(** ** [partition] and [split_at] *)

Lemma partition_Some (c : ascii) (s a b : str) :
  Py.partition c s = Some (a, b) <-> s = a ++ c :: b /\ ~ In c a.
Proof.
  revert a b; induction s as [|x s IH]; intros a b; simpl.
  - split; [discriminate|]. intros [H _]. destruct a; discriminate.
  - destruct (Ascii.eqb_spec x c) as [->|Hne].
    + split.
      * intros H; inversion H; subst. simpl; auto.
      * intros [H Hn]. destruct a as [|y a]; simpl in H.
        -- inversion H; subst; auto.
        -- inversion H; subst. exfalso; apply Hn; left; auto.
    + destruct (Py.partition c s) as [[a' b']|] eqn:E.
      * split.
        -- intros H; inversion H; subst.
           destruct (proj1 (IH a' b) eq_refl) as [-> Hn].
           split; auto. intros [?|?]; auto.
        -- intros [H Hn]. destruct a as [|y a]; simpl in H; inversion H; subst.
           ++ congruence.
           ++ assert (Some (a', b') = Some (a, b)) as E'.
              { apply IH. split; auto. intros ?; apply Hn; right; auto. }
              inversion E'; subst; auto.
      * split; [discriminate|]. intros [H Hn].
        destruct a as [|y a]; simpl in H; inversion H; subst.
        -- congruence.
        -- assert (None = Some (a, b)) as E'.
           { apply IH. split; auto. intros ?; apply Hn; right; auto. }
           discriminate.
Qed.

Lemma partition_None (c : ascii) (s : str) :
  Py.partition c s = None <-> ~ In c s.
Proof.
  induction s as [|x s IH]; simpl.
  - split; auto.
  - destruct (Ascii.eqb_spec x c) as [->|Hne].
    + split; [discriminate|]. intros H; exfalso; apply H; auto.
    + destruct (Py.partition c s) as [[a b]|].
      * split; [discriminate|]. intros H. exfalso.
        assert (~ In c s) by (intros ?; apply H; auto).
        apply IH in H0. discriminate.
      * split; auto. intros _ [?|?]; [congruence|]. apply IH; auto.
Qed.

Lemma split_at_found (c : ascii) (a b : str) :
  ~ In c a -> split_at c (a ++ c :: b) = (a, b).
Proof.
  intros H. unfold split_at.
  rewrite (proj2 (partition_Some c (a ++ c :: b) a b)); auto.
Qed.

Lemma split_at_absent (c : ascii) (a : str) :
  ~ In c a -> split_at c a = (a, []).
Proof.
  intros H. unfold split_at. rewrite (proj2 (partition_None c a)); auto.
Qed.

Lemma split_at_inv (c : ascii) (s a b : str) :
  split_at c s = (a, b) ->
  ~ In c a /\ (s = a ++ c :: b \/ (s = a /\ b = [])).
Proof.
  unfold split_at. destruct (Py.partition c s) as [[a' b']|] eqn:E.
  - intros H; inversion H; subst. apply partition_Some in E as [-> Hn]. auto.
  - intros H; inversion H; subst. apply partition_None in E. auto.
Qed.

(** ** [urlsplit], stage by stage *)

Section UrlsplitFacts.

Variable chk : str -> option string.

Lemma urlsplit_unfold (url : str) :
  urlsplit chk url =
  let '(s, r) := split_scheme (prepare url) in
  '(n, r) <- split_authority chk r ;;
  let '(p, f) := split_at "#" r in
  let '(p, q) := split_at "?" p in
  Ok (mkSplit s n p q f).
Proof. reflexivity. Qed.

Lemma urlsplit_Ok_inv (url : str) (pu : SplitResult) :
  urlsplit chk url = Ok pu ->
  exists r r' p1,
    split_scheme (prepare url) = (scheme pu, r) /\
    split_authority chk r = Ok (netloc pu, r') /\
    split_at "#" r' = (p1, fragment pu) /\
    split_at "?" p1 = (path pu, query pu).
Proof.
  rewrite urlsplit_unfold.
  destruct (split_scheme (prepare url)) as [s r] eqn:Es.
  intros H. apply bind_Ok in H as ([n r'] & Ha & H).
  destruct (split_at "#" r') as [p1 f] eqn:Ef.
  destruct (split_at "?" p1) as [p q] eqn:Eq.
  inversion H; subst; simpl. exists r, r', p1. auto.
Qed.

Lemma prepare_safe (url : str) :
  Forall (fun c => safe_char c = true) (prepare url).
Proof. apply filter_Forall. Qed.

Lemma split_scheme_tail (url s r : str) :
  split_scheme url = (s, r) -> exists pre, url = pre ++ r.
Proof.
  unfold split_scheme.
  destruct (Py.partition ":" url) as [[[|c0 pre] post]|] eqn:E;
    try (intros H; inversion H; subst; exists []; reflexivity).
  destruct (_ && _).
  - intros H; inversion H; subst. apply partition_Some in E as [-> _].
    exists ((c0 :: pre) ++ [":"%char]). rewrite <- app_assoc. reflexivity.
  - intros H; inversion H; subst; exists []; reflexivity.
Qed.

Lemma split_authority_spec (r : str) :
  split_authority chk r =
  if Py.startswith "//" r then
    match bracket_error chk (fst (_splitnetloc r 2)) with
    | Some msg => Raise (ValueError msg)
    | None => Ok (_splitnetloc r 2)
    end
  else Ok ([], r).
Proof.
  unfold split_authority, bracket_error.
  destruct (Py.startswith "//" r); [|reflexivity].
  unfold _splitnetloc. cbn [fst].
  destruct (bracket_mismatch _); [reflexivity|].
  destruct (Py.mem "[" _ && Py.mem "]" _); reflexivity.
Qed.

Lemma bracket_error_None (n : str) :
  bracket_error chk n = None <->
  bracket_mismatch n = false /\
  (Py.mem "[" n && Py.mem "]" n = true -> chk n = None).
Proof.
  unfold bracket_error. destruct (bracket_mismatch n).
  - split; [discriminate | intros [H _]; discriminate].
  - destruct (Py.mem "[" n && Py.mem "]" n).
    + split; [auto | intros [_ H]; auto].
    + split; [split; [auto | discriminate] | auto].
Qed.

Lemma split_authority_Ok (url n r : str) :
  split_authority chk url = Ok (n, r) ->
  (url = "/"%char :: "/"%char :: n ++ r \/ (n = [] /\ r = url)) /\
  Forall (fun c => netloc_delim c = false) n /\
  bracket_mismatch n = false /\
  (Py.mem "[" n && Py.mem "]" n = true -> chk n = None) /\
  (n <> [] -> match r with [] => True | c :: _ => netloc_delim c = true end).
Proof.
  rewrite split_authority_spec.
  destruct (Py.startswith "//" url) eqn:Es.
  - apply startswith_spec in Es as (t & ->).
    unfold _splitnetloc. simpl skipn. cbn [fst].
    set (p := fun c => negb (netloc_delim c)).
    destruct (bracket_error chk (Py.take_while p t)) eqn:Eb; [discriminate|].
    intros H; inversion H; subst n r; clear H.
    apply bracket_error_None in Eb as [Hb Hc].
    split; [left; rewrite (take_drop_while p t); reflexivity|].
    split.
    { eapply Forall_impl; [|apply (take_while_Forall p t)].
      unfold p; intros c Hcc. destruct (netloc_delim c); auto. }
    split; [exact Hb|]. split; [exact Hc|].
    intros _. pose proof (drop_while_head p t) as Hd.
    destruct (Py.drop_while p t) as [|c r]; auto.
    unfold p in Hd. destruct (netloc_delim c); auto.
  - intros H; inversion H; subst. repeat split; auto.
    + discriminate.
    + intros Hn; exfalso; apply Hn; reflexivity.
Qed.

Lemma urlsplit_wf (url : str) (pu : SplitResult) :
  urlsplit chk url = Ok pu -> split_wf chk pu.
Proof.
  intros H. apply urlsplit_Ok_inv in H as (r & r' & p1 & Hs & Ha & Hf & Hq).
  apply split_scheme_tail in Hs as (pre & Hpre).
  pose proof (prepare_safe url) as Hsafe. rewrite Hpre in Hsafe.
  apply Forall_app in Hsafe as [_ Hsafe].
  apply split_authority_Ok in Ha as (Hshape & Hn & Hb & Hc & Hhead).
  apply split_at_inv in Hf as (Hnf & Hf).
  apply split_at_inv in Hq as (Hnq & Hq).
  assert (Hsafe' : Forall (fun c => safe_char c = true)
                     (netloc pu ++ r')).
  { destruct Hshape as [->|[-> ->]]; auto.
    inversion Hsafe as [|? ? _ H1]; subst. inversion H1; subst; auto. }
  apply Forall_app in Hsafe' as [Hsn Hsr'].
  assert (Hsp1 : Forall (fun c => safe_char c = true) p1 /\
                 Forall (fun c => safe_char c = true) (fragment pu)).
  { destruct Hf as [->|[-> ->]]; auto.
    apply Forall_app in Hsr' as [? Hx]. inversion Hx; subst; auto. }
  destruct Hsp1 as [Hsp1 Hsf].
  assert (Hspq : Forall (fun c => safe_char c = true) (path pu) /\
                 Forall (fun c => safe_char c = true) (query pu)).
  { destruct Hq as [E|[E ->]]; rewrite E in Hsp1; auto.
    apply Forall_app in Hsp1 as [? Hx]. inversion Hx; subst; auto. }
  destruct Hspq as [Hsp Hsq].
  constructor; auto.
  - repeat (apply Forall_app; split); auto.
  - intros Hin. apply Hnf. destruct Hq as [->|[-> _]]; auto.
    apply in_or_app; auto.
  - intros Hin. apply Hnf. destruct Hq as [->|[-> Hq]].
    + apply in_or_app; right; right; auto.
    + rewrite Hq in Hin. destruct Hin.
  - intros Hne. specialize (Hhead Hne).
    assert (Hr' : r' = [] \/ exists c t, r' = c :: t /\ netloc_delim c = true).
    { destruct r' as [|c t]; auto. right; exists c, t; auto. }
    destruct Hr' as [->|(c & t & -> & Hc')].
    + left. destruct Hf as [Hf|[<- _]].
      * destruct p1; discriminate.
      * destruct Hq as [Hq|[Hq _]]; [destruct (path pu); discriminate | auto].
    + assert (Hp1' : p1 = [] \/ exists t', p1 = c :: t').
      { destruct Hf as [Hf|[Hf _]]; [|right; exists t; auto].
        destruct p1 as [|c1 p1]; auto. inversion Hf; subst. right; eauto. }
      destruct Hp1' as [->|(t' & ->)].
      * left.
        destruct Hq as [Hq|[Hq _]]; [destruct (path pu); discriminate | auto].
      * destruct (path pu) as [|c2 t2] eqn:Ep; auto. right.
        assert (c2 = c).
        { destruct Hq as [Hq|[Hq _]]; inversion Hq; auto. }
        subst c2. exists t2. f_equal.
        unfold netloc_delim in Hc'. simpl in Hc'.
        destruct (Ascii.eqb_spec c "/"); auto.
        destruct (Ascii.eqb_spec c "?").
        { subst. exfalso. apply Hnq. left; auto. }
        destruct (Ascii.eqb_spec c "#").
        { subst. exfalso. apply Hnf.
          destruct Hq as [Hq|[Hq _]]; rewrite Hq; left; auto. }
        discriminate.
Qed.

End UrlsplitFacts.

(** ** [_normalize_path] *)

Lemma sub_slashes_cons2 (c c' : ascii) (t : str) :
  Re.sub_slashes (c :: c' :: t) =
  if Ascii.eqb c "/" && Ascii.eqb c' "/" then Re.sub_slashes (c' :: t)
  else c :: Re.sub_slashes (c' :: t).
Proof. reflexivity. Qed.

Lemma sub_slashes_head (c : ascii) (t : str) :
  exists r, Re.sub_slashes (c :: t) = c :: r.
Proof.
  revert c; induction t as [|c' t IH]; intros c.
  - exists []; reflexivity.
  - rewrite sub_slashes_cons2.
    destruct (Ascii.eqb_spec c "/") as [-> |]; simpl andb; cbv iota.
    + destruct (Ascii.eqb_spec c' "/") as [-> |]; [apply IH | eauto].
    + eauto.
Qed.

Lemma sub_slashes_length (s : str) :
  List.length (Re.sub_slashes s) <= List.length s.
Proof.
  induction s as [|c [|c' t] IH]; auto.
  rewrite sub_slashes_cons2. destruct (_ && _); simpl in *; lia.
Qed.

Lemma sub_slashes_In (c : ascii) (s : str) :
  In c (Re.sub_slashes s) -> In c s.
Proof.
  induction s as [|x [|c' t] IH]; auto.
  rewrite sub_slashes_cons2. destruct (_ && _).
  - intros H; right; auto.
  - intros [-> |H]; [left; auto | right; auto].
Qed.

Lemma sub_slashes_fix_iff (s : str) : Re.sub_slashes s = s <-> no_dslash s.
Proof.
  split.
  - induction s as [|c [|c' t] IH]; intros H a b E.
    + destruct a; discriminate.
    + destruct a as [|? [|? ?]]; discriminate.
    + rewrite sub_slashes_cons2 in H.
      destruct (Ascii.eqb c "/" && Ascii.eqb c' "/") eqn:Ec.
      * pose proof (sub_slashes_length (c' :: t)) as Hl.
        rewrite H in Hl. simpl in Hl. lia.
      * inversion H as [H']. destruct a as [|x a]; simpl in E.
        -- inversion E; subst. simpl in Ec. discriminate.
        -- inversion E; subst. eapply IH; eauto.
  - induction s as [|c [|c' t] IH]; intros H; auto.
    rewrite sub_slashes_cons2.
    destruct (Ascii.eqb_spec c "/") as [-> |]; simpl andb; cbv iota.
    + destruct (Ascii.eqb_spec c' "/") as [-> |].
      * exfalso. apply (H [] t). reflexivity.
      * f_equal. apply IH. intros a b E. apply (H ("/"%char :: a) b).
        simpl; congruence.
    + f_equal. apply IH. intros a b E. apply (H (c :: a) b).
      simpl; congruence.
Qed.

Lemma sub_slashes_idem (s : str) :
  Re.sub_slashes (Re.sub_slashes s) = Re.sub_slashes s.
Proof.
  induction s as [|c [|c' t] IH]; auto.
  rewrite sub_slashes_cons2.
  destruct (Ascii.eqb c "/" && Ascii.eqb c' "/") eqn:Ec; auto.
  destruct (sub_slashes_head c' t) as (r & Hr).
  rewrite Hr in *. rewrite sub_slashes_cons2, Ec, IH. reflexivity.
Qed.

Lemma no_dslash_sub_slashes (s : str) : no_dslash (Re.sub_slashes s).
Proof. apply sub_slashes_fix_iff, sub_slashes_idem. Qed.

Lemma no_dslash_prefix (a b : str) : no_dslash (a ++ b) -> no_dslash a.
Proof.
  intros H x y E. apply (H x (y ++ b)). rewrite E, <- app_assoc.
  reflexivity.
Qed.

Lemma no_dslash_startswith (p : str) :
  no_dslash p -> Py.startswith "//" p = false.
Proof.
  intros H. destruct (Py.startswith "//" p) eqn:E; auto.
  apply startswith_spec in E as (t & ->). exfalso. apply (H [] t).
  reflexivity.
Qed.

Lemma last_cases (s : str) : s = [] \/ exists x c, s = x ++ [c].
Proof.
  destruct s as [|c s]; auto. right.
  destruct (exists_last (l := c :: s)) as (x & d & ->); [discriminate|].
  eauto.
Qed.

Lemma normalize_path_cases (p : str) :
  let p1 := Re.sub_slashes (if Py.is_empty p then lit "/" else p) in
  (_normalize_path p = p1 /\ (p1 = lit "/" \/ Py.endswith "/" p1 = false)) \/
  (exists x, p1 = x ++ lit "/" /\ x <> [] /\ _normalize_path p = x).
Proof.
  intros p1. unfold _normalize_path. fold p1.
  destruct (Py.str_eqb p1 "/") eqn:E1; destruct (Py.endswith "/" p1) eqn:E2;
    simpl.
  - left. apply str_eqb_eq in E1. auto.
  - left. apply str_eqb_eq in E1. auto.
  - right. apply endswith_spec in E2 as (x & Hx). exists x.
    rewrite Hx. split; auto. split.
    + intros ->. rewrite Hx in E1. vm_compute in E1. discriminate.
    + apply removelast_last.
  - left. auto.
Qed.

Lemma normalize_path_normal (p : str) : normal_path (_normalize_path p).
Proof.
  pose proof (normalize_path_cases p) as H. cbv zeta in H.
  match type of H with
  | context [Re.sub_slashes ?a] => set (p0 := a) in *
  end.
  assert (Hp0 : p0 <> []) by (unfold p0; destruct p; discriminate).
  assert (Hne : Re.sub_slashes p0 <> []).
  { destruct p0 as [|c t]; [congruence|].
    destruct (sub_slashes_head c t) as (r & ->). discriminate. }
  pose proof (no_dslash_sub_slashes p0) as Hnd.
  destruct H as [[-> H]|(x & Hx & Hxne & ->)].
  - split; auto. split; auto. apply sub_slashes_idem.
  - rewrite Hx in Hnd. split; auto. split.
    + apply sub_slashes_fix_iff. eapply no_dslash_prefix; eauto.
    + right. destruct (last_cases x) as [-> |(y & c & ->)]; [congruence|].
      unlit. rewrite endswith_last. apply Ascii.eqb_neq. intros <-.
      apply (Hnd y []). rewrite <- app_assoc. reflexivity.
Qed.

Lemma normalize_path_fix (p : str) : normal_path p -> _normalize_path p = p.
Proof.
  intros (Hne & Hfix & Hend). unfold _normalize_path.
  destruct p as [|c t]; [congruence|]. simpl Py.is_empty. cbv iota.
  rewrite Hfix. destruct Hend as [-> | ->]; [reflexivity|].
  rewrite andb_false_r. reflexivity.
Qed.

Lemma normalize_path_In (c : ascii) (p : str) :
  In c (_normalize_path p) -> In c p \/ c = "/"%char.
Proof.
  pose proof (normalize_path_cases p) as H. cbv zeta in H.
  assert (Hin : forall d, In d (Re.sub_slashes (if Py.is_empty p then lit "/" else p)) ->
                          In d p \/ d = "/"%char).
  { intros d Hd. apply sub_slashes_In in Hd. destruct p; simpl in Hd; auto.
    destruct Hd as [<- |[]]; auto. }
  destruct H as [[-> _]|(x & Hx & _ & ->)]; auto.
  intros Hc. apply Hin. rewrite Hx. apply in_or_app; auto.
Qed.

Lemma lead_slash_normal (p : str) :
  normal_path p ->
  normal_path (lead_slash p) /\ exists t, lead_slash p = "/"%char :: t.
Proof.
  intros (Hne & Hfix & Hend). unfold lead_slash, normal_path. unlit.
  destruct p as [|c t]; [congruence|]. simpl Py.is_empty.
  rewrite startswith_single.
  destruct (Ascii.eqb_spec "/" c) as [<- |Hc]; cbn [negb andb app].
  - split; [split; auto | eauto].
  - split; [|eauto]. split; [discriminate|]. split.
    + apply sub_slashes_fix_iff. apply sub_slashes_fix_iff in Hfix.
      intros a b E. destruct a as [|x a]; simpl in E.
      * inversion E; subst. congruence.
      * inversion E; subst. eapply Hfix; eauto.
    + right. destruct Hend as [E|E]; [inversion E; congruence|].
      rewrite endswith_cons, E. reflexivity.
Qed.

Lemma lead_slash_fix (t : str) :
  lead_slash ("/"%char :: t) = "/"%char :: t.
Proof. reflexivity. Qed.

(** ** [urlunsplit] on http(s) components, and [urlsplit] of the result *)

Lemma http_scheme_cases (sch : str) :
  http_scheme sch = true -> sch = lit "http" \/ sch = lit "https".
Proof.
  unfold http_scheme. rewrite orb_true_iff, !str_eqb_eq. auto.
Qed.

Lemma urlunsplit_http (sch n p q f : str) :
  http_scheme sch = true -> Py.startswith "//" p = false ->
  urlunsplit (sch, n, p, q, f) =
  sch ++ lit "://" ++ n ++ lead_slash p ++ query_part q ++ fragment_part f.
Proof.
  intros Hs Hp. unfold urlunsplit.
  fold (lead_slash p). rewrite Hp.
  assert (E : negb (Py.is_empty sch) && existsb (Py.str_eqb sch) uses_netloc
              = true).
  { destruct (http_scheme_cases _ Hs) as [-> | ->]; reflexivity. }
  rewrite andb_true_r, E, orb_true_r.
  apply andb_true_iff in E as [E _]. rewrite E.
  unfold query_part, fragment_part.
  destruct (negb (Py.is_empty q)); destruct (negb (Py.is_empty f));
    unlit; simpl; rewrite <- ?app_assoc; simpl; rewrite ?app_nil_r;
    rewrite <- ?app_assoc; reflexivity.
Qed.

Section Compose.

Variable chk : str -> option string.

Lemma split_authority_compose (n r : str) :
  Forall (fun c => netloc_delim c = false) n ->
  match r with [] => True | c :: _ => netloc_delim c = true end ->
  bracket_mismatch n = false ->
  (Py.mem "[" n && Py.mem "]" n = true -> chk n = None) ->
  split_authority chk ("/"%char :: "/"%char :: n ++ r) = Ok (n, r).
Proof.
  intros Hn Hr Hb Hc. unfold split_authority.
  assert (Es : Py.startswith "//" ("/"%char :: "/"%char :: n ++ r) = true)
    by (apply (startswith_app (lit "//"))).
  rewrite Es. unfold _splitnetloc. simpl skipn.
  destruct (take_while_app (fun c => negb (netloc_delim c)) n r) as [-> ->].
  - eapply Forall_impl; [|exact Hn]. intros c ->; reflexivity.
  - destruct r; auto. rewrite Hr; reflexivity.
  - rewrite Hb. destruct (Py.mem "[" n && Py.mem "]" n); auto.
    rewrite Hc; auto.
Qed.

Lemma safe_chars_app (a b : str) :
  Forall (fun c => safe_char c = true) a ->
  Forall (fun c => safe_char c = true) b ->
  Forall (fun c => safe_char c = true) (a ++ b).
Proof. intros; apply Forall_app; auto. Qed.

Lemma query_part_safe (q : str) :
  Forall (fun c => safe_char c = true) q ->
  Forall (fun c => safe_char c = true) (query_part q).
Proof.
  intros H. unfold query_part. destruct (negb (Py.is_empty q)); auto.
  constructor; auto.
Qed.

Lemma fragment_part_safe (f : str) :
  Forall (fun c => safe_char c = true) f ->
  Forall (fun c => safe_char c = true) (fragment_part f).
Proof.
  intros H. unfold fragment_part. destruct (negb (Py.is_empty f)); auto.
  constructor; auto.
Qed.

Lemma split_fragment_compose (x f : str) :
  ~ In "#"%char x -> split_at "#" (x ++ fragment_part f) = (x, f).
Proof.
  intros H. unfold fragment_part. destruct f as [|c f]; simpl Py.is_empty;
    cbn [negb].
  - rewrite app_nil_r. apply split_at_absent; auto.
  - apply (split_at_found "#" x (c :: f)); auto.
Qed.

Lemma split_query_compose (x q : str) :
  ~ In "?"%char x -> split_at "?" (x ++ query_part q) = (x, q).
Proof.
  intros H. unfold query_part. destruct q as [|c q]; simpl Py.is_empty;
    cbn [negb].
  - rewrite app_nil_r. apply split_at_absent; auto.
  - apply (split_at_found "?" x (c :: q)); auto.
Qed.

Lemma query_part_In (c : ascii) (q : str) :
  In c (query_part q) -> c = "?"%char \/ In c q.
Proof.
  unfold query_part. destruct (negb (Py.is_empty q)); simpl; [|tauto].
  intros [<- |H]; auto.
Qed.

(** Parsing what [urlunsplit] printed gives the components back. *)
Lemma urlsplit_compose (sch n p q f : str) :
  http_scheme sch = true ->
  Forall (fun c => safe_char c = true) (n ++ p ++ q ++ f) ->
  Forall (fun c => netloc_delim c = false) n ->
  bracket_mismatch n = false ->
  (Py.mem "[" n && Py.mem "]" n = true -> chk n = None) ->
  (exists t, p = "/"%char :: t) ->
  ~ In "?"%char p -> ~ In "#"%char p -> ~ In "#"%char q ->
  urlsplit chk
    (sch ++ lit "://" ++ n ++ p ++ query_part q ++ fragment_part f)
  = Ok (mkSplit sch n p q f).
Proof.
  intros Hs Hsafe Hn Hb Hc (t & Hp) Hpq Hpf Hqf.
  apply Forall_app in Hsafe as [Hsn Hsafe].
  apply Forall_app in Hsafe as [Hsp Hsafe].
  apply Forall_app in Hsafe as [Hsq Hsf].
  set (rest := p ++ query_part q ++ fragment_part f).
  assert (Hrest : Forall (fun c => safe_char c = true) (n ++ rest)).
  { repeat apply safe_chars_app;
      auto using query_part_safe, fragment_part_safe. }
  assert (Hprep : prepare (sch ++ lit "://" ++ n ++ rest)
                  = sch ++ lit "://" ++ n ++ rest).
  { unfold prepare.
    assert (El : Py.lstrip_by c0_control_or_space (sch ++ lit "://" ++ n ++ rest)
                 = sch ++ lit "://" ++ n ++ rest)
      by (destruct (http_scheme_cases _ Hs) as [-> | ->]; reflexivity).
    rewrite El. apply filter_all. fold safe_char.
    apply safe_chars_app;
      [destruct (http_scheme_cases _ Hs) as [-> | ->]; repeat constructor|].
    apply (safe_chars_app (lit "://")); [repeat constructor | auto]. }
  assert (Hsch : split_scheme (sch ++ lit "://" ++ n ++ rest)
                 = (sch, "/"%char :: "/"%char :: n ++ rest))
    by (destruct (http_scheme_cases _ Hs) as [-> | ->]; reflexivity).
  rewrite urlsplit_unfold, Hprep, Hsch.
  rewrite split_authority_compose; auto.
  2:{ unfold rest. rewrite Hp. reflexivity. }
  cbn [bind]. unfold rest.
  rewrite (app_assoc p), split_fragment_compose.
  2:{ intros Hin. apply in_app_or in Hin as [Hin|Hin]; auto.
      apply query_part_In in Hin as [Hin|Hin]; [discriminate | auto]. }
  rewrite split_query_compose; auto.
Qed.

End Compose.

(** ** One loop iteration, and what it appends *)

Lemma safe_char_lower (c : ascii) :
  safe_char (Py.lower_char c) = safe_char c.
Proof. all_chars c. Qed.

Lemma netloc_delim_lower (c : ascii) :
  netloc_delim (Py.lower_char c) = netloc_delim c.
Proof. all_chars c. Qed.

Lemma bracket_mismatch_lower (n : str) :
  bracket_mismatch (Py.lower n) = bracket_mismatch n.
Proof.
  unfold bracket_mismatch.
  rewrite (mem_lower "[" n), (mem_lower "]" n) by reflexivity. reflexivity.
Qed.

Lemma lead_slash_In (c : ascii) (p : str) :
  In c (lead_slash p) -> c = "/"%char \/ In c p.
Proof.
  unfold lead_slash. destruct (_ && _); auto.
  intros [<- |H]; auto.
Qed.

Section Steps.

Variable chk : str -> option string.

Lemma internal_step_Some base sub pqf u v :
  internal_all_step chk base sub pqf u = Ok (Some v) <->
  Py.strip u <> [] /\
  exists pu,
    urlsplit chk (Py.strip u) = Ok pu /\
    http_scheme (scheme pu) = true /\
    host_in_scope (Py.lower (netloc pu)) base sub = true /\
    v = urlunsplit (scheme pu, Py.lower (netloc pu),
                    _normalize_path (path pu),
                    if pqf then query pu else lit "",
                    if pqf then fragment pu else lit "").
Proof.
  unfold internal_all_step.
  destruct (Py.is_empty (Py.strip u)) eqn:Ee.
  { apply is_empty_true in Ee. split; [discriminate|].
    intros [H _]; congruence. }
  apply is_empty_false in Ee.
  destruct (urlsplit chk (Py.strip u)) as [pu|e]; cbn [bind].
  2:{ split; [discriminate|]. intros (_ & pu & H & _). discriminate. }
  destruct (http_scheme (scheme pu)) eqn:Eh; cbn [negb].
  2:{ split; [discriminate|]. intros (_ & pu' & H & H' & _).
      inversion H; subst. congruence. }
  destruct (host_in_scope _ _ _) eqn:Es; cbn [negb].
  2:{ split; [discriminate|]. intros (_ & pu' & H & _ & H' & _).
      inversion H; subst. congruence. }
  split.
  - intros H; inversion H; subst. split; auto. exists pu; auto.
  - intros (_ & pu' & H & _ & _ & ->). inversion H; subst. reflexivity.
Qed.

Lemma pages_step_Some base sub pqf u v :
  pages_only_step chk base sub pqf u = Ok (Some v) <->
  internal_all_step chk base sub pqf u = Ok (Some v) /\
  exists pu, urlsplit chk (Py.strip u) = Ok pu /\
             page_like (_normalize_path (path pu)) = true.
Proof.
  unfold pages_only_step, internal_all_step, page_like.
  destruct (Py.is_empty (Py.strip u)) eqn:Ee.
  { split; [discriminate|]. intros [H _]; discriminate. }
  destruct (urlsplit chk (Py.strip u)) as [pu|e]; cbn [bind].
  2:{ split; [discriminate|]. intros [H _]; discriminate. }
  destruct (http_scheme (scheme pu)) eqn:Eh; cbn [negb].
  2:{ split; [discriminate|]. intros [H _]; discriminate. }
  destruct (host_in_scope _ _ _) eqn:Es; cbn [negb].
  2:{ split; [discriminate|]. intros [H _]; discriminate. }
  destruct (existsb _ ASSET_EXTS) eqn:Ea; cbn [negb andb].
  { split; [discriminate|]. intros (_ & pu' & H & H'). inversion H; subst.
    rewrite Ea in H'. discriminate. }
  destruct (_ && _) eqn:Ed; cbn [negb].
  { split; [discriminate|]. intros (_ & pu' & H & H'). inversion H; subst.
    rewrite Ea in H'. cbn [negb andb] in H'. rewrite Ed in H'. discriminate. }
  split.
  - intros H; split; auto. exists pu; split; [reflexivity|].
    rewrite Ea, Ed. reflexivity.
  - intros [H _]; auto.
Qed.

End Steps.

(** ** Filtering a canonical URL again *)

Lemma existsb_endswith_slash (exts : list str) (s : str) :
  forallb (Py.startswith ".") exts = true ->
  existsb (fun ext => Py.endswith ext ("/"%char :: s)) exts =
  existsb (fun ext => Py.endswith ext s) exts.
Proof.
  induction exts as [|e exts IH]; simpl; auto.
  intros H. apply andb_true_iff in H as [He H]. rewrite IH by assumption.
  f_equal. rewrite endswith_cons.
  destruct (Py.str_eqb e ("/"%char :: s)) eqn:E; [|apply orb_false_r].
  apply str_eqb_eq in E. subst e. discriminate.
Qed.

Lemma page_like_lead (p : str) :
  p <> [] -> page_like (lead_slash p) = page_like p.
Proof.
  intros Hp. unfold lead_slash. destruct p as [|c t]; [congruence|].
  simpl Py.is_empty. cbn [negb andb].
  destruct (negb (Py.startswith "/" (c :: t))); auto.
  unfold page_like.
  change (Py.lower (lit "/" ++ c :: t)) with ("/"%char :: Py.lower (c :: t)).
  rewrite !existsb_endswith_slash by reflexivity.
  reflexivity.
Qed.

Section Reparse.

Variable chk : str -> option string.

(** The validation of a bracketed authority does not depend on letter case:
    hexadecimal digits and zone identifiers are accepted in either case. *)
Hypothesis chk_lower : forall n, chk n = None -> chk (Py.lower n) = None.

Lemma canonical_reparse (pu : SplitResult) (pqf : bool) :
  split_wf chk pu -> http_scheme (scheme pu) = true ->
  let host := Py.lower (netloc pu) in
  let p := lead_slash (_normalize_path (path pu)) in
  let q := if pqf then query pu else lit "" in
  let f := if pqf then fragment pu else lit "" in
  let v := urlunsplit (scheme pu, host, _normalize_path (path pu), q, f) in
  v = scheme pu ++ lit "://" ++ host ++ p ++ query_part q ++ fragment_part f
  /\ urlsplit chk v = Ok (mkSplit (scheme pu) host p q f)
  /\ urlunsplit (scheme pu, host, p, q, f) = v
  /\ _normalize_path p = p.
Proof.
  intros Hwf Hs host p q f v.
  pose proof (normalize_path_normal (path pu)) as Hnorm.
  destruct (lead_slash_normal _ Hnorm) as (Hnp & t & Ht). fold p in Hnp, Ht.
  assert (Hshape : v = scheme pu ++ lit "://" ++ host ++ p ++ query_part q
                       ++ fragment_part f).
  { unfold v. apply urlunsplit_http; auto.
    apply no_dslash_startswith, sub_slashes_fix_iff. apply Hnorm. }
  split; [exact Hshape|].
  destruct Hwf as [Hsafe Hnl Hpq Hpf Hqf Hbr Hck Hroot].
  apply Forall_app in Hsafe as [Hsn Hsafe].
  apply Forall_app in Hsafe as [Hsp Hsafe].
  apply Forall_app in Hsafe as [Hsq Hsf].
  assert (Hp_in : forall c, In c p -> c = "/"%char \/ In c (path pu)).
  { intros c Hc. apply lead_slash_In in Hc as [Hc|Hc]; auto.
    apply normalize_path_In in Hc. tauto. }
  split; [|split].
  - rewrite Hshape. apply urlsplit_compose; auto.
    + repeat apply safe_chars_app.
      * unfold host, Py.lower. apply Forall_map.
        eapply Forall_impl; [|exact Hsn]. intros c Hc.
        rewrite safe_char_lower; auto.
      * apply Forall_forall. intros c Hc.
        destruct (Hp_in c Hc) as [-> |Hin]; [reflexivity|].
        rewrite Forall_forall in Hsp; auto.
      * unfold q. destruct pqf; auto.
      * unfold f. destruct pqf; auto.
    + unfold host, Py.lower. apply Forall_map.
      eapply Forall_impl; [|exact Hnl]. intros c Hc.
      rewrite netloc_delim_lower; auto.
    + unfold host. rewrite bracket_mismatch_lower; auto.
    + unfold host. rewrite (mem_lower "[" (netloc pu)),
        (mem_lower "]" (netloc pu)) by reflexivity.
      intros Hm. apply chk_lower; auto.
    + eauto.
    + intros Hin. destruct (Hp_in _ Hin) as [E|E]; [discriminate | auto].
    + intros Hin. destruct (Hp_in _ Hin) as [E|E]; [discriminate | auto].
    + unfold q. destruct pqf; auto.
  - rewrite Hshape, urlunsplit_http; auto.
    + rewrite Ht. rewrite lead_slash_fix. reflexivity.
    + apply no_dslash_startswith, sub_slashes_fix_iff. apply Hnp.
  - apply normalize_path_fix; auto.
Qed.

Lemma canonical_nonempty (sch x : str) :
  http_scheme sch = true -> sch ++ x <> [].
Proof.
  intros H. destruct (http_scheme_cases _ H) as [-> | ->]; discriminate.
Qed.

Lemma internal_step_fix base sub pqf u v :
  internal_all_step chk base sub pqf u = Ok (Some v) ->
  Py.strip v = v ->
  internal_all_step chk base sub pqf v = Ok (Some v).
Proof.
  intros H Hstrip.
  apply internal_step_Some in H as (_ & pu & Hpu & Hs & Hscope & Hv).
  pose proof (urlsplit_wf _ _ _ Hpu) as Hwf.
  destruct (canonical_reparse pu pqf Hwf Hs) as (Hshape & Hre & Hun & Hnp).
  rewrite <- Hv in Hshape, Hre, Hun.
  apply internal_step_Some. rewrite Hstrip. split.
  - rewrite Hshape. apply canonical_nonempty; auto.
  - eexists; split; [exact Hre|]. cbn [scheme netloc path query fragment].
    rewrite lower_idem, Hnp. repeat split; auto.
    rewrite <- Hun. destruct pqf; reflexivity.
Qed.

Lemma pages_step_fix base sub pqf u v :
  pages_only_step chk base sub pqf u = Ok (Some v) ->
  Py.strip v = v ->
  pages_only_step chk base sub pqf v = Ok (Some v).
Proof.
  intros H Hstrip.
  apply pages_step_Some in H as (Hint & pu & Hpu & Hpage).
  pose proof Hint as Hint'.
  apply internal_step_Some in Hint' as (_ & pu' & Hpu' & Hs & _ & Hv).
  assert (pu' = pu) by congruence. subst pu'.
  pose proof (urlsplit_wf _ _ _ Hpu) as Hwf.
  destruct (canonical_reparse pu pqf Hwf Hs) as (_ & Hre & _ & Hnp).
  rewrite <- Hv in Hre.
  apply pages_step_Some. split; [eapply internal_step_fix; eauto|].
  rewrite Hstrip. eexists; split; [exact Hre|].
  cbn [path]. rewrite Hnp, page_like_lead; auto.
  apply normalize_path_normal.
Qed.

End Reparse.

(** ** Idempotence of filtering *)

Section Idempotence.

Variable chk : str -> option string.
Hypothesis chk_lower : forall n, chk n = None -> chk (Py.lower n) = None.

(** C6, amended.  Filtering is idempotent on every output whose URLs are
    unchanged by trimming (none ends in a whitespace character): when the
    filter, in either mode, returns such a list, applying it to that list
    with the same base host and flags returns exactly the same list in the
    same order. *)
Theorem C6_filter_idempotent_when_trimmed :
  forall pages_only urls base sub pqf out,
    filter_urls chk pages_only urls base sub pqf = Ok out ->
    Forall (fun v => Py.strip v = v) out ->
    filter_urls chk pages_only out base sub pqf = Ok out.
Proof.
  intros pages_only urls base sub pqf out H Htrim.
  assert (Hasc : ascending out).
  { destruct pages_only; simpl in H;
      [eapply normalize_pages_only_ascending
      | eapply normalize_internal_all_ascending]; eauto. }
  rewrite Forall_forall in Htrim.
  destruct pages_only; simpl in *.
  - unfold normalize_pages_only at 1.
    rewrite (collect_fix _ out).
    + cbn [bind]. rewrite sorted_set_fix; auto.
    + apply Forall_forall. intros v Hv.
      destruct (proj1 (normalize_pages_only_In chk _ _ _ _ _ H v) Hv)
        as (u & _ & Hu).
      eapply pages_step_fix; eauto.
  - unfold normalize_internal_all at 1.
    rewrite (collect_fix _ out).
    + cbn [bind]. rewrite sorted_set_fix; auto.
    + apply Forall_forall. intros v Hv.
      destruct (proj1 (normalize_internal_all_In chk _ _ _ _ _ H v) Hv)
        as (u & _ & Hu).
      eapply internal_step_fix; eauto.
Qed.

End Idempotence.

Lemma C6_filter_idempotent_witness :
  filter_urls accept_bracketed true
    (lits ["https://x.com/about.html"; "https://x.com/page"])
    "x.com" false false
  = Ok (lits ["https://x.com/about.html"; "https://x.com/page"]).
Proof.
  apply (C6_filter_idempotent_when_trimmed accept_bracketed
           (fun n _ => eq_refl) true
           (lits ["https://x.com/a.jpg"; "https://X.com//page/";
                  "https://x.com/about.html?x=1"])).
  - vm_compute. reflexivity.
  - repeat constructor.
Defined.

(** C6 as stated fails: a path that ends in a space once its trailing slash
    is removed is trimmed by the second pass. *)
Lemma C6_filter_not_idempotent :
  normalize_internal_all accept_bracketed (lits ["http://x.com/a /"])
    "x.com" false false = Ok (lits ["http://x.com/a "])
  /\ normalize_internal_all accept_bracketed (lits ["http://x.com/a "])
       "x.com" false false = Ok (lits ["http://x.com/a"])
  /\ ~ (forall pages_only urls base sub pqf out,
          filter_urls accept_bracketed pages_only urls base sub pqf = Ok out ->
          filter_urls accept_bracketed pages_only out base sub pqf = Ok out).
Proof.
  split; [vm_compute; reflexivity|]. split; [vm_compute; reflexivity|].
  intros H.
  specialize (H false (lits ["http://x.com/a /"]) (lit "x.com") false false
                _ eq_refl).
  vm_compute in H. discriminate.
Qed.

(** ** [normalize_input_url] *)

Ltac all_chars_in c :=
  destruct c as [[] [] [] [] [] [] [] []]; vm_compute; intros;
  try reflexivity; try discriminate; try congruence; auto.

Lemma alpha_not_c0 (c : ascii) :
  Py.isascii_alpha c = true -> c0_control_or_space c = false.
Proof. all_chars_in c. Qed.

Lemma alpha_scheme_tail (c : ascii) :
  Py.isascii_alpha c = true -> Re.scheme_tail_char c = true.
Proof. all_chars_in c. Qed.

Lemma scheme_tail_safe (c : ascii) :
  Re.scheme_tail_char c = true -> safe_char c = true.
Proof. all_chars_in c. Qed.

Lemma scheme_tail_not_colon (c : ascii) :
  Re.scheme_tail_char c = true -> c <> ":"%char.
Proof. all_chars_in c. Qed.

Lemma scheme_tail_scheme_chars (c : ascii) :
  Re.scheme_tail_char c = true -> Py.mem c scheme_chars = true.
Proof. all_chars_in c. Qed.

Lemma scheme_char_lower_plain (c : ascii) :
  Py.mem c scheme_chars = true ->
  netloc_delim (Py.lower_char c) = false.
Proof. all_chars_in c. Qed.

Section UrlsplitErrors.

Variable chk : str -> option string.

(** [urlsplit] raises exactly on an authority with bad brackets. *)
Lemma urlsplit_Raise_iff (url : str) (e : exn) :
  urlsplit chk url = Raise e <->
  exists n msg, authority url = Some n /\ bracket_error chk n = Some msg /\
                e = ValueError msg.
Proof.
  rewrite urlsplit_unfold. unfold authority.
  destruct (split_scheme (prepare url)) as [s r].
  rewrite split_authority_spec.
  destruct (Py.startswith "//" r).
  - destruct (bracket_error chk (fst (_splitnetloc r 2))) as [msg|] eqn:Eb;
      cbn [bind].
    + split.
      * intros H; inversion H; subst. eauto.
      * intros (n & msg' & Hn & Hb & ->). inversion Hn; subst. congruence.
    + split.
      * destruct (_splitnetloc r 2) as [n r'].
        destruct (split_at "#" r') as [p1 f].
        destruct (split_at "?" p1) as [p q]. discriminate.
      * intros (n & msg' & Hn & Hb & ->). inversion Hn; subst. congruence.
  - cbn [bind]. split.
    + destruct (split_at "#" r) as [p1 f].
      destruct (split_at "?" p1) as [p q]. discriminate.
    + intros (n & msg' & Hn & _). discriminate.
Qed.

Lemma urlsplit_total (url : str) :
  (exists pu, urlsplit chk url = Ok pu) \/
  (exists msg, urlsplit chk url = Raise (ValueError msg)).
Proof.
  destruct (urlsplit chk url) as [pu|e] eqn:E; [left; eauto|].
  right. apply urlsplit_Raise_iff in E as (n & msg & _ & _ & ->). eauto.
Qed.

Lemma scheme_of_prefixed (s : str) (pu : SplitResult) :
  Re.match_scheme_prefix s = true ->
  urlsplit chk s = Ok pu -> scheme pu <> [].
Proof.
  intros Hm Hpu. apply urlsplit_Ok_inv in Hpu as (r & _ & _ & Hs & _).
  destruct s as [|c t]; [discriminate|].
  cbv beta iota delta [Re.match_scheme_prefix] in Hm.
  apply andb_true_iff in Hm as [Ha Hm].
  apply startswith_spec in Hm as (rest & Hrest).
  pose proof (take_drop_while Re.scheme_tail_char t) as Ht.
  pose proof (take_while_Forall Re.scheme_tail_char t) as Hpre.
  set (pre := Py.take_while Re.scheme_tail_char t) in *.
  rewrite Hrest in Ht.
  assert (Hprep : prepare (c :: t) =
                  (c :: pre) ++ ":"%char :: filter safe_char (lit "//" ++ rest)).
  { unfold prepare, Py.lstrip_by. simpl Py.drop_while.
    rewrite (alpha_not_c0 c Ha). rewrite <- Ht.
    change (c :: pre ++ lit "://" ++ rest)
      with ((c :: pre) ++ ":"%char :: (lit "//" ++ rest)).
    rewrite filter_app. f_equal.
    apply filter_all. constructor.
    - apply scheme_tail_safe, alpha_scheme_tail; auto.
    - eapply Forall_impl; [|exact Hpre]. apply scheme_tail_safe. }
  rewrite Hprep in Hs. unfold split_scheme in Hs.
  set (X := filter safe_char (lit "//" ++ rest)) in *.
  rewrite (proj2 (partition_Some ":" ((c :: pre) ++ ":"%char :: X)
                    (c :: pre) X)) in Hs.
  - rewrite Ha in Hs. cbn [andb] in Hs.
    assert (Hf : forallb (fun c => Py.mem c scheme_chars) (c :: pre) = true).
    { apply forallb_forall. intros d [<- |Hd].
      - apply scheme_tail_scheme_chars, alpha_scheme_tail; auto.
      - rewrite Forall_forall in Hpre. apply scheme_tail_scheme_chars; auto. }
    rewrite Hf in Hs. inversion Hs as [[H1 H2]]. discriminate.
  - split; auto. intros [E|Hin].
    + apply (scheme_tail_not_colon c); auto. apply alpha_scheme_tail; auto.
    + rewrite Forall_forall in Hpre.
      apply (scheme_tail_not_colon ":"); auto.
Qed.

Lemma scheme_of_unprefixed (s : str) (pu : SplitResult) :
  urlsplit chk ("https://" ++ s) = Ok pu -> scheme pu = lit "https".
Proof.
  intros Hpu. apply urlsplit_Ok_inv in Hpu as (r & _ & _ & Hs & _).
  assert (E : split_scheme (prepare ("https://" ++ s)) =
              (lit "https", lit "//" ++ filter safe_char s))
    by reflexivity.
  congruence.
Qed.

Lemma scheme_plain (url : str) (pu : SplitResult) (c : ascii) :
  urlsplit chk url = Ok pu -> In c (Py.lower (scheme pu)) ->
  netloc_delim c = false.
Proof.
  intros Hpu Hc. apply urlsplit_Ok_inv in Hpu as (r & _ & _ & Hs & _).
  unfold split_scheme in Hs.
  destruct (Py.partition ":" (prepare url)) as [[[|c0 pre] post]|];
    try (inversion Hs as [[H1 H2]]; rewrite <- H1 in Hc; destruct Hc).
  destruct (Py.isascii_alpha c0 && _) eqn:E.
  - apply andb_true_iff in E as [_ E]. inversion Hs as [[H1 H2]].
    rewrite <- H1 in Hc.
    change (Py.lower_char c0 :: Py.lower pre) with (Py.lower (c0 :: pre)) in Hc.
    rewrite lower_idem in Hc.
    apply in_map_iff in Hc as (d & <- & Hd).
    apply scheme_char_lower_plain.
    rewrite forallb_forall in E. auto.
  - inversion Hs as [[H1 H2]]. rewrite <- H1 in Hc. destruct Hc.
Qed.

End UrlsplitErrors.

Lemma urlunsplit_bare (sch n p : str) :
  sch <> [] -> n <> [] -> (exists t, p = "/"%char :: t) ->
  urlunsplit (sch, n, p, lit "", lit "") = sch ++ lit "://" ++ n ++ p.
Proof.
  intros Hs Hn (t & ->). unfold urlunsplit.
  destruct sch as [|c sch]; [congruence|]. destruct n as [|d n]; [congruence|].
  unlit. simpl. reflexivity.
Qed.

Lemma normalize_path_rooted (p : str) :
  p = [] \/ (exists t, p = "/"%char :: t) ->
  exists t, _normalize_path p = "/"%char :: t.
Proof.
  intros Hp. pose proof (normalize_path_cases p) as H. cbv zeta in H.
  assert (Hhead : exists r, Re.sub_slashes (if Py.is_empty p then lit "/" else p)
                            = "/"%char :: r).
  { destruct Hp as [-> |(t & ->)]; [exists []; reflexivity|].
    apply sub_slashes_head. }
  destruct Hhead as (r & Hr). rewrite Hr in H.
  destruct H as [[-> _]|(x & Hx & Hne & ->)]; [eauto|].
  destruct x as [|c x]; [congruence|]. inversion Hx; subst. eauto.
Qed.

Section InputUrl.

Variable chk : str -> option string.

Lemma normalize_input_url_unfold (raw : str) :
  normalize_input_url chk raw =
  if Py.is_empty (Py.strip raw) then Raise (ValueError MSG_EMPTY)
  else
    pu <- urlsplit chk (with_scheme (Py.strip raw)) ;;
    if Py.is_empty (netloc pu) then Raise (ValueError MSG_NO_HOST)
    else Ok (urlunsplit (Py.lower (scheme pu), Py.lower (netloc pu),
                         _normalize_path (path pu), lit "", lit "")).
Proof. reflexivity. Qed.

Lemma normalize_input_url_Ok (raw r : str) :
  normalize_input_url chk raw = Ok r <->
  Py.strip raw <> [] /\
  exists pu,
    urlsplit chk (with_scheme (Py.strip raw)) = Ok pu /\
    netloc pu <> [] /\
    r = urlunsplit (Py.lower (scheme pu), Py.lower (netloc pu),
                    _normalize_path (path pu), lit "", lit "").
Proof.
  rewrite normalize_input_url_unfold.
  destruct (Py.is_empty (Py.strip raw)) eqn:Ee.
  { apply is_empty_true in Ee. split; [discriminate|].
    intros [H _]; congruence. }
  apply is_empty_false in Ee.
  destruct (urlsplit chk (with_scheme (Py.strip raw))) as [pu|e]; cbn [bind].
  2:{ split; [discriminate|]. intros (_ & pu & H & _). discriminate. }
  destruct (Py.is_empty (netloc pu)) eqn:En.
  { apply is_empty_true in En. split; [discriminate|].
    intros (_ & pu' & H & H' & _). inversion H; subst. congruence. }
  apply is_empty_false in En. split.
  - intros H; inversion H; subst. split; auto. exists pu; auto.
  - intros (_ & pu' & H & _ & ->). inversion H; subst. reflexivity.
Qed.

Lemma input_scheme_nonempty (s : str) (pu : SplitResult) :
  urlsplit chk (with_scheme s) = Ok pu ->
  scheme pu <> [] /\
  (Re.match_scheme_prefix s = false -> scheme pu = lit "https").
Proof.
  unfold with_scheme. destruct (Re.match_scheme_prefix s) eqn:Em; cbn [negb].
  - intros H. split; [eapply scheme_of_prefixed; eauto | discriminate].
  - intros H. apply scheme_of_unprefixed in H. rewrite H.
    split; [discriminate | auto].
Qed.

End InputUrl.

Section InputUrlClaims.

Variable chk : str -> option string.

(** C3. [normalize_input_url "york.com"] is ["https://york.com/"] and
    [normalize_input_url "https://york.com/home/"] is
    ["https://york.com/home"].  In general, whenever a URL is returned it is
    the lower-cased scheme, [://], the lower-cased host and the normalised
    path of the parsed input, and nothing else: the scheme is [https] when
    the input had no scheme prefix; the path has no two adjacent slashes,
    has no trailing slash unless it is ["/"], and is ["/"] when the parsed
    path is empty; no query or fragment remains. *)
Theorem C3_normalize_input_url_shape :
  normalize_input_url chk "york.com" = Ok (lit "https://york.com/") /\
  normalize_input_url chk "https://york.com/home/"
    = Ok (lit "https://york.com/home") /\
  forall raw r,
    normalize_input_url chk raw = Ok r ->
    exists pu,
      urlsplit chk (with_scheme (Py.strip raw)) = Ok pu /\
      netloc pu <> [] /\
      r = Py.lower (scheme pu) ++ lit "://" ++ Py.lower (netloc pu)
          ++ _normalize_path (path pu) /\
      (Re.match_scheme_prefix (Py.strip raw) = false ->
       scheme pu = lit "https") /\
      no_dslash (_normalize_path (path pu)) /\
      (_normalize_path (path pu) = lit "/" \/
       Py.endswith "/" (_normalize_path (path pu)) = false) /\
      (path pu = [] -> _normalize_path (path pu) = lit "/") /\
      Py.lower (Py.lower (scheme pu) ++ lit "://" ++ Py.lower (netloc pu))
        = Py.lower (scheme pu) ++ lit "://" ++ Py.lower (netloc pu) /\
      ~ In "?"%char r /\ ~ In "#"%char r.
Proof.
  split; [reflexivity|]. split; [reflexivity|].
  intros raw r H.
  apply normalize_input_url_Ok in H as (Hne & pu & Hpu & Hn & Hr).
  exists pu. split; auto. split; auto.
  destruct (input_scheme_nonempty chk _ _ Hpu) as [Hs Hhttps].
  pose proof (urlsplit_wf _ _ _ Hpu) as Hwf.
  pose proof (normalize_path_normal (path pu)) as (Hpne & Hfix & Hend).
  destruct (normalize_path_rooted (path pu) (wf_rooted _ _ Hwf Hn)) as (t & Ht).
  assert (Hshape : r = Py.lower (scheme pu) ++ lit "://"
                       ++ Py.lower (netloc pu) ++ _normalize_path (path pu)).
  { rewrite Hr. apply urlunsplit_bare; eauto.
    - destruct (scheme pu); [congruence | discriminate].
    - destruct (netloc pu); [congruence | discriminate]. }
  assert (Hplain : forall c, In c r -> netloc_delim c = true ->
                             c = "/"%char).
  { intros c Hc Hd. rewrite Hshape in Hc.
    apply in_app_or in Hc as [Hc|Hc].
    { rewrite (scheme_plain chk _ _ _ Hpu Hc) in Hd. discriminate. }
    apply in_app_or in Hc as [Hc|Hc].
    { destruct Hc as [<- |[<- |[<- |[]]]]; auto; discriminate. }
    apply in_app_or in Hc as [Hc|Hc].
    { apply in_map_iff in Hc as (d & <- & Hd').
      rewrite netloc_delim_lower in Hd.
      pose proof (wf_netloc _ _ Hwf) as Hnl. rewrite Forall_forall in Hnl.
      rewrite (Hnl d Hd') in Hd. discriminate. }
    apply normalize_path_In in Hc as [Hc|Hc]; auto.
    destruct (Ascii.eqb_spec c "/"); auto.
    destruct (Ascii.eqb_spec c "?");
      [subst; exfalso; apply (wf_path_q _ _ Hwf); auto|].
    destruct (Ascii.eqb_spec c "#");
      [subst; exfalso; apply (wf_path_f _ _ Hwf); auto|].
    unfold netloc_delim, Py.mem in Hd. simpl in Hd.
    apply orb_true_iff in Hd as [Hd|Hd];
      [apply Ascii.eqb_eq in Hd; congruence|].
    apply orb_true_iff in Hd as [Hd|Hd];
      [apply Ascii.eqb_eq in Hd; congruence|].
    apply orb_true_iff in Hd as [Hd|Hd];
      [apply Ascii.eqb_eq in Hd; congruence | discriminate]. }
  repeat split; auto.
  - apply sub_slashes_fix_iff; auto.
  - intros Hp. unfold _normalize_path. rewrite Hp. reflexivity.
  - rewrite !lower_app, !lower_idem. reflexivity.
  - intros Hin. specialize (Hplain _ Hin eq_refl). discriminate.
  - intros Hin. specialize (Hplain _ Hin eq_refl). discriminate.
Qed.

(** C4, amended.  [normalize_input_url] raises, and then always a
    [ValueError], exactly when the trimmed input is empty, or [urlsplit]
    itself raises on the (scheme-prefixed) input, or parsing yields an empty
    host; for every other input it returns a URL string.  An empty input and
    a missing host give the function's own two messages; an exception of
    [urlsplit] is passed on unchanged. *)
Theorem C4_normalize_input_url_errors :
  forall raw,
    ((exists r, normalize_input_url chk raw = Ok r) \/
     (exists msg, normalize_input_url chk raw = Raise (ValueError msg))) /\
    ((exists e, normalize_input_url chk raw = Raise e) <->
     Py.strip raw = [] \/
     (exists e, urlsplit chk (with_scheme (Py.strip raw)) = Raise e) \/
     (exists pu,
        urlsplit chk (with_scheme (Py.strip raw)) = Ok pu /\
        netloc pu = [])) /\
    (Py.strip raw = [] ->
     normalize_input_url chk raw = Raise (ValueError MSG_EMPTY)) /\
    (forall pu,
       Py.strip raw <> [] ->
       urlsplit chk (with_scheme (Py.strip raw)) = Ok pu ->
       netloc pu = [] ->
       normalize_input_url chk raw = Raise (ValueError MSG_NO_HOST)) /\
    (forall e,
       Py.strip raw <> [] ->
       urlsplit chk (with_scheme (Py.strip raw)) = Raise e ->
       normalize_input_url chk raw = Raise e).
Proof.
  intros raw. rewrite normalize_input_url_unfold.
  destruct (Py.is_empty (Py.strip raw)) eqn:Ee.
  { apply is_empty_true in Ee.
    split; [right; eauto|]. split; [split; eauto|].
    split; [reflexivity|]. split; intros; congruence. }
  apply is_empty_false in Ee.
  destruct (urlsplit chk (with_scheme (Py.strip raw))) as [pu|e] eqn:Eu;
    cbn [bind].
  - destruct (Py.is_empty (netloc pu)) eqn:En.
    + apply is_empty_true in En.
      split; [right; eauto|]. split; [split; eauto|].
      split; [intros; congruence|].
      split; [reflexivity | intros; discriminate].
    + apply is_empty_false in En.
      split; [left; eauto|]. split; [split|].
      * intros (e & He). discriminate.
      * intros [H|[(e & He)|(pu' & Hpu' & Hn')]].
        -- congruence.
        -- discriminate.
        -- inversion Hpu'; subst. congruence.
      * split; [intros; congruence|]. split.
        -- intros pu' _ Hpu' Hn'. inversion Hpu'; subst. congruence.
        -- intros; discriminate.
  - destruct (urlsplit_total chk (with_scheme (Py.strip raw)))
      as [(pu & Hp)|(msg & Hm)]; [congruence|].
    assert (e = ValueError msg) by congruence. subst e.
    split; [right; eauto|].
    split; [split; [intros _; right; left; eauto | eauto]|].
    split; [intros; congruence|].
    split; [intros pu _ Hpu; discriminate|].
    intros e _ He. inversion He; reflexivity.
Qed.

End InputUrlClaims.

(** C4 as stated fails: a lone bracket is neither empty nor parsed to an
    empty host, yet [ValueError] is raised, by the parser. *)
Lemma C4_bracket_counterexample :
  normalize_input_url accept_bracketed "["
    = Raise (ValueError "Invalid IPv6 URL") /\
  Py.strip "[" <> [] /\
  (forall pu, urlsplit accept_bracketed (with_scheme (Py.strip "[")) <> Ok pu) /\
  ~ (forall raw,
       (exists e, normalize_input_url accept_bracketed raw = Raise e) <->
       (Py.strip raw = [] \/
        exists pu,
          urlsplit accept_bracketed (with_scheme (Py.strip raw)) = Ok pu /\
          netloc pu = [])).
Proof.
  assert (E : normalize_input_url accept_bracketed "["
              = Raise (ValueError "Invalid IPv6 URL")) by reflexivity.
  assert (U : forall pu,
             urlsplit accept_bracketed (with_scheme (Py.strip "[")) <> Ok pu)
    by (intros pu; vm_compute; discriminate).
  split; auto. split; [discriminate|]. split; auto.
  intros H. destruct (proj1 (H (lit "[")) (ex_intro _ _ E)) as [He|(pu & Hpu & _)].
  - vm_compute in He. discriminate.
  - apply (U pu Hpu).
Qed.

(** ** The host filter and the pages-only rule *)

Lemma host_in_scope_spec (host base : str) (sub : bool) :
  host_in_scope host base sub = true <->
  host = base \/ (sub = true /\ exists pre, host = pre ++ lit "." ++ base).
Proof.
  unfold host_in_scope.
  rewrite orb_true_iff, andb_true_iff, str_eqb_eq, endswith_spec.
  reflexivity.
Qed.

Lemma page_like_spec (p : str) :
  page_like p = true <->
  existsb (fun ext => Py.endswith ext (Py.lower p)) ASSET_EXTS = false /\
  (Py.mem "." (Py.lower p) = true ->
   existsb (fun ext => Py.endswith ext (Py.lower p)) PAGE_EXTS = true).
Proof.
  unfold page_like.
  destruct (existsb _ ASSET_EXTS); cbn [negb andb].
  { split; [discriminate | intros [H _]; discriminate]. }
  destruct (Py.mem "." (Py.lower p)); cbn [negb andb].
  - destruct (existsb _ PAGE_EXTS); cbn [negb]; split; auto.
    intros [_ H]. specialize (H eq_refl). discriminate.
  - split; auto. intros _. split; auto. discriminate.
Qed.

Section StepSpecs.

Variable chk : str -> option string.

Lemma internal_step_parsed base sub pqf u pu :
  urlsplit chk (Py.strip u) = Ok pu ->
  Py.strip u <> [] ->
  internal_all_step chk base sub pqf u =
  if http_scheme (scheme pu)
     && host_in_scope (Py.lower (netloc pu)) base sub
  then Ok (Some (urlunsplit (scheme pu, Py.lower (netloc pu),
                             _normalize_path (path pu),
                             (if pqf then query pu else lit ""),
                             (if pqf then fragment pu else lit ""))))
  else Ok None.
Proof.
  intros Hpu Hne. unfold internal_all_step.
  apply is_empty_false in Hne. rewrite Hne, Hpu. cbn [bind].
  destruct (http_scheme (scheme pu)); cbn [negb andb]; auto.
  destruct (host_in_scope _ _ _); reflexivity.
Qed.

Lemma pages_step_parsed base sub pqf u pu :
  urlsplit chk (Py.strip u) = Ok pu ->
  Py.strip u <> [] ->
  pages_only_step chk base sub pqf u =
  if http_scheme (scheme pu)
     && host_in_scope (Py.lower (netloc pu)) base sub
     && page_like (_normalize_path (path pu))
  then Ok (Some (urlunsplit (scheme pu, Py.lower (netloc pu),
                             _normalize_path (path pu),
                             (if pqf then query pu else lit ""),
                             (if pqf then fragment pu else lit ""))))
  else Ok None.
Proof.
  intros Hpu Hne. unfold pages_only_step, page_like.
  apply is_empty_false in Hne. rewrite Hne, Hpu. cbn [bind].
  destruct (http_scheme (scheme pu)); cbn [negb andb]; auto.
  destruct (host_in_scope _ _ _); cbn [negb andb]; auto.
  destruct (existsb _ ASSET_EXTS); cbn [negb andb]; auto.
  destruct (_ && _); reflexivity.
Qed.

Lemma parsed_nonempty u pu :
  urlsplit chk (Py.strip u) = Ok pu -> scheme pu <> [] -> Py.strip u <> [].
Proof.
  intros Hpu Hs E. rewrite E in Hpu. vm_compute in Hpu.
  inversion Hpu; subst. apply Hs. reflexivity.
Qed.

Lemma http_scheme_nonempty (s : str) : http_scheme s = true -> s <> [].
Proof. intros H ->. discriminate. Qed.

End StepSpecs.

Section ScopeClaims.

Variable chk : str -> option string.

(** C5. In pages-only mode an in-scope URL is dropped when its lower-cased
    normalised path ends with one of the enumerated asset extensions, and
    when that path holds a dot without ending in [.html], [.htm] or [.php];
    so every URL of the output comes from a raw URL that passes both tests.
    On [["https://x.com/a.jpg"; "https://x.com/page";
    "https://x.com/about.html"]] with base host ["x.com"] the result is
    [["https://x.com/about.html"; "https://x.com/page"]]. *)
Theorem C5_pages_only_drops_assets :
  (forall base sub pqf u pu,
      urlsplit chk (Py.strip u) = Ok pu ->
      http_scheme (scheme pu) = true ->
      host_in_scope (Py.lower (netloc pu)) base sub = true ->
      let lower := Py.lower (_normalize_path (path pu)) in
      (existsb (fun ext => Py.endswith ext lower) ASSET_EXTS = true ->
       pages_only_step chk base sub pqf u = Ok None) /\
      (Py.mem "." lower = true ->
       existsb (fun ext => Py.endswith ext lower) PAGE_EXTS = false ->
       pages_only_step chk base sub pqf u = Ok None)) /\
  (forall urls base sub pqf out v,
      normalize_pages_only chk urls base sub pqf = Ok out -> In v out ->
      exists u pu,
        In u urls /\ urlsplit chk (Py.strip u) = Ok pu /\
        let lower := Py.lower (_normalize_path (path pu)) in
        existsb (fun ext => Py.endswith ext lower) ASSET_EXTS = false /\
        (Py.mem "." lower = true ->
         existsb (fun ext => Py.endswith ext lower) PAGE_EXTS = true)) /\
  (forall sub pqf,
      normalize_pages_only chk
        (lits ["https://x.com/a.jpg"; "https://x.com/page";
               "https://x.com/about.html"]) "x.com" sub pqf
      = Ok (lits ["https://x.com/about.html"; "https://x.com/page"])).
Proof.
  split; [|split].
  - intros base sub pqf u pu Hpu Hs Hh lower.
    assert (Hne : Py.strip u <> [])
      by (eapply parsed_nonempty; eauto using http_scheme_nonempty).
    rewrite (pages_step_parsed chk base sub pqf u pu Hpu Hne), Hs, Hh.
    cbn [andb].
    destruct (page_like (_normalize_path (path pu))) eqn:Ep; auto.
    apply page_like_spec in Ep as [Ea Ed]. fold lower in Ea, Ed.
    split; [congruence|]. intros Hm Hp. specialize (Ed Hm). congruence.
  - intros urls base sub pqf out v Hout Hv.
    destruct (proj1 (normalize_pages_only_In chk _ _ _ _ _ Hout v) Hv)
      as (u & Hu & Hstep).
    apply pages_step_Some in Hstep as (_ & pu & Hpu & Hp).
    exists u, pu. split; auto. split; auto.
    apply page_like_spec; auto.
  - intros [] []; reflexivity.
Qed.

(** C8, amended.  For a raw URL with scheme http or https, the all-internal
    filter keeps it if and only if its lower-cased host equals the base host,
    or subdomains are included and the host ends with ["."] followed by the
    base host; the pages-only filter keeps it if and only if that holds and
    its path passes the pages-only rule.  A URL on [blog.x.com] with base
    host ["x.com"] is dropped by both without subdomains and kept by both
    with them. *)
Theorem C8_host_scope :
  (forall base sub pqf u pu,
      urlsplit chk (Py.strip u) = Ok pu ->
      http_scheme (scheme pu) = true ->
      let host := Py.lower (netloc pu) in
      let in_scope :=
        host = base \/
        (sub = true /\ exists pre, host = pre ++ lit "." ++ base) in
      ((exists v, internal_all_step chk base sub pqf u = Ok (Some v))
       <-> in_scope) /\
      ((exists v, pages_only_step chk base sub pqf u = Ok (Some v))
       <-> in_scope /\ page_like (_normalize_path (path pu)) = true)) /\
  (forall pages_only pqf,
      filter_urls chk pages_only (lits ["https://blog.x.com/post"])
        "x.com" false pqf = Ok [] /\
      filter_urls chk pages_only (lits ["https://blog.x.com/post"])
        "x.com" true pqf = Ok (lits ["https://blog.x.com/post"])).
Proof.
  split.
  - intros base sub pqf u pu Hpu Hs host in_scope.
    assert (Hne : Py.strip u <> [])
      by (eapply parsed_nonempty; eauto using http_scheme_nonempty).
    rewrite (internal_step_parsed chk base sub pqf u pu Hpu Hne).
    rewrite (pages_step_parsed chk base sub pqf u pu Hpu Hne).
    rewrite Hs. cbn [andb]. unfold in_scope.
    rewrite <- (host_in_scope_spec host base sub). fold host.
    destruct (host_in_scope host base sub); cbn [andb].
    + split; [split; eauto|].
      destruct (page_like _); split; eauto.
      * intros (v & Hv). discriminate.
      * intros [_ H]. discriminate.
    + split; split.
      * intros (v & Hv). discriminate.
      * discriminate.
      * intros (v & Hv). discriminate.
      * intros [H _]. discriminate.
  - intros [] []; split; reflexivity.
Qed.

End ScopeClaims.

Lemma C5_pages_only_witness :
  pages_only_step accept_bracketed "x.com" false false "https://x.com/a.jpg"
  = Ok None.
Proof.
  refine (proj1 (proj1 (C5_pages_only_drops_assets accept_bracketed)
                   (lit "x.com") false false (lit "https://x.com/a.jpg")
                   (mkSplit "https" "x.com" "/a.jpg" "" "") _ _ _) _);
    reflexivity.
Defined.

Lemma C8_host_scope_witness :
  (exists v, internal_all_step accept_bracketed "x.com" true false
               "https://Blog.X.com/post" = Ok (Some v))
  <-> (lit "blog.x.com" = lit "x.com" \/
       (true = true /\ exists pre, lit "blog.x.com" = pre ++ lit "." ++ lit "x.com")).
Proof.
  refine (proj1 (proj1 (C8_host_scope accept_bracketed)
                   (lit "x.com") true false (lit "https://Blog.X.com/post")
                   (mkSplit "https" "Blog.X.com" "/post" "" "") _ _));
    reflexivity.
Defined.

(** C8 as stated fails in pages-only mode: the host of an asset URL is in
    scope, and the URL is dropped all the same. *)
Lemma C8_pages_only_counterexample :
  urlsplit accept_bracketed (Py.strip "https://x.com/a.jpg")
    = Ok (mkSplit "https" "x.com" "/a.jpg" "" "") /\
  host_in_scope (Py.lower "x.com") "x.com" false = true /\
  pages_only_step accept_bracketed "x.com" false false "https://x.com/a.jpg"
    = Ok None /\
  normalize_pages_only accept_bracketed (lits ["https://x.com/a.jpg"])
    "x.com" false false = Ok [] /\
  ~ (forall base sub pqf u pu,
       urlsplit accept_bracketed (Py.strip u) = Ok pu ->
       http_scheme (scheme pu) = true ->
       ((exists v, pages_only_step accept_bracketed base sub pqf u
                   = Ok (Some v))
        <-> host_in_scope (Py.lower (netloc pu)) base sub = true)).
Proof.
  repeat (split; [reflexivity|]).
  intros H.
  destruct (proj2 (H (lit "x.com") false false (lit "https://x.com/a.jpg")
                     (mkSplit "https" "x.com" "/a.jpg" "" "")
                     eq_refl eq_refl) eq_refl) as (v & Hv).
  vm_compute in Hv. discriminate.
Qed.

(** ** Dictionaries keyed by nodes *)

Lemma node_eqb_eq (a b : node) : node_eqb a b = true <-> a = b.
Proof.
  revert b; induction a as [|x a IH]; intros [|y b]; simpl;
    try (split; [discriminate | discriminate]); [tauto|].
  rewrite andb_true_iff, IH, str_eqb_eq.
  split; [intros [-> ->] | intros H; inversion H]; auto.
Qed.

Lemma node_eqb_refl (a : node) : node_eqb a a = true.
Proof. apply node_eqb_eq; reflexivity. Qed.

Lemma node_eqb_neq (a b : node) : node_eqb a b = false <-> a <> b.
Proof.
  rewrite <- node_eqb_eq. destruct (node_eqb a b); split; congruence.
Qed.

Lemma node_eqb_sym (a b : node) : node_eqb a b = node_eqb b a.
Proof.
  destruct (node_eqb a b) eqn:E.
  - apply node_eqb_eq in E; subst. symmetry; apply node_eqb_refl.
  - symmetry. apply node_eqb_neq. apply node_eqb_neq in E. congruence.
Qed.

Lemma existsb_node_In (n : node) (l : list node) :
  existsb (node_eqb n) l = true <-> In n l.
Proof.
  rewrite existsb_exists. split.
  - intros (m & Hm & E). apply node_eqb_eq in E; subst; auto.
  - intros H; exists n; split; auto. apply node_eqb_refl.
Qed.

Section DictFacts.

Context {V : Type}.

Lemma get_set (k k' : node) (v : V) (d : list (node * V)) :
  Dict.get k' (Dict.set k v d) =
  if node_eqb k' k then Some v else Dict.get k' d.
Proof.
  induction d as [|[k0 v0] d IH]; simpl.
  - destruct (node_eqb k' k); reflexivity.
  - destruct (node_eqb k k0) eqn:E; simpl.
    + apply node_eqb_eq in E; subst k0.
      destruct (node_eqb k' k); reflexivity.
    + rewrite IH. destruct (node_eqb k' k0) eqn:E'; auto.
      destruct (node_eqb k' k) eqn:E''; auto.
      apply node_eqb_eq in E', E''; subst.
      rewrite node_eqb_refl in E. discriminate.
Qed.

Lemma contains_get (k : node) (d : list (node * V)) :
  Dict.contains k d = true <-> exists v, Dict.get k d = Some v.
Proof.
  unfold Dict.contains. destruct (Dict.get k d); split; eauto;
    try discriminate. intros (v & H); discriminate.
Qed.

Lemma contains_get_none (k : node) (d : list (node * V)) :
  Dict.contains k d = false <-> Dict.get k d = None.
Proof.
  unfold Dict.contains. destruct (Dict.get k d); split; congruence.
Qed.

Lemma get_In_keys (k : node) (d : list (node * V)) :
  Dict.contains k d = true <-> In k (Dict.keys d).
Proof.
  unfold Dict.contains, Dict.keys.
  induction d as [|[k0 v0] d IH]; simpl.
  - split; [discriminate | tauto].
  - destruct (node_eqb k k0) eqn:E.
    + apply node_eqb_eq in E; subst. split; auto.
    + apply node_eqb_neq in E. rewrite IH. split; auto.
      intros [H|H]; [congruence | auto].
Qed.

End DictFacts.

Lemma multi_add_In (n m : node) (l : list node) :
  In m (multi_add n l) <-> m = n \/ In m l.
Proof.
  unfold multi_add. destruct (existsb (node_eqb n) l) eqn:E.
  - apply existsb_node_In in E. split; auto. intros [-> |H]; auto.
  - rewrite in_app_iff. simpl. split; intros [H|H]; auto.
    destruct H as [H|[]]; auto.
Qed.

(** ** The aggregation loop: leaves *)

Section Leaves.

Variable chk : str -> option string.

Lemma fold_count_prefix_leaf u chain (l : list nat) (st : AggState) :
  leaf_first_url (fold_left (count_prefix u chain) l st) = leaf_first_url st
  /\ leaf_multi (fold_left (count_prefix u chain) l st) = leaf_multi st.
Proof.
  revert st; induction l as [|i l IH]; intros st; simpl; auto.
  destruct (IH (count_prefix u chain st i)) as [-> ->]. auto.
Qed.

Lemma agg_url_leaf (L : nat) (st st' : AggState) (u : str) :
  agg_url chk L st u = Ok st' ->
  exists n,
    leaf_of chk L u = Ok n /\
    leaf_first_url st' =
      (if Dict.contains n (leaf_first_url st) then leaf_first_url st
       else Dict.set n u (leaf_first_url st)) /\
    leaf_multi st' =
      (if Dict.contains n (leaf_first_url st) then multi_add n (leaf_multi st)
       else leaf_multi st).
Proof.
  unfold agg_url, leaf_of. intros H.
  apply bind_Ok in H as (chain & Hc & H). rewrite Hc. cbn [bind].
  eexists; split; [reflexivity|].
  set (k := Nat.min L (List.length chain)) in *.
  destruct (fold_count_prefix_leaf u chain (seq 0 k) st) as [E1 E2].
  rewrite E1, E2 in H.
  destruct (Dict.contains (firstn k chain) (leaf_first_url st));
    inversion H; subst; simpl; auto.
Qed.

Lemma leaf_is_true (L : nat) (n : node) (u : str) :
  leaf_is chk L n u = true <-> leaf_of chk L u = Ok n.
Proof.
  unfold leaf_is. destruct (leaf_of chk L u) as [m|e].
  - rewrite node_eqb_eq. split; congruence.
  - split; discriminate.
Qed.

Lemma find_app {A} (p : A -> bool) (a b : list A) :
  find p (a ++ b) = match find p a with Some x => Some x | None => find p b end.
Proof.
  induction a as [|x a IH]; simpl; auto. destruct (p x); auto.
Qed.

Lemma find_none_filter {A} (p : A -> bool) (l : list A) :
  find p l = None <-> filter p l = [].
Proof.
  induction l as [|x l IH]; simpl; [tauto|].
  destruct (p x); [split; discriminate | auto].
Qed.

Lemma leaves_recorded_step L st st' done u :
  leaves_recorded chk L st done -> agg_url chk L st u = Ok st' ->
  leaves_recorded chk L st' (done ++ [u]).
Proof.
  intros Hinv H n.
  apply agg_url_leaf in H as (m & Hm & Hlfu & Hmulti).
  destruct (Hinv n) as [Hget Hmul]. destruct (Hinv m) as [Hgetm Hmulm].
  rewrite find_app, filter_app, length_app. simpl.
  assert (Eis : leaf_is chk L n u = node_eqb m n).
  { unfold leaf_is. rewrite Hm. reflexivity. }
  rewrite Eis, Hlfu, Hmulti.
  destruct (Dict.contains m (leaf_first_url st)) eqn:Ec.
  - apply contains_get in Ec as (v & Hv).
    rewrite multi_add_In. rewrite <- Hget.
    destruct (node_eqb m n) eqn:E.
    + apply node_eqb_eq in E; subst n. rewrite Hv. split; auto.
      split; [intros _|auto].
      rewrite Hgetm in Hv.
      destruct (filter (leaf_is chk L m) done) eqn:Ef; simpl; [|lia].
      apply find_none_filter in Ef. congruence.
    + apply node_eqb_neq in E.
      split; [destruct (Dict.get n (leaf_first_url st)); reflexivity|].
      cbn [List.length]. rewrite Nat.add_0_r. rewrite <- Hmul.
      split; [intros [H|H]; [congruence | auto] | auto].
  - apply contains_get_none in Ec.
    rewrite get_set, (node_eqb_sym n m). rewrite <- Hget.
    destruct (node_eqb m n) eqn:E.
    + apply node_eqb_eq in E; subst n. rewrite Ec. split; auto.
      rewrite Hgetm in Ec. apply find_none_filter in Ec.
      rewrite Hmulm, Ec. simpl. lia.
    + split; [destruct (Dict.get n (leaf_first_url st)); reflexivity|].
      cbn [List.length]. rewrite Nat.add_0_r. auto.
Qed.

Lemma leaves_recorded_loop L urls st st' done :
  leaves_recorded chk L st done -> agg_loop chk L st urls = Ok st' ->
  leaves_recorded chk L st' (done ++ urls).
Proof.
  revert st done; induction urls as [|u urls IH]; intros st done Hinv H.
  - simpl in H. inversion H; subst. rewrite app_nil_r. auto.
  - simpl in H. apply bind_Ok in H as (st1 & H1 & H).
    replace (done ++ u :: urls) with ((done ++ [u]) ++ urls)
      by (rewrite <- app_assoc; reflexivity).
    eapply IH; [|exact H]. eapply leaves_recorded_step; eauto.
Qed.

Lemma leaves_recorded_init L : leaves_recorded chk L agg_init [].
Proof. intros n. simpl. split; auto. split; [tauto | lia]. Qed.

Lemma agg_loop_app L st a b :
  agg_loop chk L st (a ++ b) =
  (st' <- agg_loop chk L st a ;; agg_loop chk L st' b).
Proof.
  revert st; induction a as [|u a IH]; intros st; simpl; auto.
  destruct (agg_url chk L st u); simpl; auto.
Qed.

End Leaves.

Lemma filter_length_pos {A} (p : A -> bool) (l : list A) :
  1 <= List.length (filter p l) <-> exists x, In x l /\ p x = true.
Proof.
  split.
  - destruct (filter p l) as [|x t] eqn:E; simpl; [lia|]. intros _.
    exists x. apply filter_In. rewrite E. left; auto.
  - intros (x & Hx). apply filter_In in Hx.
    destruct (filter p l); [destruct Hx | simpl; lia].
Qed.

Lemma two_distinct_length {A} (l : list A) (x y : A) :
  x <> y -> In x l -> In y l -> 2 <= List.length l.
Proof.
  intros Hne Hx Hy. destruct l as [|a [|b l]]; simpl in *.
  - destruct Hx.
  - destruct Hx as [<- |[]], Hy as [<- |[]]. congruence.
  - lia.
Qed.

Lemma clamp_levels_spec (levels : Z) :
  2 <= clamp_levels levels /\
  ((2 <= levels)%Z -> Z.of_nat (clamp_levels levels) = levels) /\
  ((levels < 2)%Z -> clamp_levels levels = 2).
Proof. unfold clamp_levels. lia. Qed.

Section LeafFacts.

Variable chk : str -> option string.

Lemma aggregate_leaves urls levels st :
  aggregate chk urls levels = Ok st ->
  leaves_recorded chk (clamp_levels levels) st urls.
Proof.
  intros H. apply (leaves_recorded_loop chk _ urls agg_init st []); auto.
  apply leaves_recorded_init.
Qed.

Lemma hover_text_single st n u :
  Dict.get n (leaf_first_url st) = Some u -> ~ In n (leaf_multi st) ->
  hover_text chk st n = Ok u.
Proof.
  intros Hg Hm. unfold hover_text. rewrite Hg.
  destruct (existsb (node_eqb n) (leaf_multi st)) eqn:E; auto.
  apply existsb_node_In in E. contradiction.
Qed.

Lemma hover_text_multi st n :
  In n (leaf_multi st) ->
  hover_text chk st n =
  (p <- node_prefix_url chk st n ;;
   Ok (Py.str_of_nat (count_of n (counts st)) ++ lit " URLs under " ++ p)).
Proof.
  intros Hm. unfold hover_text. apply existsb_node_In in Hm. rewrite Hm.
  destruct (Dict.get n (leaf_first_url st)); reflexivity.
Qed.

End LeafFacts.

Section LeafMarking.

Variable chk : str -> option string.

(** What the loop does with leaf nodes, for any list of URLs: at the
    iteration of a URL its leaf node is marked if and only if an earlier
    entry of the list was recorded at it; after the loop a node is marked if
    and only if at least two entries have it as leaf node. *)
Lemma leaf_marking_any_list :
  forall urls levels st,
    aggregate chk urls levels = Ok st ->
    let L := clamp_levels levels in
    (2 <= L /\ ((2 <= levels)%Z -> Z.of_nat L = levels)) /\
    (forall u chain,
        chain_of chk u = Ok chain ->
        leaf_of chk L u
        = Ok (firstn (Nat.min L (List.length chain)) chain)) /\
    (forall pre u post n,
        urls = pre ++ u :: post -> leaf_of chk L u = Ok n ->
        exists st1 st2,
          agg_loop chk L agg_init pre = Ok st1 /\
          agg_url chk L st1 u = Ok st2 /\
          agg_loop chk L st2 post = Ok st /\
          (In n (leaf_multi st2) <->
           exists u', In u' pre /\ leaf_of chk L u' = Ok n) /\
          ((forall u', In u' pre -> leaf_of chk L u' <> Ok n) ->
           Dict.get n (leaf_first_url st2) = Some u /\
           hover_text chk st2 n = Ok u)) /\
    (forall n,
        In n (leaf_multi st) <->
        2 <= List.length (filter (leaf_is chk L n) urls)) /\
    (forall n u,
        filter (leaf_is chk L n) urls = [u] -> hover_text chk st n = Ok u) /\
    (NoDup urls ->
     forall n,
       In n (leaf_multi st) <->
       exists u u',
         u <> u' /\ In u urls /\ In u' urls /\
         leaf_of chk L u = Ok n /\ leaf_of chk L u' = Ok n).
Proof.
  intros urls levels st H L.
  pose proof (aggregate_leaves chk _ _ _ H) as Hinv. fold L in Hinv.
  split; [destruct (clamp_levels_spec levels) as (? & ? & _); auto|].
  split; [intros u chain Hc; unfold leaf_of; rewrite Hc; reflexivity|].
  split; [|split; [|split]].
  - intros pre u post n -> Hn.
    unfold aggregate in H. fold L in H. rewrite agg_loop_app in H.
    apply bind_Ok in H as (st1 & H1 & H). simpl in H.
    apply bind_Ok in H as (st2 & H2 & H3).
    exists st1, st2. repeat (split; [assumption|]).
    pose proof (leaves_recorded_loop chk L pre agg_init st1 []
                  (leaves_recorded_init chk L) H1) as Hinv1.
    simpl in Hinv1.
    pose proof (leaves_recorded_step chk L st1 st2 pre u Hinv1 H2 n)
      as [Hget Hmul].
    apply leaf_is_true in Hn.
    rewrite find_app, filter_app, length_app in *. simpl in Hget, Hmul.
    rewrite Hn in Hget, Hmul. simpl in Hmul.
    assert (Hseen : (exists u', In u' pre /\ leaf_of chk L u' = Ok n) <->
                    1 <= List.length (filter (leaf_is chk L n) pre)).
    { rewrite filter_length_pos. split; intros (u' & Hin & Hu');
        exists u'; split; auto; apply leaf_is_true; auto. }
    split.
    + rewrite Hmul, Hseen. lia.
    + intros Hnone.
      assert (Hf : find (leaf_is chk L n) pre = None).
      { apply find_none_filter.
        destruct (filter (leaf_is chk L n) pre) as [|x t] eqn:E; auto.
        exfalso. assert (Hx : In x (filter (leaf_is chk L n) pre))
          by (rewrite E; left; auto).
        apply filter_In in Hx as [Hx1 Hx2]. apply leaf_is_true in Hx2.
        apply (Hnone x); auto. }
      rewrite Hf in Hget. split; auto.
      apply hover_text_single; auto.
      rewrite Hmul. apply find_none_filter in Hf. rewrite Hf. simpl. lia.
  - intros n. apply Hinv.
  - intros n u Hf. destruct (Hinv n) as [Hget Hmul].
    apply hover_text_single.
    + rewrite Hget. clear - Hf.
      induction urls as [|x l IH]; simpl in *; [discriminate|].
      destruct (leaf_is chk L n x); [congruence | auto].
    + rewrite Hmul, Hf. simpl. lia.
  - intros Hnd n. rewrite (proj2 (Hinv n)). split.
    + intros Hlen.
      pose proof (NoDup_filter (leaf_is chk L n) Hnd) as Hndf.
      destruct (filter (leaf_is chk L n) urls) as [|x [|y t]] eqn:E;
        simpl in Hlen; try lia.
      assert (Hx : In x (filter (leaf_is chk L n) urls))
        by (rewrite E; simpl; auto).
      assert (Hy : In y (filter (leaf_is chk L n) urls))
        by (rewrite E; simpl; auto).
      apply filter_In in Hx as [Hx1 Hx2], Hy as [Hy1 Hy2].
      apply leaf_is_true in Hx2, Hy2.
      exists x, y. repeat split; auto.
      inversion Hndf as [|? ? Hnin _]; subst. intros ->. apply Hnin.
      left; auto.
    + intros (u & u' & Hne & Hu & Hu' & Hl & Hl').
      apply (two_distinct_length _ u u'); auto;
        apply filter_In; split; auto; apply leaf_is_true; auto.
Qed.


End LeafMarking.

Section LeafClaims.

Variable chk : str -> option string.

(** C7.  [levels] is clamped to at least 2; the leaf node of a URL is its
    chain [[host] + non-empty path segments] cut at
    [k = min(levels, len(chain))].  The aggregator is handed the output of a
    filter, a list without repetitions.  On such a list, at the iteration of
    a URL its leaf node is marked "multiple" if and only if a different URL
    was recorded at that node in an earlier iteration; otherwise the URL is
    recorded there as a single-URL leaf and the hover text of the node is
    that URL verbatim.  After the loop a node is marked if and only if two
    different URLs of the list have it as leaf node, and the hover text of a
    leaf node that is not marked is its URL verbatim. *)
Theorem C7_leaf_marking :
  forall urls levels st,
    NoDup urls ->
    aggregate chk urls levels = Ok st ->
    let L := clamp_levels levels in
    (2 <= L /\ ((2 <= levels)%Z -> Z.of_nat L = levels)) /\
    (forall u chain,
        chain_of chk u = Ok chain ->
        leaf_of chk L u
        = Ok (firstn (Nat.min L (List.length chain)) chain)) /\
    (forall pre u post n,
        urls = pre ++ u :: post -> leaf_of chk L u = Ok n ->
        exists st1 st2,
          agg_loop chk L agg_init pre = Ok st1 /\
          agg_url chk L st1 u = Ok st2 /\
          agg_loop chk L st2 post = Ok st /\
          (In n (leaf_multi st2) <->
           exists u', u' <> u /\ In u' pre /\ leaf_of chk L u' = Ok n) /\
          ((~ exists u', u' <> u /\ In u' pre /\ leaf_of chk L u' = Ok n) ->
           ~ In n (leaf_multi st2) /\
           Dict.get n (leaf_first_url st2) = Some u /\
           hover_text chk st2 n = Ok u)) /\
    (forall n,
        In n (leaf_multi st) <->
        exists u u',
          u <> u' /\ In u urls /\ In u' urls /\
          leaf_of chk L u = Ok n /\ leaf_of chk L u' = Ok n) /\
    (forall n u,
        In u urls -> leaf_of chk L u = Ok n -> ~ In n (leaf_multi st) ->
        hover_text chk st n = Ok u).
Proof.
  intros urls levels st Hnd H L.
  destruct (leaf_marking_any_list chk urls levels st H)
    as (Hclamp & Hleaf & Hiter & Hmulti & Hsingle & Hdistinct).
  fold L in Hleaf, Hiter, Hmulti, Hsingle, Hdistinct.
  split; [exact Hclamp|]. split; [exact Hleaf|].
  split; [|split].
  - intros pre u post n Hurls Hn.
    destruct (Hiter pre u post n Hurls Hn)
      as (st1 & st2 & H1 & H2 & H3 & Hmark & Hfirst).
    exists st1, st2. repeat (split; [assumption|]).
    assert (Hfresh : forall u', In u' pre -> u' <> u).
    { intros u' Hu' ->. rewrite Hurls in Hnd.
      apply NoDup_remove_2 in Hnd. apply Hnd. apply in_or_app. left; auto. }
    assert (Hsame : (exists u', u' <> u /\ In u' pre /\
                                leaf_of chk L u' = Ok n) <->
                    (exists u', In u' pre /\ leaf_of chk L u' = Ok n)).
    { split.
      - intros (u' & _ & Hin & Hl). eauto.
      - intros (u' & Hin & Hl). exists u'. auto. }
    split.
    + rewrite Hmark. symmetry. exact Hsame.
    + intros Hnone.
      assert (Hnone' : forall u', In u' pre -> leaf_of chk L u' <> Ok n).
      { intros u' Hin Hl. apply Hnone. exists u'. auto. }
      split; [|apply Hfirst; exact Hnone'].
      intros Hin. apply Hmark in Hin as (u' & Hu' & Hl).
      apply (Hnone' u' Hu' Hl).
  - apply Hdistinct. exact Hnd.
  - intros n u Hu Hl Hnot. apply Hsingle.
    assert (Hlen : ~ 2 <= List.length (filter (leaf_is chk L n) urls)).
    { intros Hge. apply Hnot. apply Hmulti. exact Hge. }
    assert (Hin : In u (filter (leaf_is chk L n) urls)).
    { apply filter_In. split; auto. apply leaf_is_true. exact Hl. }
    destruct (filter (leaf_is chk L n) urls) as [|x [|y t]].
    + destruct Hin.
    + destruct Hin as [-> |[]]. reflexivity.
    + exfalso. apply Hlen. simpl. lia.
Qed.

End LeafClaims.

Lemma C7_leaf_marking_witness :
  In (lits ["x.com"; "a"])
     (leaf_multi
        (mkAgg [(lits ["x.com"], 2); (lits ["x.com"; "a"], 2)]
               [(lits ["x.com"], lit "https://x.com/a/b");
                (lits ["x.com"; "a"], lit "https://x.com/a/b")]
               [(lits ["x.com"; "a"], lit "https://x.com/a/b")]
               [lits ["x.com"; "a"]]))
  <-> exists u u',
        u <> u' /\
        In u (lits ["https://x.com/a/b"; "https://x.com/a/c"]) /\
        In u' (lits ["https://x.com/a/b"; "https://x.com/a/c"]) /\
        leaf_of accept_bracketed (clamp_levels 2) u
          = Ok (lits ["x.com"; "a"]) /\
        leaf_of accept_bracketed (clamp_levels 2) u'
          = Ok (lits ["x.com"; "a"]).
Proof.
  refine (proj1 (proj2 (proj2 (proj2
            (C7_leaf_marking accept_bracketed
               (lits ["https://x.com/a/b"; "https://x.com/a/c"]) 2%Z _ _ _))))
            (lits ["x.com"; "a"])).
  - repeat constructor; intros H; vm_compute in H; intuition discriminate.
  - vm_compute. reflexivity.
Defined.

(** ** The aggregation loop: counts *)

Lemma covers_spec (n leaf : node) :
  covers n leaf = true <-> n <> [] /\ exists t, leaf = n ++ t.
Proof.
  unfold covers. rewrite !andb_true_iff, negb_true_iff, Nat.eqb_neq,
    Nat.leb_le, node_eqb_eq.
  split.
  - intros [[Hne Hle] E]. split; [destruct n; simpl in *; congruence|].
    exists (skipn (List.length n) leaf).
    rewrite E at 1. apply eq_sym, firstn_skipn.
  - intros [Hne (t & ->)]. split; [split|].
    + destruct n; simpl; congruence.
    + rewrite length_app. lia.
    + rewrite firstn_app, Nat.sub_diag, firstn_all. simpl.
      rewrite app_nil_r. reflexivity.
Qed.

Lemma is_child_spec (n m : node) :
  is_child n m = true <-> exists s, m = n ++ [s].
Proof.
  unfold is_child. rewrite andb_true_iff, Nat.eqb_eq, node_eqb_eq. split.
  - intros [Hlen E].
    pose proof (firstn_skipn (List.length n) m) as Hm. rewrite <- E in Hm.
    assert (Hs : List.length (skipn (List.length n) m) = 1)
      by (rewrite length_skipn; lia).
    destruct (skipn (List.length n) m) as [|s [|? ?]]; simpl in Hs; try lia.
    exists s. congruence.
  - intros (s & ->). rewrite length_app. simpl. split; auto.
    rewrite firstn_app, Nat.sub_diag, firstn_all. simpl.
    rewrite app_nil_r. reflexivity.
Qed.

Lemma prefix_snoc {A} (n p t : list A) (x : A) :
  p ++ [x] = n ++ t -> (exists t', p = n ++ t') \/ n = p ++ [x].
Proof.
  revert n; induction p as [|a p IH]; intros n H; simpl in *.
  - destruct n as [|b n]; [left; exists []; reflexivity|].
    inversion H as [[H1 H2]]. destruct n; [|discriminate]. right; auto.
  - destruct n as [|b n]; [left; eexists; reflexivity|].
    inversion H as [[H1 H2]]. destruct (IH _ H2) as [(t' & ->)| ->].
    + left; exists t'; reflexivity.
    + right; reflexivity.
Qed.

Lemma firstn_S_snoc {A} (k : nat) (l : list A) :
  k < List.length l -> exists x, firstn (S k) l = firstn k l ++ [x].
Proof.
  revert l; induction k as [|k IH]; intros [|a l] H; simpl in *; try lia.
  - exists a; reflexivity.
  - destruct (IH l) as (x & ->); [lia|]. exists x; reflexivity.
Qed.

Lemma count_of_incr (n m : node) (c : list (node * nat)) :
  count_of n (incr m c) = count_of n c + b2n (node_eqb n m).
Proof.
  unfold incr, count_of at 1. rewrite get_set.
  destruct (node_eqb n m) eqn:E; simpl; [|unfold count_of; lia].
  apply node_eqb_eq in E; subst. reflexivity.
Qed.

Lemma fold_count_prefix_counts u chain (l : list nat) (st : AggState)
    (n : node) :
  count_of n (counts (fold_left (count_prefix u chain) l st)) =
  count_of n (counts st)
  + List.length (filter (fun i => node_eqb n (firstn (i + 1) chain)) l).
Proof.
  revert st; induction l as [|i l IH]; intros st; simpl; [lia|].
  rewrite IH. simpl. rewrite count_of_incr.
  destruct (node_eqb n (firstn (i + 1) chain)); simpl; lia.
Qed.

Lemma prefixes_counted (n : node) (chain : list str) (k : nat) :
  k <= List.length chain ->
  List.length (filter (fun i => node_eqb n (firstn (i + 1) chain)) (seq 0 k))
  = b2n (covers n (firstn k chain)).
Proof.
  induction k as [|k IH]; intros Hk.
  - simpl. destruct (covers n []) eqn:E; auto.
    apply covers_spec in E as [Hne (t & Ht)]. exfalso.
    destruct n; [apply Hne; reflexivity | discriminate].
  - rewrite seq_S, filter_app, length_app, IH by lia.
    cbn [filter Nat.add]. rewrite Nat.add_1_r.
    destruct (firstn_S_snoc k chain) as (x & Hx); [lia|].
    assert (Hlen : List.length (firstn k chain) = k)
      by (apply firstn_length_le; lia).
    destruct (covers n (firstn k chain)) eqn:E1;
      destruct (node_eqb n (firstn (S k) chain)) eqn:E2;
      destruct (covers n (firstn (S k) chain)) eqn:E3;
      cbn [b2n List.length Nat.add]; auto; exfalso.
    + apply covers_spec in E1 as [_ (t & Ht)]. apply node_eqb_eq in E2.
      assert (List.length n = S k)
        by (rewrite E2; apply firstn_length_le; lia).
      rewrite Ht, length_app in Hlen. lia.
    + apply covers_spec in E1 as [_ (t & Ht)]. apply node_eqb_eq in E2.
      assert (List.length n = S k)
        by (rewrite E2; apply firstn_length_le; lia).
      rewrite Ht, length_app in Hlen. lia.
    + apply covers_spec in E1 as [Hne (t & Ht)].
      assert (covers n (firstn (S k) chain) = true); [|congruence].
      apply covers_spec. split; auto. exists (t ++ [x]).
      rewrite Hx, Ht, <- app_assoc. reflexivity.
    + apply node_eqb_eq in E2.
      assert (covers n (firstn (S k) chain) = true); [|congruence].
      apply covers_spec. split; [|exists []; rewrite app_nil_r; auto].
      intros ->. destruct chain; simpl in *; [lia | discriminate].
    + apply covers_spec in E3 as [Hne (t & Ht)]. rewrite Hx in Ht.
      apply prefix_snoc in Ht as [(t' & Ht')| ->].
      * assert (covers n (firstn k chain) = true); [|congruence].
        apply covers_spec; eauto.
      * rewrite <- Hx, node_eqb_refl in E2. discriminate.
Qed.

Section Counts.

Variable chk : str -> option string.

Lemma agg_url_counts (L : nat) (st st' : AggState) (u : str) (n : node) :
  agg_url chk L st u = Ok st' ->
  count_of n (counts st') =
  count_of n (counts st) + b2n (counted_at chk L n u).
Proof.
  unfold agg_url, counted_at, leaf_of. intros H.
  apply bind_Ok in H as (chain & Hc & H). rewrite Hc. cbn [bind].
  set (k := Nat.min L (List.length chain)) in *.
  assert (E : counts st' = counts (fold_left (count_prefix u chain) (seq 0 k) st)).
  { destruct (Dict.contains _ _); inversion H; reflexivity. }
  rewrite E, fold_count_prefix_counts, prefixes_counted; auto.
  unfold k. lia.
Qed.

Lemma counts_recorded_loop L urls st st' done :
  counts_recorded chk L st done -> agg_loop chk L st urls = Ok st' ->
  counts_recorded chk L st' (done ++ urls).
Proof.
  revert st done; induction urls as [|u urls IH]; intros st done Hinv H.
  - simpl in H. inversion H; subst. rewrite app_nil_r. auto.
  - simpl in H. apply bind_Ok in H as (st1 & H1 & H).
    replace (done ++ u :: urls) with ((done ++ [u]) ++ urls)
      by (rewrite <- app_assoc; reflexivity).
    eapply IH; [|exact H]. intros n.
    rewrite (agg_url_counts _ _ _ _ n H1), (Hinv n), filter_app, length_app.
    simpl. destruct (counted_at chk L n u); reflexivity.
Qed.

Lemma aggregate_counts urls levels st :
  aggregate chk urls levels = Ok st ->
  counts_recorded chk (clamp_levels levels) st urls.
Proof.
  intros H. apply (counts_recorded_loop _ urls agg_init st []); auto.
  intros n. reflexivity.
Qed.

End Counts.

Lemma filter_length_le {A} (p q : A -> bool) (l : list A) :
  (forall x, In x l -> p x = true -> q x = true) ->
  List.length (filter p l) <= List.length (filter q l).
Proof.
  induction l as [|x l IH]; intros H; simpl; auto.
  assert (IH' : List.length (filter p l) <= List.length (filter q l))
    by (apply IH; intros; apply H; simpl; auto).
  destruct (p x) eqn:Ep.
  - rewrite (H x (or_introl eq_refl) Ep). simpl. lia.
  - destruct (q x); simpl; lia.
Qed.

Section CountLaws.

Variable chk : str -> option string.

(** X2.  The half of the roll-up invariant that the code does satisfy: the count
    of a node is never below the count of a node it is a strict prefix of,
    because every URL counted at the longer chain is counted at each of its
    non-empty prefixes. *)
Theorem ancestor_count_ge_descendant :
  forall urls levels st n t,
    aggregate chk urls levels = Ok st ->
    n <> [] ->
    count_of (n ++ t) (counts st) <= count_of n (counts st).
Proof.
  intros urls levels st n t H Hn.
  pose proof (aggregate_counts chk _ _ _ H) as Hc.
  rewrite (Hc n), (Hc (n ++ t)).
  apply filter_length_le. intros u _. unfold counted_at.
  destruct (leaf_of chk (clamp_levels levels) u) as [leaf|]; auto.
  rewrite !covers_spec. intros [_ (t' & ->)]. split; auto.
  exists (t ++ t'). rewrite app_assoc. reflexivity.
Qed.

End CountLaws.

(** ** The aggregation loop: keys, and summing over children *)

Lemma keys_set {V} (k : node) (v : V) (d : list (node * V)) :
  Dict.keys (Dict.set k v d) =
  if Dict.contains k d then Dict.keys d else Dict.keys d ++ [k].
Proof.
  unfold Dict.contains, Dict.keys.
  induction d as [|[k0 v0] d IH]; simpl; auto.
  destruct (node_eqb k k0) eqn:E; simpl.
  - apply node_eqb_eq in E; subst; reflexivity.
  - rewrite IH. destruct (Dict.get k d); reflexivity.
Qed.

Lemma counter_wf_incr (m : node) (c : list (node * nat)) :
  counter_wf c -> counter_wf (incr m c).
Proof.
  intros [Hnd Hpos]. unfold incr. split.
  - rewrite keys_set. destruct (Dict.contains m c) eqn:E; auto.
    apply NoDup_app; auto.
    + repeat constructor. intros [].
    + intros x Hx [Hm|[]]. subst x.
      assert (Dict.contains m c = true) by (apply get_In_keys; auto).
      congruence.
  - intros n v. rewrite get_set. destruct (node_eqb n m).
    + intros H; inversion H; lia.
    + apply Hpos.
Qed.

Lemma counter_wf_fold u chain (l : list nat) (st : AggState) :
  counter_wf (counts st) ->
  counter_wf (counts (fold_left (count_prefix u chain) l st)).
Proof.
  revert st; induction l as [|i l IH]; intros st H; simpl; auto.
  apply IH. simpl. apply counter_wf_incr; auto.
Qed.

Lemma counter_wf_In (c : list (node * nat)) (n : node) :
  counter_wf c -> (In n (Dict.keys c) <-> 1 <= count_of n c).
Proof.
  intros [_ Hpos]. rewrite <- get_In_keys, contains_get. unfold count_of.
  split.
  - intros (v & Hv). rewrite Hv. eauto.
  - destruct (Dict.get n c); [eauto | lia].
Qed.

Section Keys.

Variable chk : str -> option string.

Lemma counter_wf_url L st st' u :
  counter_wf (counts st) -> agg_url chk L st u = Ok st' ->
  counter_wf (counts st').
Proof.
  unfold agg_url. intros Hwf H.
  apply bind_Ok in H as (chain & _ & H).
  set (k := Nat.min L (List.length chain)) in *.
  assert (E : counts st' = counts (fold_left (count_prefix u chain) (seq 0 k) st)).
  { destruct (Dict.contains _ _); inversion H; reflexivity. }
  rewrite E. apply counter_wf_fold; auto.
Qed.

Lemma counter_wf_loop L urls st st' :
  counter_wf (counts st) -> agg_loop chk L st urls = Ok st' ->
  counter_wf (counts st').
Proof.
  revert st; induction urls as [|u urls IH]; intros st Hwf H; simpl in H.
  - inversion H; subst; auto.
  - apply bind_Ok in H as (st1 & H1 & H).
    eapply IH; [|exact H]. eapply counter_wf_url; eauto.
Qed.

Lemma aggregate_counter_wf urls levels st :
  aggregate chk urls levels = Ok st -> counter_wf (counts st).
Proof.
  apply counter_wf_loop. split; [constructor | discriminate].
Qed.

End Keys.

Lemma list_sum_map_add {A} (g h : A -> nat) (l : list A) :
  list_sum (map (fun x => g x + h x) l)
  = list_sum (map g l) + list_sum (map h l).
Proof. induction l as [|x l IH]; simpl; lia. Qed.

Lemma list_sum_zero {A} (g : A -> bool) (l : list A) :
  (forall x, In x l -> g x = false) ->
  list_sum (map (fun x => b2n (g x)) l) = 0.
Proof.
  induction l as [|x l IH]; intros H; simpl; auto.
  rewrite (H x (or_introl eq_refl)), IH; auto.
  intros; apply H; right; auto.
Qed.

Lemma list_sum_one (g : node -> bool) (l : list node) (a : node) :
  NoDup l -> In a l -> g a = true ->
  (forall x, In x l -> g x = true -> x = a) ->
  list_sum (map (fun x => b2n (g x)) l) = 1.
Proof.
  induction l as [|x l IH]; intros Hnd Ha Hga Huniq; [destruct Ha|].
  inversion Hnd as [|? ? Hnin Hnd']; subst. simpl.
  destruct Ha as [-> |Ha].
  - rewrite Hga. simpl. f_equal. apply list_sum_zero.
    intros y Hy. destruct (g y) eqn:E; auto.
    assert (y = a) by (apply Huniq; simpl; auto). subst. contradiction.
  - rewrite IH; auto.
    + destruct (g x) eqn:E; auto.
      assert (x = a) by (apply Huniq; simpl; auto). subst. contradiction.
    + intros y Hy. apply Huniq; right; auto.
Qed.

(** Counting by children: when every element counted under some key of [C]
    is counted under exactly one, the per-key counts add up. *)
Lemma sum_over_children {A} (C : list node) (l : list A)
    (P : node -> A -> bool) (Q : A -> bool) (f : A -> node) :
  NoDup C ->
  (forall u m, In u l -> In m C -> P m u = true -> Q u = true /\ m = f u) ->
  (forall u, In u l -> Q u = true -> In (f u) C /\ P (f u) u = true) ->
  list_sum (map (fun m => List.length (filter (P m) l)) C)
  = List.length (filter Q l).
Proof.
  intros Hnd. induction l as [|u l IH]; intros H1 H2.
  - simpl. clear. induction C; simpl; auto.
  - assert (E : forall m, List.length (filter (P m) (u :: l))
                          = b2n (P m u) + List.length (filter (P m) l)).
    { intros m. simpl. destruct (P m u); reflexivity. }
    rewrite (map_ext _ _ E), list_sum_map_add, IH.
    2:{ intros u' m Hu'. apply H1. right; auto. }
    2:{ intros u' Hu'. apply H2. right; auto. }
    simpl. destruct (Q u) eqn:Eq; simpl.
    + destruct (H2 u (or_introl eq_refl) Eq) as [Hin Hp].
      rewrite (list_sum_one (fun m => P m u) C (f u)); auto.
      intros m Hm Hpm. apply (H1 u m); simpl; auto.
    + rewrite list_sum_zero; auto.
      intros m Hm. destruct (P m u) eqn:Ep; auto.
      destruct (H1 u m) as [Hq _]; simpl; auto. congruence.
Qed.

Lemma filter_length_split {A} (p q r : A -> bool) (l : list A) :
  (forall x, p x = q x || r x) -> (forall x, q x && r x = false) ->
  List.length (filter p l)
  = List.length (filter q l) + List.length (filter r l).
Proof.
  intros H1 H2. induction l as [|x l IH]; simpl; auto.
  specialize (H1 x). specialize (H2 x). rewrite H1.
  destruct (q x), (r x); simpl in *; try discriminate; lia.
Qed.

Section RollUp.

Variable chk : str -> option string.

(** X1.  The roll-up law the loop does establish: the count of a node is the
    number of URLs whose (truncated) chain is the node itself, plus the sum
    of the counts of its children.  So the count of a node equals the sum
    over its children exactly when no URL ends at the node. *)
Theorem rollup_with_own_urls :
  forall urls levels st n,
    aggregate chk urls levels = Ok st ->
    n <> [] ->
    count_of n (counts st)
    = List.length (filter (leaf_is chk (clamp_levels levels) n) urls)
      + children_sum st n.
Proof.
  intros urls levels st n H Hn. set (L := clamp_levels levels).
  pose proof (aggregate_counts chk _ _ _ H) as Hc. fold L in Hc.
  pose proof (aggregate_counter_wf chk _ _ _ H) as Hwf.
  rewrite (Hc n).
  rewrite (filter_length_split (counted_at chk L n) (leaf_is chk L n)
             (counted_below chk L n)).
  2:{ intros u. unfold counted_below, counted_at, leaf_is.
      destruct (leaf_of chk L u) as [leaf|]; auto.
      destruct (node_eqb leaf n) eqn:E; simpl;
        [|rewrite andb_true_r; reflexivity].
      apply node_eqb_eq in E; subst. apply covers_spec. split; auto.
      exists []. rewrite app_nil_r. reflexivity. }
  2:{ intros u. unfold counted_below.
      destruct (leaf_is chk L n u), (counted_at chk L n u); reflexivity. }
  f_equal. unfold children_sum.
  rewrite (map_ext _ (fun m => List.length (filter (counted_at chk L m) urls)))
    by (intros m; apply Hc).
  symmetry.
  apply (sum_over_children _ urls (counted_at chk L) (counted_below chk L n)
           (child_towards chk L n)).
  - apply NoDup_filter, Hwf.
  - intros u m _ Hm Hp. apply filter_In in Hm as [_ Hm].
    apply is_child_spec in Hm as (s & ->).
    unfold counted_below, counted_at, leaf_is, child_towards in *.
    destruct (leaf_of chk L u) as [leaf|]; [|discriminate].
    apply covers_spec in Hp as [_ (t & ->)]. split.
    + apply andb_true_iff. split.
      * apply covers_spec. split; auto. exists ([s] ++ t).
        rewrite <- !app_assoc. reflexivity.
      * apply negb_true_iff, node_eqb_neq. intros E.
        apply (f_equal (@List.length str)) in E.
        rewrite !length_app in E. simpl in E. lia.
    + rewrite <- app_assoc, firstn_app. simpl.
      replace (List.length n + 1 - List.length n) with 1 by lia.
      rewrite firstn_all2 by lia. reflexivity.
  - intros u Hu Hq.
    unfold counted_below, counted_at, leaf_is, child_towards in *.
    destruct (leaf_of chk L u) as [leaf|] eqn:El; [|discriminate].
    apply andb_true_iff in Hq as [Hcov Hneq].
    apply covers_spec in Hcov as [_ (t & ->)].
    apply negb_true_iff, node_eqb_neq in Hneq.
    destruct t as [|s t]; [rewrite app_nil_r in Hneq; congruence|].
    assert (Ef : firstn (List.length n + 1) (n ++ s :: t) = n ++ [s]).
    { rewrite firstn_app.
      replace (List.length n + 1 - List.length n) with 1 by lia.
      rewrite firstn_all2 by lia. reflexivity. }
    rewrite Ef.
    assert (Hcv : covers (n ++ [s]) (n ++ s :: t) = true).
    { apply covers_spec. split; [destruct n; discriminate|].
      exists t. rewrite <- app_assoc. reflexivity. }
    split; auto. apply filter_In. split.
    + apply counter_wf_In; auto. rewrite (Hc (n ++ [s])).
      apply filter_length_pos. exists u. split; auto.
      unfold counted_at. rewrite El. exact Hcv.
    + apply is_child_spec. eauto.
Qed.

End RollUp.

(** ** The emission loop *)

Lemma id_map_get (l : list node) (k : node) (i : str) :
  Dict.get k (map (fun n => (n, node_id n)) l) = Some i -> i = node_id k.
Proof.
  induction l as [|n l IH]; simpl; [discriminate|].
  destruct (node_eqb k n) eqn:E; auto.
  apply node_eqb_eq in E; subst. congruence.
Qed.

Section Emit.

Variable chk : str -> option string.

Lemma emit_spec st (l nodes : list node) (acc t : Treemap) :
  emit chk st (map (fun n => (n, node_id n)) l) nodes acc = Ok t ->
  ids t = ids acc ++ map node_id nodes /\
  parents t = parents acc ++ map parent_id nodes /\
  values t = values acc ++ map (fun n => count_of n (counts st)) nodes.
Proof.
  revert acc; induction nodes as [|n nodes IH]; intros acc H; simpl in H.
  - inversion H; subst. simpl. rewrite !app_nil_r. auto.
  - apply bind_Ok in H as (nid & Hnid & H).
    apply bind_Ok in H as (parent & Hpar & H).
    apply bind_Ok in H as (label & _ & H).
    apply bind_Ok in H as (hover & _ & H).
    apply IH in H as (Hi & Hp & Hv). simpl in Hi, Hp, Hv.
    assert (Enid : nid = node_id n).
    { unfold lookup_id in Hnid.
      destruct (Dict.get n _) eqn:E; inversion Hnid; subst.
      eapply id_map_get; eauto. }
    assert (Epar : parent = parent_id n).
    { unfold parent_id. destruct (List.length n =? 1).
      - inversion Hpar; reflexivity.
      - unfold lookup_id in Hpar.
        destruct (Dict.get (removelast n) _) eqn:E; inversion Hpar; subst.
        eapply id_map_get; eauto. }
    subst. rewrite Hi, Hp, Hv, <- !app_assoc. auto.
Qed.

(** The flat node list: one row per key of [counts], in the order of
    [nodes_sorted], carrying the node's identifier, its parent's and its
    count. *)
Lemma render_rows urls levels t :
  render_treemap_go_from_urls chk urls levels = Ok t ->
  exists st,
    aggregate chk urls levels = Ok st /\
    ids t = map node_id (nodes_sorted st) /\
    parents t = map parent_id (nodes_sorted st) /\
    values t = map (fun n => count_of n (counts st)) (nodes_sorted st) /\
    (forall n, In n (nodes_sorted st) <-> 1 <= count_of n (counts st)).
Proof.
  unfold render_treemap_go_from_urls. intros H.
  apply bind_Ok in H as (st & Hst & H). exists st. split; auto.
  apply emit_spec in H as (Hi & Hp & Hv). simpl in Hi, Hp, Hv.
  repeat (split; auto).
  - intros Hn. apply counter_wf_In.
    + eapply aggregate_counter_wf; eauto.
    + eapply Permutation_in; [apply sorted_perm | exact Hn].
  - intros Hn. eapply Permutation_in; [symmetry; apply sorted_perm|].
    apply counter_wf_In; auto. eapply aggregate_counter_wf; eauto.
Qed.

End Emit.

(** ** Node identifiers *)

Lemma split_no_sep (c : ascii) (x : str) :
  ~ In c x -> Py.split c x = [x].
Proof.
  induction x as [|a x IH]; intros H; simpl; auto.
  destruct (Ascii.eqb_spec a c) as [-> |Hne]; [exfalso; apply H; left; auto|].
  rewrite IH by (intros ?; apply H; right; auto). reflexivity.
Qed.

Lemma split_app_sep (c : ascii) (x rest : str) :
  ~ In c x -> Py.split c (x ++ c :: rest) = x :: Py.split c rest.
Proof.
  induction x as [|a x IH]; intros H; simpl.
  - rewrite Ascii.eqb_refl. reflexivity.
  - destruct (Ascii.eqb_spec a c) as [-> |Hne]; [exfalso; apply H; left; auto|].
    rewrite IH by (intros ?; apply H; right; auto). reflexivity.
Qed.

Lemma split_join (c : ascii) (l : list str) :
  l <> [] -> Forall (fun s => ~ In c s) l -> Py.split c (Py.join [c] l) = l.
Proof.
  intros Hne Hl. revert Hne.
  induction Hl as [|x l Hx Hl IH]; intros Hne;
    [exfalso; apply Hne; reflexivity|].
  destruct l as [|y l]; simpl.
  - apply split_no_sep; auto.
  - change (x ++ [c] ++ Py.join [c] (y :: l))
      with (x ++ c :: Py.join [c] (y :: l)).
    rewrite split_app_sep by auto. f_equal. apply IH. discriminate.
Qed.

(** X3.  Identifiers are injective on the nodes none of whose segments holds the
    separator; nothing in the code keeps the separator out of a segment. *)
Theorem node_id_injective_without_separator :
  forall a b : node,
    a <> [] -> b <> [] ->
    Forall (fun s => ~ In "|"%char s) a ->
    Forall (fun s => ~ In "|"%char s) b ->
    node_id a = node_id b -> a = b.
Proof.
  intros a b Ha Hb Hsa Hsb H. unfold node_id in H.
  apply app_inv_head in H.
  rewrite <- (split_join "|" a Ha Hsa), <- (split_join "|" b Hb Hsb).
  change (lit "|") with ["|"%char] in H. rewrite H. reflexivity.
Qed.

(** ** The emitted tree *)

(** C1 on the code.  For the root page and one page below it, the node
    [|x.com] is emitted with value 2 while its only child [|x.com|a] has
    value 1: the URL that ends at [x.com] itself is counted at the parent
    and at no child, so the parent's count is not the sum of its
    children's. *)
Theorem C1_rollup_on_root_page :
  exists st,
    aggregate accept_bracketed
      (lits ["https://x.com/"; "https://x.com/a"]) 2%Z = Ok st /\
    render_treemap_go_from_urls accept_bracketed
      (lits ["https://x.com/"; "https://x.com/a"]) 2%Z
    = Ok (mkTreemap (lits ["|x.com"; "|x.com|a"])
                    (lits ["x.com"; "a"])
                    (lits [""; "|x.com"])
                    [2; 1]
                    (lits ["https://x.com/"; "https://x.com/a"])) /\
    filter (is_child (lits ["x.com"])) (nodes_sorted st)
    = [lits ["x.com"; "a"]] /\
    count_of (lits ["x.com"]) (counts st) = 2 /\
    children_sum st (lits ["x.com"]) = 1.
Proof.
  eexists. split; [vm_compute; reflexivity|].
  repeat split; vm_compute; reflexivity.
Qed.

(** C2 on the code.  A path segment may hold the separator: the distinct
    nodes [("x.com", "a|b")] and [("x.com", "a", "b")] get the same
    identifier, and the emitted list of identifiers repeats it. *)
Theorem C2_node_id_collision :
  lits ["x.com"; "a|b"] <> lits ["x.com"; "a"; "b"] /\
  node_id (lits ["x.com"; "a|b"]) = node_id (lits ["x.com"; "a"; "b"]) /\
  normalize_pages_only accept_bracketed
    (lits ["https://x.com/a/b"; "https://x.com/a|b"]) "x.com" false false
  = Ok (lits ["https://x.com/a/b"; "https://x.com/a|b"]) /\
  exists t,
    render_treemap_go_from_urls accept_bracketed
      (lits ["https://x.com/a/b"; "https://x.com/a|b"]) 3%Z = Ok t /\
    ids t = lits ["|x.com"; "|x.com|a"; "|x.com|a|b"; "|x.com|a|b"].
Proof.
  split; [discriminate|]. split; [reflexivity|].
  split; [vm_compute; reflexivity|].
  eexists. split; vm_compute; reflexivity.
Qed.

(** ** The general statements at concrete inputs *)

Lemma C9_filters_sorted_witness :
  NoDup (lits ["https://x.com/a"; "https://x.com/b"]) /\
  StronglySorted (fun a b => Py.str_leb a b = true)
    (lits ["https://x.com/a"; "https://x.com/b"]) /\
  ascending (lits ["https://x.com/a"; "https://x.com/b"]) /\
  (forall out',
      filter_urls accept_bracketed true
        (lits ["https://x.com/b"; "https://x.com/a/"; "https://x.com/b#top";
               "ftp://x.com/c"; "https://y.com/"])
        "x.com" false false = Ok out' ->
      out' = lits ["https://x.com/a"; "https://x.com/b"]).
Proof.
  apply (C9_filters_sorted_unique accept_bracketed true
           (lits ["https://x.com/b"; "https://x.com/a/"; "https://x.com/b#top";
                  "ftp://x.com/c"; "https://y.com/"])
           (lit "x.com") false false).
  vm_compute. reflexivity.
Defined.

Lemma C10_pages_subset_witness :
  exists internal,
    normalize_internal_all accept_bracketed
      (lits ["https://x.com/a.jpg"; "https://x.com/page"]) "x.com" false false
    = Ok internal /\
    forall v, In v (lits ["https://x.com/page"]) -> In v internal.
Proof.
  apply (C10_pages_subset_internal accept_bracketed
           (lits ["https://x.com/a.jpg"; "https://x.com/page"])
           (lit "x.com") false false).
  vm_compute. reflexivity.
Defined.

Lemma C3_normalize_input_url_witness :
  exists pu,
    urlsplit accept_bracketed
      (with_scheme (Py.strip " York.COM//docs///api/?q=1#top ")) = Ok pu /\
    lit "https://york.com/docs/api"
    = Py.lower (scheme pu) ++ lit "://" ++ Py.lower (netloc pu)
      ++ _normalize_path (path pu).
Proof.
  destruct (proj2 (proj2 (C3_normalize_input_url_shape accept_bracketed))
              (lit " York.COM//docs///api/?q=1#top ")
              (lit "https://york.com/docs/api"))
    as (pu & Hpu & _ & Hr & _).
  - vm_compute. reflexivity.
  - exists pu. split; assumption.
Defined.

Lemma C4_normalize_input_url_witness :
  normalize_input_url accept_bracketed "/" = Raise (ValueError MSG_NO_HOST).
Proof.
  refine (proj1 (proj2 (proj2 (proj2
            (C4_normalize_input_url_errors accept_bracketed (lit "/")))))
            (mkSplit "https" "" "" "" "") _ _ _).
  - discriminate.
  - vm_compute. reflexivity.
  - reflexivity.
Defined.

(** ** Sorted lists are determined by their elements *)

Section SortedUnique.

Context {A : Type} (cmp : A -> A -> comparison).
Hypothesis cmp_eq : forall x y, cmp x y = Eq <-> x = y.
Hypothesis cmp_antisym : forall x y, cmp y x = CompOpp (cmp x y).
Hypothesis cmp_trans :
  forall x y z, cmp x y = Lt -> cmp y z = Lt -> cmp x z = Lt.

Let lt (x y : A) : Prop := cmp x y = Lt.

Lemma lt_irrefl (x : A) : ~ lt x x.
Proof.
  unfold lt. intros H. assert (cmp x x = Eq) by (apply cmp_eq; auto).
  congruence.
Qed.

Lemma lt_asym (x y : A) : lt x y -> ~ lt y x.
Proof.
  intros H1 H2. apply (lt_irrefl x). eapply cmp_trans; eauto.
Qed.

Lemma strictly_sorted_unique (l1 l2 : list A) :
  StronglySorted lt l1 -> StronglySorted lt l2 ->
  (forall x, In x l1 <-> In x l2) -> l1 = l2.
Proof.
  intros H1; revert l2; induction H1 as [|x l1 Hs1 IH Hx]; intros l2 H2 Hin.
  - destruct l2 as [|y l2]; auto. exfalso. apply (Hin y). left; auto.
  - destruct H2 as [|y l2 Hs2 Hy].
    + exfalso. apply (Hin x). left; auto.
    + rewrite Forall_forall in Hx, Hy.
      assert (x = y).
      { destruct (proj1 (Hin x) (or_introl eq_refl)) as [E|Hx2]; auto.
        destruct (proj2 (Hin y) (or_introl eq_refl)) as [E|Hy1]; auto.
        exfalso. apply (lt_asym x y); auto. }
      subst y. f_equal. apply IH; auto.
      intros z. split; intros Hz.
      * destruct (proj1 (Hin z) (or_intror Hz)) as [E|H]; auto.
        subst z. exfalso. apply (lt_irrefl x); auto.
      * destruct (proj2 (Hin z) (or_intror Hz)) as [E|H]; auto.
        subst z. exfalso. apply (lt_irrefl x); auto.
Qed.

(** In a strictly sorted list a smaller member has a smaller index. *)
Lemma strictly_sorted_index (l : list A) (a b : A) (i : nat) :
  StronglySorted lt l -> nth_error l i = Some b -> In a l -> lt a b ->
  exists j, j < i /\ nth_error l j = Some a.
Proof.
  intros Hs; revert i; induction Hs as [|x l Hs IH Hx]; intros i Hb Ha Hab.
  - destruct Ha.
  - rewrite Forall_forall in Hx. destruct i as [|i]; simpl in Hb.
    + inversion Hb; subst b. destruct Ha as [-> |Ha].
      * exfalso. eapply lt_irrefl; eauto.
      * exfalso. apply (lt_asym a x); auto.
    + destruct Ha as [-> |Ha].
      * exists 0. split; [lia | reflexivity].
      * destruct (IH i Hb Ha Hab) as (j & Hj & Hn).
        exists (S j). split; [lia | exact Hn].
Qed.

End SortedUnique.

(** ** The order of the emitted nodes *)

Lemma node_lex_eq (a b : node) :
  Py.lex_compare Py.str_compare a b = Eq <-> a = b.
Proof. apply lex_compare_eq, str_compare_eq. Qed.

Lemma node_key_compare_eq (a b : node) :
  node_key_compare a b = Eq <-> a = b.
Proof.
  unfold node_key_compare.
  destruct (Nat.compare_spec (List.length a) (List.length b)) as [E|E|E].
  - apply node_lex_eq.
  - split; [discriminate | intros ->; lia].
  - split; [discriminate | intros ->; lia].
Qed.

Lemma node_key_compare_antisym (a b : node) :
  node_key_compare b a = CompOpp (node_key_compare a b).
Proof.
  unfold node_key_compare.
  rewrite (Nat.compare_antisym (List.length a) (List.length b)).
  destruct (List.length a ?= List.length b); simpl; auto.
  apply lex_compare_antisym, str_compare_antisym.
Qed.

Lemma node_key_compare_trans (a b c : node) :
  node_key_compare a b = Lt -> node_key_compare b c = Lt ->
  node_key_compare a c = Lt.
Proof.
  unfold node_key_compare.
  destruct (Nat.compare_spec (List.length a) (List.length b)) as [E1|E1|E1];
    destruct (Nat.compare_spec (List.length b) (List.length c)) as [E2|E2|E2];
    destruct (Nat.compare_spec (List.length a) (List.length c)) as [E3|E3|E3];
    try lia; try discriminate; auto.
  apply lex_compare_trans; [apply str_compare_eq | apply str_compare_trans].
Qed.

Lemma node_key_shorter (a b : node) :
  List.length a < List.length b -> node_key_compare a b = Lt.
Proof.
  intros H. unfold node_key_compare.
  apply Nat.compare_lt_iff in H. rewrite H. reflexivity.
Qed.

(** ** What the aggregation loop keeps *)

Lemma existsb_filter_length {A} (f : A -> bool) (l : list A) :
  existsb f l = negb (List.length (filter f l) =? 0).
Proof.
  induction l as [|x l IH]; simpl; auto.
  destruct (f x); simpl; auto.
Qed.

Section AggInvariants.

Variable chk : str -> option string.

Lemma chain_of_Ok (u : str) (c : list str) :
  chain_of chk u = Ok c <->
  exists pu,
    urlsplit chk u = Ok pu /\
    c = (if Py.is_empty (netloc pu) then lit "/" else netloc pu)
        :: filter (fun s => negb (Py.is_empty s))
             (Py.split "/" (if Py.is_empty (path pu) then lit "/"
                            else path pu)).
Proof.
  unfold chain_of. split.
  - intros H. apply bind_Ok in H as (pu & Hp & H). exists pu. split; auto.
    inversion H; reflexivity.
  - intros (pu & Hp & ->). rewrite Hp. reflexivity.
Qed.

Lemma chain_of_Raise (u : str) (e : exn) :
  chain_of chk u = Raise e <-> urlsplit chk u = Raise e.
Proof.
  unfold chain_of. destruct (urlsplit chk u) as [pu|e']; cbn [bind].
  - split; discriminate.
  - split; intros H; inversion H; reflexivity.
Qed.

Lemma chain_of_parses (u : str) :
  (exists c, chain_of chk u = Ok c) <-> parses chk u.
Proof.
  unfold parses. split.
  - intros (c & H). apply chain_of_Ok in H as (pu & H & _). eauto.
  - intros (pu & H). eexists. apply chain_of_Ok. eauto.
Qed.

(** A chain starts with a host and holds no empty segment. *)
Lemma chain_of_shape (u : str) (c : list str) :
  chain_of chk u = Ok c -> c <> [] /\ Forall (fun s => s <> []) c.
Proof.
  intros H. apply chain_of_Ok in H as (pu & _ & ->). split; [discriminate|].
  constructor.
  - destruct (Py.is_empty (netloc pu)) eqn:E.
    + discriminate.
    + apply is_empty_false; auto.
  - eapply Forall_impl; [|apply filter_Forall].
    intros s Hs. apply is_empty_false.
    simpl in Hs. destruct (Py.is_empty s); [discriminate Hs | reflexivity].
Qed.

Lemma leaf_of_Ok (L : nat) (u : str) (n : node) :
  leaf_of chk L u = Ok n <->
  exists c, chain_of chk u = Ok c /\
            n = firstn (Nat.min L (List.length c)) c.
Proof.
  unfold leaf_of. split.
  - intros H. apply bind_Ok in H as (c & Hc & H). exists c. split; auto.
    inversion H; reflexivity.
  - intros (c & Hc & ->). rewrite Hc. reflexivity.
Qed.

Lemma agg_url_total (L : nat) (st : AggState) (u : str) :
  parses chk u -> exists st', agg_url chk L st u = Ok st'.
Proof.
  intros H. apply chain_of_parses in H as (c & Hc).
  unfold agg_url. rewrite Hc. cbn [bind].
  destruct (Dict.contains _ _); eauto.
Qed.

Lemma agg_url_Raise (L : nat) (st : AggState) (u : str) (e : exn) :
  agg_url chk L st u = Raise e <-> urlsplit chk u = Raise e.
Proof.
  rewrite <- chain_of_Raise. unfold agg_url.
  destruct (chain_of chk u) as [c|e']; cbn [bind].
  - destruct (Dict.contains _ _); split; discriminate.
  - split; intros H; inversion H; reflexivity.
Qed.

Lemma agg_loop_total (L : nat) (urls : list str) (st : AggState) :
  (forall u, In u urls -> parses chk u) ->
  exists st', agg_loop chk L st urls = Ok st'.
Proof.
  revert st; induction urls as [|u urls IH]; intros st H; simpl; eauto.
  destruct (agg_url_total L st u) as (st1 & H1); [apply H; left; auto|].
  rewrite H1. cbn [bind]. apply IH. intros; apply H; right; auto.
Qed.

Lemma agg_loop_Ok_parses (L : nat) (urls : list str) (st st' : AggState) :
  agg_loop chk L st urls = Ok st' -> forall u, In u urls -> parses chk u.
Proof.
  revert st; induction urls as [|u urls IH]; intros st H v Hv; [destruct Hv|].
  simpl in H. apply bind_Ok in H as (st1 & H1 & H).
  destruct Hv as [<- |Hv]; [|eapply IH; eauto].
  unfold agg_url in H1. apply bind_Ok in H1 as (c & Hc & _).
  apply chain_of_parses. eauto.
Qed.

Lemma agg_loop_Raise (L : nat) (urls : list str) (st : AggState) (e : exn) :
  agg_loop chk L st urls = Raise e ->
  exists pre u post,
    urls = pre ++ u :: post /\ urlsplit chk u = Raise e /\
    forall v, In v pre -> parses chk v.
Proof.
  revert st; induction urls as [|u urls IH]; intros st H; [discriminate|].
  simpl in H. destruct (agg_url chk L st u) as [st1|e1] eqn:E1; cbn [bind] in H.
  - destruct (IH _ H) as (pre & v & post & -> & Hv & Hpre).
    exists (u :: pre), v, post. repeat split; auto.
    intros w [<- |Hw]; auto.
    unfold agg_url in E1. apply bind_Ok in E1 as (c & Hc & _).
    apply chain_of_parses. eauto.
  - inversion H; subst e1. apply agg_url_Raise in E1.
    exists [], u, urls. repeat split; auto. intros v [].
Qed.

(** *** Representative URLs *)

Lemma fold_count_prefix_example u chain (l : list nat) (st : AggState)
    (n : node) :
  Dict.get n (example_url (fold_left (count_prefix u chain) l st)) =
  match Dict.get n (example_url st) with
  | Some x => Some x
  | None =>
      if existsb (fun i => node_eqb n (firstn (i + 1) chain)) l
      then Some u else None
  end.
Proof.
  revert st; induction l as [|i l IH]; intros st; simpl.
  - destruct (Dict.get n (example_url st)); reflexivity.
  - rewrite IH. unfold count_prefix. cbn [example_url].
    destruct (Dict.contains (firstn (i + 1) chain) (example_url st)) eqn:Ec;
      cbn [negb].
    + destruct (Dict.get n (example_url st)) eqn:Eg; auto.
      destruct (node_eqb n (firstn (i + 1) chain)) eqn:En; auto.
      apply node_eqb_eq in En. subst n.
      apply contains_get in Ec as (v & Hv). congruence.
    + rewrite get_set.
      destruct (node_eqb n (firstn (i + 1) chain)) eqn:En.
      * apply node_eqb_eq in En. subst n.
        apply contains_get_none in Ec. rewrite Ec. reflexivity.
      * reflexivity.
Qed.

Lemma agg_url_example (L : nat) (st st' : AggState) (u : str) (n : node) :
  agg_url chk L st u = Ok st' ->
  Dict.get n (example_url st') =
  match Dict.get n (example_url st) with
  | Some x => Some x
  | None => if counted_at chk L n u then Some u else None
  end.
Proof.
  unfold agg_url, counted_at, leaf_of. intros H.
  apply bind_Ok in H as (chain & Hc & H). rewrite Hc. cbn [bind].
  set (k := Nat.min L (List.length chain)) in *.
  assert (E : example_url st'
              = example_url (fold_left (count_prefix u chain) (seq 0 k) st)).
  { destruct (Dict.contains _ _); inversion H; reflexivity. }
  rewrite E, fold_count_prefix_example.
  rewrite existsb_filter_length, prefixes_counted by (unfold k; lia).
  destruct (covers n (firstn k chain)); reflexivity.
Qed.

Lemma examples_recorded_loop L urls st st' done :
  examples_recorded chk L st done -> agg_loop chk L st urls = Ok st' ->
  examples_recorded chk L st' (done ++ urls).
Proof.
  revert st done; induction urls as [|u urls IH]; intros st done Hinv H.
  - simpl in H. inversion H; subst. rewrite app_nil_r. auto.
  - simpl in H. apply bind_Ok in H as (st1 & H1 & H).
    replace (done ++ u :: urls) with ((done ++ [u]) ++ urls)
      by (rewrite <- app_assoc; reflexivity).
    eapply IH; [|exact H]. intros n.
    rewrite (agg_url_example _ _ _ _ n H1), (Hinv n), find_app. simpl.
    destruct (find (counted_at chk L n) done); auto.
Qed.

Lemma aggregate_examples urls levels st :
  aggregate chk urls levels = Ok st ->
  examples_recorded chk (clamp_levels levels) st urls.
Proof.
  intros H. apply (examples_recorded_loop _ urls agg_init st []); auto.
  intros n. reflexivity.
Qed.

(** *** The nodes that get a count *)

Lemma counted_at_shape (L : nat) (n : node) (u : str) :
  counted_at chk L n u = true ->
  n <> [] /\ List.length n <= L /\ Forall (fun s => s <> []) n /\
  exists c t, chain_of chk u = Ok c /\ c = n ++ t.
Proof.
  unfold counted_at. destruct (leaf_of chk L u) as [leaf|] eqn:El;
    [|discriminate].
  intros H. apply covers_spec in H as (Hn & t & ->).
  apply leaf_of_Ok in El as (c & Hc & El).
  destruct (chain_of_shape _ _ Hc) as (_ & Hall).
  assert (Hle : List.length (n ++ t) <= L).
  { rewrite El, length_firstn. lia. }
  rewrite length_app in Hle.
  assert (Hc' : c = (n ++ t) ++ skipn (Nat.min L (List.length c)) c).
  { rewrite El. symmetry. apply firstn_skipn. }
  repeat split; auto; [lia| |].
  - rewrite Hc' in Hall. rewrite <- app_assoc in Hall.
    apply Forall_app in Hall. tauto.
  - exists c, (t ++ skipn (Nat.min L (List.length c)) c). split; auto.
    rewrite app_assoc. exact Hc'.
Qed.

Lemma counted_at_prefix (L : nat) (n t : node) (u : str) :
  n <> [] -> counted_at chk L (n ++ t) u = true ->
  counted_at chk L n u = true.
Proof.
  unfold counted_at. intros Hn.
  destruct (leaf_of chk L u) as [leaf|]; auto.
  rewrite !covers_spec. intros [_ (t' & ->)]. split; auto.
  exists (t ++ t'). rewrite app_assoc. reflexivity.
Qed.

Lemma aggregate_key_iff urls levels st n :
  aggregate chk urls levels = Ok st ->
  (In n (Dict.keys (counts st)) <->
   exists u, In u urls /\ counted_at chk (clamp_levels levels) n u = true).
Proof.
  intros H. rewrite (counter_wf_In _ n (aggregate_counter_wf chk _ _ _ H)).
  rewrite (aggregate_counts chk _ _ _ H n). apply filter_length_pos.
Qed.

Lemma aggregate_keys_prefix_closed urls levels st n t :
  aggregate chk urls levels = Ok st ->
  n <> [] -> In (n ++ t) (Dict.keys (counts st)) ->
  In n (Dict.keys (counts st)).
Proof.
  intros H Hn Hin.
  apply (aggregate_key_iff _ _ _ _ H) in Hin as (u & Hu & Hc).
  apply (aggregate_key_iff _ _ _ _ H). exists u. split; auto.
  eapply counted_at_prefix; eauto.
Qed.

Lemma nodes_sorted_In (st : AggState) (n : node) :
  In n (nodes_sorted st) <-> In n (Dict.keys (counts st)).
Proof. unfold nodes_sorted. apply sorted_In. Qed.

End AggInvariants.

(** ** The emission loop *)

Lemma id_map_lookup (l : list node) (n : node) :
  In n l -> lookup_id (map (fun n => (n, node_id n)) l) n = Ok (node_id n).
Proof.
  unfold lookup_id. induction l as [|a l IH]; intros H; [destruct H|].
  simpl. destruct (node_eqb n a) eqn:E.
  - apply node_eqb_eq in E. subst a. reflexivity.
  - destruct H as [-> |H]; [rewrite node_eqb_refl in E; discriminate|].
    apply IH; auto.
Qed.

Lemma node_last_split (n : node) :
  n <> [] -> n = removelast n ++ [last n []].
Proof. intros H. apply app_removelast_last; auto. Qed.

Lemma removelast_nonempty (n : node) :
  n <> [] -> List.length n <> 1 -> removelast n <> [].
Proof.
  destruct n as [|a [|b n]]; simpl; intros H1 H2; try congruence.
Qed.

Lemma removelast_length (n : node) :
  n <> [] -> List.length n = S (List.length (removelast n)).
Proof.
  intros H. rewrite (node_last_split n H) at 1.
  rewrite length_app. simpl. lia.
Qed.

Lemma Permutation_filter_length {A} (p : A -> bool) (l l' : list A) :
  Permutation l l' ->
  List.length (filter p l) = List.length (filter p l').
Proof.
  induction 1 as [|x l l' _ IH|x y l|l l' l'' _ IH1 _ IH2]; simpl; auto.
  - destruct (p x); simpl; auto.
  - destruct (p x), (p y); reflexivity.
  - congruence.
Qed.

Section EmitTotal.

Variable chk : str -> option string.

Lemma node_prefix_url_Ok st (n : node) ex pu :
  Dict.get n (example_url st) = Some ex ->
  urlsplit chk ex = Ok pu ->
  n <> [] ->
  node_prefix_url chk st n =
  Ok ((if Py.is_empty ex then lit "https" else scheme pu)
      ++ lit "://" ++ hd [] n ++ lit "/" ++ Py.join "/" (tl n)).
Proof.
  intros Hg Hp Hn. unfold node_prefix_url. rewrite Hg.
  destruct n as [|h t]; [congruence|].
  assert (Epath : (if 1 <? List.length (h :: t)
                   then lit "/" ++ Py.join "/" (tl (h :: t)) else lit "/")
                  = lit "/" ++ Py.join "/" (tl (h :: t))).
  { destruct t; reflexivity. }
  rewrite Epath.
  destruct (Py.is_empty ex); cbn [bind]; [reflexivity|].
  rewrite Hp. cbn [bind]. reflexivity.
Qed.

Lemma emit_total st (l nodes : list node) (acc : Treemap) :
  (forall n, In n nodes ->
     In n l /\ n <> [] /\
     (List.length n <> 1 -> In (removelast n) l) /\
     exists ex, Dict.get n (example_url st) = Some ex /\ parses chk ex) ->
  exists t, emit chk st (map (fun n => (n, node_id n)) l) nodes acc = Ok t.
Proof.
  revert acc; induction nodes as [|n nodes IH]; intros acc H;
    [simpl; eauto|]. cbn [emit].
  destruct (H n (or_introl eq_refl)) as (Hin & Hne & Hpar & ex & Hex & pu & Hpu).
  rewrite (id_map_lookup l n Hin). cbn [bind].
  assert (Ep : exists p,
             (if List.length n =? 1 then Ok (lit "")
              else lookup_id (map (fun n => (n, node_id n)) l) (removelast n))
             = Ok p).
  { destruct (Nat.eqb_spec (List.length n) 1); eauto.
    rewrite id_map_lookup; eauto. }
  destruct Ep as (p & ->). cbn [bind].
  destruct n as [|h t]; [congruence|]. cbn [bind].
  assert (Eh : exists hv, hover_text chk st (h :: t) = Ok hv).
  { unfold hover_text.
    rewrite (node_prefix_url_Ok st (h :: t) ex pu Hex Hpu Hne). cbn [bind].
    destruct (Dict.get (h :: t) (leaf_first_url st)); eauto.
    destruct (negb _); eauto. }
  destruct Eh as (hv & ->). cbn [bind].
  apply IH. intros m Hm. apply H. right; auto.
Qed.

(** The columns the emission loop fills besides [ids], [parents] and
    [values]. *)
Lemma emit_columns st (l nodes : list node) (acc t : Treemap) :
  emit chk st (map (fun n => (n, node_id n)) l) nodes acc = Ok t ->
  labels t =
    labels acc
    ++ map (fun n => if negb (Py.is_empty (last n [])) then last n []
                     else lit "/") nodes /\
  exists hovers,
    customdata t = customdata acc ++ hovers /\
    Forall2 (fun n hv => hover_text chk st n = Ok hv) nodes hovers.
Proof.
  revert acc; induction nodes as [|n nodes IH]; intros acc H; simpl in H.
  - inversion H; subst. simpl. rewrite !app_nil_r. split; auto.
    exists []. rewrite app_nil_r. split; auto.
  - apply bind_Ok in H as (nid & _ & H).
    apply bind_Ok in H as (parent & _ & H).
    apply bind_Ok in H as (label & Hl & H).
    apply bind_Ok in H as (hover & Hh & H).
    apply IH in H as (Hlab & hovers & Hc & Hf). simpl in Hlab, Hc.
    assert (El : label = if negb (Py.is_empty (last n []))
                         then last n [] else lit "/").
    { destruct n; inversion Hl. reflexivity. }
    subst label. split.
    + rewrite Hlab, <- app_assoc. reflexivity.
    + exists (hover :: hovers). split.
      * rewrite Hc, <- app_assoc. reflexivity.
      * constructor; auto.
Qed.

End EmitTotal.

(** ** The rendered rows *)

Lemma combine_map_same {A B C} (f : A -> B) (g : A -> C) (l : list A) :
  combine (map f l) (map g l) = map (fun x => (f x, g x)) l.
Proof. induction l; simpl; congruence. Qed.

Lemma filter_map_comm {A B} (p : B -> bool) (h : A -> B) (l : list A) :
  filter p (map h l) = map h (filter (fun x => p (h x)) l).
Proof.
  induction l as [|x l IH]; simpl; auto.
  destruct (p (h x)); simpl; congruence.
Qed.

Lemma filter_true_length {A} (l : list A) :
  List.length (filter (fun _ => true) l) = List.length l.
Proof. induction l; simpl; auto. Qed.

Lemma parent_id_root (n : node) :
  Py.is_empty (parent_id n) = (List.length n =? 1).
Proof.
  unfold parent_id. destruct (List.length n =? 1); reflexivity.
Qed.

Lemma nth_error_map_inv {A B} (f : A -> B) (l : list A) (i : nat) (y : B) :
  nth_error (map f l) i = Some y ->
  exists x, nth_error l i = Some x /\ y = f x.
Proof.
  rewrite nth_error_map. destruct (nth_error l i) as [x|]; simpl;
    intros H; inversion H. eauto.
Qed.

Section Rendered.

Variable chk : str -> option string.

Lemma aggregate_nodes_strict urls levels st :
  aggregate chk urls levels = Ok st ->
  StronglySorted (fun a b => node_key_compare a b = Lt) (nodes_sorted st).
Proof.
  intros H. unfold nodes_sorted.
  apply (sorted_nodup_lt node_key_compare node_key_compare_eq).
  - apply sorted_sorted.
    + apply node_key_compare_eq.
    + apply node_key_compare_antisym.
    + apply node_key_compare_trans.
  - eapply Permutation_NoDup; [symmetry; apply sorted_perm|].
    apply (aggregate_counter_wf chk _ _ _ H).
Qed.

Lemma aggregate_node_shape urls levels st n :
  aggregate chk urls levels = Ok st -> In n (nodes_sorted st) ->
  n <> [] /\ List.length n <= clamp_levels levels /\
  Forall (fun s => s <> []) n.
Proof.
  intros H Hn. apply nodes_sorted_In in Hn.
  apply (aggregate_key_iff chk _ _ _ _ H) in Hn as (u & _ & Hc).
  apply counted_at_shape in Hc. tauto.
Qed.

Lemma aggregate_parent_listed urls levels st n :
  aggregate chk urls levels = Ok st -> In n (nodes_sorted st) ->
  List.length n <> 1 -> In (removelast n) (nodes_sorted st).
Proof.
  intros H Hn Hl.
  destruct (aggregate_node_shape _ _ _ _ H Hn) as (Hne & _).
  apply nodes_sorted_In. apply nodes_sorted_In in Hn.
  apply (aggregate_keys_prefix_closed chk urls levels st _ [last n []]); auto.
  - apply removelast_nonempty; auto.
  - rewrite <- node_last_split; auto.
Qed.

Lemma aggregate_example_parses urls levels st n :
  aggregate chk urls levels = Ok st -> In n (nodes_sorted st) ->
  exists ex,
    Dict.get n (example_url st) = Some ex /\
    find (counted_at chk (clamp_levels levels) n) urls = Some ex /\
    In ex urls /\ parses chk ex.
Proof.
  intros H Hn. apply nodes_sorted_In in Hn.
  apply (aggregate_key_iff chk _ _ _ _ H) in Hn as (u & Hu & Hc).
  rewrite (aggregate_examples chk _ _ _ H n).
  destruct (find _ urls) as [ex|] eqn:E.
  - exists ex. apply find_some in E as (Hin & Hex). repeat split; auto.
    apply counted_at_shape in Hex as (_ & _ & _ & c & t & Hchain & _).
    apply chain_of_parses. eauto.
  - exfalso. pose proof (find_none _ _ E u Hu) as Hf. congruence.
Qed.

Lemma render_total urls levels st :
  aggregate chk urls levels = Ok st ->
  exists t,
    emit chk st (map (fun n => (n, node_id n)) (nodes_sorted st))
      (nodes_sorted st) (mkTreemap [] [] [] [] []) = Ok t.
Proof.
  intros H. apply emit_total. intros n Hn. split; auto.
  destruct (aggregate_node_shape _ _ _ _ H Hn) as (Hne & _).
  split; auto. split.
  - intros Hl. eapply aggregate_parent_listed; eauto.
  - destruct (aggregate_example_parses _ _ _ _ H Hn) as (ex & Hg & _ & _ & Hp).
    eauto.
Qed.

Lemma render_Ok_inv urls levels t :
  render_treemap_go_from_urls chk urls levels = Ok t ->
  exists st,
    aggregate chk urls levels = Ok st /\
    emit chk st (map (fun n => (n, node_id n)) (nodes_sorted st))
      (nodes_sorted st) (mkTreemap [] [] [] [] []) = Ok t.
Proof.
  unfold render_treemap_go_from_urls. intros H.
  apply bind_Ok in H as (st & Hst & H). eauto.
Qed.

Lemma render_of_aggregate urls levels st :
  aggregate chk urls levels = Ok st ->
  exists t, render_treemap_go_from_urls chk urls levels = Ok t.
Proof.
  intros H. destruct (render_total _ _ _ H) as (t & Ht). exists t.
  unfold render_treemap_go_from_urls. rewrite H. cbn [bind]. exact Ht.
Qed.

Lemma aggregate_perm urls urls' levels st :
  Permutation urls urls' -> aggregate chk urls levels = Ok st ->
  exists st',
    aggregate chk urls' levels = Ok st' /\
    nodes_sorted st' = nodes_sorted st /\
    forall n, count_of n (counts st') = count_of n (counts st).
Proof.
  intros Hp H.
  destruct (agg_loop_total chk (clamp_levels levels) urls' agg_init)
    as (st' & H').
  { intros u Hu. eapply agg_loop_Ok_parses; [exact H|].
    eapply Permutation_in; [symmetry; exact Hp | exact Hu]. }
  exists st'. split; [exact H'|]. split.
  - apply (strictly_sorted_unique node_key_compare node_key_compare_eq
             node_key_compare_trans).
    + eapply aggregate_nodes_strict; exact H'.
    + eapply aggregate_nodes_strict; exact H.
    + intros n. rewrite !nodes_sorted_In.
      rewrite (aggregate_key_iff chk _ _ _ n H'),
              (aggregate_key_iff chk _ _ _ n H).
      split; intros (u & Hu & Hc); exists u; split; auto.
      * eapply Permutation_in; [symmetry; exact Hp | exact Hu].
      * eapply Permutation_in; [exact Hp | exact Hu].
  - intros n. rewrite (aggregate_counts chk _ _ _ H' n),
                      (aggregate_counts chk _ _ _ H n).
    symmetry. apply Permutation_filter_length; auto.
Qed.

Lemma roots_sum urls levels st :
  aggregate chk urls levels = Ok st ->
  list_sum (map (fun n => count_of n (counts st))
                (filter (fun n => List.length n =? 1) (nodes_sorted st)))
  = List.length urls.
Proof.
  intros H. set (L := clamp_levels levels).
  rewrite (map_ext _ (fun n => List.length (filter (counted_at chk L n) urls)))
    by (intros n; apply (aggregate_counts chk _ _ _ H n)).
  rewrite <- (filter_true_length urls).
  apply (sum_over_children _ urls (counted_at chk L) (fun _ => true)
           (child_towards chk L [])).
  - apply NoDup_filter.
    eapply (sorted_lt_NoDup node_key_compare node_key_compare_eq).
    eapply aggregate_nodes_strict; eauto.
  - intros u m Hu Hm Hc. split; auto.
    apply filter_In in Hm as (_ & Hl). apply Nat.eqb_eq in Hl.
    unfold counted_at, child_towards in *.
    destruct (leaf_of chk L u) as [leaf|]; [|discriminate].
    apply covers_spec in Hc as (_ & t & ->).
    destruct m as [|a [|b m]]; simpl in Hl; try discriminate.
    reflexivity.
  - intros u Hu _.
    pose proof (agg_loop_Ok_parses chk _ _ _ _ H u Hu) as Hp.
    apply chain_of_parses in Hp as (c & Hc).
    destruct (chain_of_shape chk _ _ Hc) as (Hne & _).
    destruct c as [|h parts]; [congruence|].
    assert (HL : 2 <= L) by apply clamp_levels_spec.
    assert (El : leaf_of chk L u
                 = Ok (firstn (Nat.min L (List.length (h :: parts)))
                         (h :: parts))).
    { apply leaf_of_Ok. eauto. }
    assert (Ek : exists k, Nat.min L (List.length (h :: parts)) = S k).
    { simpl List.length. exists (Nat.min (L - 1) (List.length parts)). lia. }
    destruct Ek as (k & Ek). rewrite Ek in El. simpl firstn in El.
    assert (Ec : counted_at chk L [h] u = true).
    { unfold counted_at. rewrite El. apply covers_spec. split; [discriminate|].
      exists (firstn k parts). reflexivity. }
    unfold child_towards. rewrite El. simpl.
    split; auto. apply filter_In. split; auto.
    apply nodes_sorted_In. apply (aggregate_key_iff chk _ _ _ _ H). eauto.
Qed.

End Rendered.

(** ** Properties of the rendered treemap *)

Section RenderedLaws.

Variable chk : str -> option string.

(** X4.  [render_treemap_go_from_urls] returns exactly when [urlsplit]
    accepts every URL of the list.  The look-ups [id_map[node]],
    [id_map[node[:-1]]] and [node[-1]] never fail: when the function raises,
    the exception is the [ValueError] that [urlsplit] raises for a URL of the
    list, and every URL before that one parses. *)
Theorem render_returns_iff_urls_parse :
  forall urls levels,
    ((exists t, render_treemap_go_from_urls chk urls levels = Ok t) <->
     (forall u, In u urls -> exists pu, urlsplit chk u = Ok pu)) /\
    (forall e,
       render_treemap_go_from_urls chk urls levels = Raise e ->
       exists pre u post msg,
         urls = pre ++ u :: post /\
         (forall v, In v pre -> exists pu, urlsplit chk v = Ok pu) /\
         urlsplit chk u = Raise (ValueError msg) /\
         e = ValueError msg).
Proof.
  intros urls levels. split; [split|].
  - intros (t & H). apply render_Ok_inv in H as (st & H & _).
    intros u Hu. exact (agg_loop_Ok_parses chk _ _ _ _ H u Hu).
  - intros H.
    destruct (agg_loop_total chk (clamp_levels levels) urls agg_init H)
      as (st & Hst).
    eapply render_of_aggregate; exact Hst.
  - intros e H. unfold render_treemap_go_from_urls in H.
    apply bind_Raise in H as [H|(st & Hst & H)].
    + apply agg_loop_Raise in H as (pre & u & post & -> & Hu & Hpre).
      destruct (urlsplit_total chk u) as [(pu & Hp)|(msg & Hm)];
        [congruence|].
      exists pre, u, post, msg. repeat split; auto. congruence.
    + destruct (render_total chk _ _ _ Hst) as (t & Ht). congruence.
Qed.

(** X5.  In the rows handed to the treemap every parent is listed before
    its children: a row whose parent identifier is not empty finds that
    identifier among the [ids] of the rows above it. *)
Theorem render_parents_listed_first :
  forall urls levels t i p,
    render_treemap_go_from_urls chk urls levels = Ok t ->
    nth_error (parents t) i = Some p ->
    p <> [] ->
    exists j, j < i /\ nth_error (ids t) j = Some p.
Proof.
  intros urls levels t i p H Hp Hne.
  apply render_Ok_inv in H as (st & Hst & H).
  apply emit_spec in H as (Hi & Hpar & _). simpl in Hi, Hpar.
  rewrite Hpar in Hp. apply nth_error_map_inv in Hp as (n & Hn & ->).
  assert (Hin : In n (nodes_sorted st)) by (eapply nth_error_In; eauto).
  destruct (aggregate_node_shape chk _ _ _ _ Hst Hin) as (Hnn & _).
  assert (Hl : List.length n <> 1).
  { intros E. apply Hne. unfold parent_id. rewrite E. reflexivity. }
  destruct (strictly_sorted_index node_key_compare node_key_compare_eq
              node_key_compare_trans (nodes_sorted st) (removelast n) n i)
    as (j & Hj & Hnj); auto.
  - eapply aggregate_nodes_strict; eauto.
  - eapply aggregate_parent_listed; eauto.
  - apply node_key_shorter. rewrite (removelast_length n Hnn). lia.
  - exists j. split; auto. rewrite Hi, nth_error_map, Hnj. simpl.
    unfold parent_id. destruct (Nat.eqb_spec (List.length n) 1); congruence.
Qed.

(** X6.  The order of the URLs does not matter to the boxes of the treemap:
    a permutation of the list yields the same [ids], [labels], [parents] and
    [values].  (Only the hover texts may change, since they quote the first
    URL seen.) *)
Theorem render_permutation_invariant :
  forall urls urls' levels t,
    Permutation urls urls' ->
    render_treemap_go_from_urls chk urls levels = Ok t ->
    exists t',
      render_treemap_go_from_urls chk urls' levels = Ok t' /\
      ids t' = ids t /\ labels t' = labels t /\
      parents t' = parents t /\ values t' = values t.
Proof.
  intros urls urls' levels t Hperm H.
  apply render_Ok_inv in H as (st & Hst & H).
  destruct (aggregate_perm chk _ _ _ _ Hperm Hst) as (st' & Hst' & Hn & Hc).
  destruct (render_total chk _ _ _ Hst') as (t' & Ht').
  exists t'. split.
  { unfold render_treemap_go_from_urls. rewrite Hst'. exact Ht'. }
  pose proof (emit_spec chk _ _ _ _ _ H) as (Hi & Hp & Hv).
  pose proof (emit_spec chk _ _ _ _ _ Ht') as (Hi' & Hp' & Hv').
  pose proof (emit_columns chk _ _ _ _ _ H) as (Hl & _).
  pose proof (emit_columns chk _ _ _ _ _ Ht') as (Hl' & _).
  rewrite Hi, Hi', Hp, Hp', Hv, Hv', Hl, Hl', Hn.
  repeat split; auto.
  simpl. apply map_ext. auto.
Qed.

(** X7.  The values of the top-level rows (those without a parent) add up
    to the number of URLs: every URL is counted at exactly one host. *)
Theorem render_roots_sum_to_url_count :
  forall urls levels t,
    render_treemap_go_from_urls chk urls levels = Ok t ->
    list_sum (root_values t) = List.length urls.
Proof.
  intros urls levels t H.
  apply render_Ok_inv in H as (st & Hst & H).
  apply emit_spec in H as (_ & Hp & Hv). simpl in Hp, Hv.
  unfold root_values. rewrite Hp, Hv, combine_map_same, filter_map_comm.
  rewrite map_map. cbn [fst snd].
  rewrite (filter_ext (fun n => Py.is_empty (parent_id n))
             (fun n => List.length n =? 1))
    by (intros n; apply parent_id_root).
  eapply roots_sum; eauto.
Qed.

(** X8.  The five columns have one entry per node.  A node has at least one
    segment and at most [max(2, levels)], none of them empty, so the label
    of a row is always the last segment of its node: the fallback label
    ["/"] is never used for an empty segment. *)
Theorem render_columns_and_labels :
  forall urls levels t,
    render_treemap_go_from_urls chk urls levels = Ok t ->
    exists nodes,
      ids t = map node_id nodes /\
      labels t = map (fun n => last n []) nodes /\
      parents t = map parent_id nodes /\
      List.length (values t) = List.length nodes /\
      List.length (customdata t) = List.length nodes /\
      Forall (fun n => 1 <= List.length n <= clamp_levels levels /\
                       Forall (fun s => s <> []) n) nodes /\
      Forall (fun l => l <> []) (labels t).
Proof.
  intros urls levels t H.
  apply render_Ok_inv in H as (st & Hst & H).
  pose proof (emit_spec chk _ _ _ _ _ H) as (Hi & Hp & Hv).
  pose proof (emit_columns chk _ _ _ _ _ H) as (Hl & hovers & Hc & Hf).
  simpl in Hi, Hp, Hv, Hc. cbn [labels app] in Hl.
  assert (Hshape : forall n, In n (nodes_sorted st) ->
            1 <= List.length n <= clamp_levels levels /\
            Forall (fun s => s <> []) n /\ last n [] <> []).
  { intros n Hn.
    destruct (aggregate_node_shape chk _ _ _ _ Hst Hn) as (Hne & Hle & Hall).
    split; [|split; auto].
    - destruct n; [congruence|]. simpl. simpl in Hle. lia.
    - rewrite Forall_forall in Hall. apply Hall.
      rewrite (node_last_split n Hne) at 2. apply in_or_app. right.
      left; reflexivity. }
  assert (Hlab : labels t = map (fun n => last n []) (nodes_sorted st)).
  { rewrite Hl. apply map_ext_in. intros n Hn.
    destruct (Hshape n Hn) as (_ & _ & Hlast).
    apply is_empty_false in Hlast. cbv delta [str] in Hlast.
    rewrite Hlast. reflexivity. }
  exists (nodes_sorted st). repeat split; auto.
  - rewrite Hv, length_map. reflexivity.
  - rewrite Hc. symmetry. eapply Forall2_length; eauto.
  - apply Forall_forall. intros n Hn. destruct (Hshape n Hn) as (A & B & _).
    auto.
  - rewrite Hlab. apply Forall_forall. intros l Hin.
    apply in_map_iff in Hin as (n & <- & Hn). apply Hshape; auto.
Qed.

(** X9.  The hover text of a node that is not the leaf of exactly one URL
    reads [N URLs under scheme://host/path], where [N] is the number of URLs
    counted at the node and the scheme is that of the first of them ("https"
    when that URL is the empty string). *)
Theorem hover_of_aggregated_node :
  forall urls levels st n,
    aggregate chk urls levels = Ok st ->
    In n (Dict.keys (counts st)) ->
    List.length (filter (leaf_is chk (clamp_levels levels) n) urls) <> 1 ->
    exists ex pu,
      find (counted_at chk (clamp_levels levels) n) urls = Some ex /\
      urlsplit chk ex = Ok pu /\
      hover_text chk st n =
      Ok (Py.str_of_nat
            (List.length
               (filter (counted_at chk (clamp_levels levels) n) urls))
          ++ lit " URLs under "
          ++ (if Py.is_empty ex then lit "https" else scheme pu)
          ++ lit "://" ++ hd [] n ++ lit "/" ++ Py.join "/" (tl n)).
Proof.
  intros urls levels st n H Hn Hcount.
  set (L := clamp_levels levels) in *.
  apply nodes_sorted_In in Hn.
  destruct (aggregate_example_parses chk _ _ _ _ H Hn)
    as (ex & Hg & Hfind & _ & pu & Hpu).
  destruct (aggregate_node_shape chk _ _ _ _ H Hn) as (Hne & _).
  exists ex, pu. repeat split; auto.
  pose proof (node_prefix_url_Ok chk st n ex pu Hg Hpu Hne) as Hurl.
  pose proof (aggregate_counts chk _ _ _ H n) as Hcnt. fold L in Hcnt.
  rewrite <- Hcnt.
  destruct (aggregate_leaves chk _ _ _ H n) as (Hfirst & Hmulti).
  fold L in Hfirst, Hmulti.
  destruct (le_lt_dec 2 (List.length (filter (leaf_is chk L n) urls)))
    as [Hge|Hlt].
  - rewrite hover_text_multi by (apply Hmulti; auto).
    rewrite Hurl. reflexivity.
  - assert (E0 : filter (leaf_is chk L n) urls = []).
    { destruct (filter (leaf_is chk L n) urls) as [|a [|b l]]; auto;
        simpl in *; try congruence; lia. }
    apply find_none_filter in E0. unfold hover_text.
    rewrite Hfirst, E0, Hurl. reflexivity.
Qed.

(** X10.  What the rows say: there is one row per non-empty prefix (of at
    most [max(2, levels)] segments) of the chain [host, segment, ...] of some
    URL of the list; the rows come in strictly ascending order of (length,
    segments); the value of a row is the number of URLs whose chain starts
    with its node; and its hover text is the one computed for the node. *)
Theorem render_rows_count_urls :
  forall urls levels t,
    render_treemap_go_from_urls chk urls levels = Ok t ->
    exists st,
      aggregate chk urls levels = Ok st /\
      let L := clamp_levels levels in
      let nodes := nodes_sorted st in
      StronglySorted (fun a b => node_key_compare a b = Lt) nodes /\
      (forall n,
         In n nodes <->
         exists u, In u urls /\ counted_at chk L n u = true) /\
      (forall n u,
         counted_at chk L n u = true <->
         n <> [] /\
         exists chain rest,
           chain_of chk u = Ok chain /\
           firstn (Nat.min L (List.length chain)) chain = n ++ rest) /\
      ids t = map node_id nodes /\
      values t =
        map (fun n => List.length (filter (counted_at chk L n) urls)) nodes /\
      Forall2 (fun n hv => hover_text chk st n = Ok hv) nodes (customdata t).
Proof.
  intros urls levels t H.
  apply render_Ok_inv in H as (st & Hst & H). exists st. split; auto.
  pose proof (emit_spec chk _ _ _ _ _ H) as (Hi & _ & Hv).
  pose proof (emit_columns chk _ _ _ _ _ H) as (_ & hovers & Hc & Hf).
  simpl in Hi, Hv, Hc. subst hovers.
  split; [eapply aggregate_nodes_strict; eauto|].
  split; [|split; [|split; [|split]]]; auto.
  - intros n. rewrite nodes_sorted_In.
    apply (aggregate_key_iff chk _ _ _ n Hst).
  - intros n u. unfold counted_at.
    destruct (leaf_of chk (clamp_levels levels) u) as [leaf|e] eqn:El.
    + rewrite covers_spec. apply leaf_of_Ok in El as (c & Hc & ->).
      split.
      * intros (Hn & r & Hr). split; auto. exists c, r. auto.
      * intros (Hn & c' & r & Hc' & Hr). split; auto. exists r.
        rewrite Hc in Hc'. inversion Hc'; subst c'. auto.
    + split; [discriminate|]. intros (_ & c & r & Hc & _). exfalso.
      assert (leaf_of chk (clamp_levels levels) u
              = Ok (firstn (Nat.min (clamp_levels levels) (List.length c)) c))
        by (apply leaf_of_Ok; eauto).
      congruence.
  - rewrite Hv. apply map_ext. intros n.
    apply (aggregate_counts chk _ _ _ Hst n).
Qed.

End RenderedLaws.

(** ** The filter loops as a whole *)

Lemma collect_total (step : str -> result (option str)) (urls : list str) :
  (forall u, In u urls -> exists r, step u = Ok r) ->
  exists out, collect step urls = Ok out.
Proof.
  induction urls as [|u urls IH]; intros H; simpl; eauto.
  destruct (H u (or_introl eq_refl)) as (r & ->). cbn [bind].
  destruct IH as (out & ->); [intros; apply H; right; auto|].
  cbn [bind]. eauto.
Qed.

Lemma collect_Ok_steps (step : str -> result (option str))
    (urls out : list str) :
  collect step urls = Ok out ->
  forall u, In u urls -> exists r, step u = Ok r.
Proof.
  revert out; induction urls as [|u urls IH]; intros out H v Hv;
    [destruct Hv|].
  simpl in H. apply bind_Ok in H as (r & Hr & H).
  apply bind_Ok in H as (out' & Hout & _).
  destruct Hv as [<- |Hv]; eauto.
Qed.

Lemma collect_Raise (step : str -> result (option str)) (urls : list str)
    (e : exn) :
  collect step urls = Raise e ->
  exists pre u post,
    urls = pre ++ u :: post /\ step u = Raise e /\
    forall v, In v pre -> exists r, step v = Ok r.
Proof.
  induction urls as [|u urls IH]; intros H; [discriminate|].
  simpl in H. destruct (step u) as [r|e1] eqn:E1; cbn [bind] in H.
  - destruct (collect step urls) as [out|e2] eqn:E2; cbn [bind] in H;
      [discriminate|].
    inversion H; subst e2.
    destruct (IH eq_refl) as (pre & v & post & -> & Hv & Hpre).
    exists (u :: pre), v, post. repeat split; auto.
    intros w [<- |Hw]; eauto.
  - inversion H; subst e1. exists [], u, urls. repeat split; auto.
    intros v [].
Qed.

Lemma ascending_unique (l1 l2 : list str) :
  ascending l1 -> ascending l2 -> (forall x, In x l1 <-> In x l2) -> l1 = l2.
Proof.
  apply (strictly_sorted_unique Py.str_compare str_compare_eq
           str_compare_trans).
Qed.

Lemma host_in_scope_subdomains (host base : str) :
  host_in_scope host base false = true -> host_in_scope host base true = true.
Proof.
  unfold host_in_scope. destruct (Py.str_eqb host base); simpl; auto.
  discriminate.
Qed.

Lemma app4_assoc {A} (a b c d r : list A) :
  a ++ b ++ c ++ d ++ r = (a ++ b ++ c ++ d) ++ r.
Proof. rewrite <- !app_assoc. reflexivity. Qed.

Lemma query_part_nil : query_part (lit "") = [].
Proof. reflexivity. Qed.

Lemma fragment_part_nil : fragment_part (lit "") = [].
Proof. reflexivity. Qed.

Section FilterSteps.

Variable chk : str -> option string.

Lemma filter_urls_unfold pages_only urls base sub pqf :
  filter_urls chk pages_only urls base sub pqf =
  (out <- collect (filter_step chk pages_only base sub pqf) urls ;;
   Ok (Py.sorted Py.str_leb (Py.set out))).
Proof. destruct pages_only; reflexivity. Qed.

Lemma filter_urls_ascending pages_only urls base sub pqf out :
  filter_urls chk pages_only urls base sub pqf = Ok out -> ascending out.
Proof.
  destruct pages_only; simpl.
  - apply normalize_pages_only_ascending.
  - apply normalize_internal_all_ascending.
Qed.

Lemma filter_urls_In pages_only urls base sub pqf out :
  filter_urls chk pages_only urls base sub pqf = Ok out ->
  forall v, In v out <->
    exists u, In u urls /\
              filter_step chk pages_only base sub pqf u = Ok (Some v).
Proof.
  destruct pages_only; simpl.
  - apply normalize_pages_only_In.
  - apply normalize_internal_all_In.
Qed.

(** What one iteration does with a URL, by cases on how it parses. *)
Lemma filter_step_cases pages_only base sub pqf u :
  (Py.strip u = [] /\
   filter_step chk pages_only base sub pqf u = Ok None) \/
  (Py.strip u <> [] /\
   exists e, urlsplit chk (Py.strip u) = Raise e /\
             filter_step chk pages_only base sub pqf u = Raise e) \/
  (Py.strip u <> [] /\
   exists pu,
     urlsplit chk (Py.strip u) = Ok pu /\
     filter_step chk pages_only base sub pqf u =
     if http_scheme (scheme pu)
        && host_in_scope (Py.lower (netloc pu)) base sub
        && (negb pages_only || page_like (_normalize_path (path pu)))
     then Ok (Some (urlunsplit (scheme pu, Py.lower (netloc pu),
                                _normalize_path (path pu),
                                (if pqf then query pu else lit ""),
                                (if pqf then fragment pu else lit ""))))
     else Ok None).
Proof.
  destruct (Py.strip u) as [|c s] eqn:Es.
  - left. split; auto.
    destruct pages_only; unfold filter_step, pages_only_step,
      internal_all_step; rewrite Es; reflexivity.
  - right. destruct (urlsplit chk (Py.strip u)) as [pu|e] eqn:Ep.
    + right. split; [rewrite <- Es; rewrite Es; discriminate|].
      exists pu. rewrite <- Es. split; auto.
      assert (Hne : Py.strip u <> []) by (rewrite Es; discriminate).
      destruct pages_only; unfold filter_step.
      * rewrite (pages_step_parsed chk base sub pqf u pu Ep Hne).
        cbn [negb orb]. reflexivity.
      * rewrite (internal_step_parsed chk base sub pqf u pu Ep Hne).
        cbn [negb orb]. rewrite andb_true_r. reflexivity.
    + left. split; [discriminate|]. exists e. rewrite <- Es. split; auto.
      rewrite Es in Ep.
      destruct pages_only; unfold filter_step, pages_only_step,
        internal_all_step; rewrite Es; cbn [Py.is_empty];
        unfold urlsplit in Ep |- *; rewrite Ep; reflexivity.
Qed.

Lemma filter_step_Ok_iff pages_only base sub pqf u :
  (exists r, filter_step chk pages_only base sub pqf u = Ok r) <->
  (Py.strip u = [] \/ exists pu, urlsplit chk (Py.strip u) = Ok pu).
Proof.
  destruct (filter_step_cases pages_only base sub pqf u)
    as [(Hs & H)|[(Hs & e & He & H)|(Hs & pu & Hp & H)]]; rewrite H.
  - split; eauto.
  - split.
    + intros (r & Hr). discriminate.
    + intros [E|(pu & Hp)]; congruence.
  - split; [eauto|]. intros _. destruct (_ && _); eauto.
Qed.

Lemma filter_step_Raise pages_only base sub pqf u e :
  filter_step chk pages_only base sub pqf u = Raise e ->
  Py.strip u <> [] /\ urlsplit chk (Py.strip u) = Raise e.
Proof.
  destruct (filter_step_cases pages_only base sub pqf u)
    as [(Hs & H)|[(Hs & e' & He & H)|(Hs & pu & Hp & H)]]; rewrite H.
  - discriminate.
  - intros E. inversion E; subst. auto.
  - destruct (_ && _); discriminate.
Qed.

Lemma filter_step_shape pages_only base sub pqf u v :
  filter_step chk pages_only base sub pqf u = Ok (Some v) ->
  exists pu,
    urlsplit chk (Py.strip u) = Ok pu /\
    http_scheme (scheme pu) = true /\
    host_in_scope (Py.lower (netloc pu)) base sub = true /\
    (pages_only = true -> page_like (_normalize_path (path pu)) = true) /\
    v = scheme pu ++ lit "://" ++ Py.lower (netloc pu)
        ++ lead_slash (_normalize_path (path pu))
        ++ query_part (if pqf then query pu else lit "")
        ++ fragment_part (if pqf then fragment pu else lit "").
Proof.
  destruct (filter_step_cases pages_only base sub pqf u)
    as [(Hs & H)|[(Hs & e' & He & H)|(Hs & pu & Hp & H)]]; rewrite H;
    try discriminate.
  destruct (http_scheme (scheme pu)) eqn:E1; [|discriminate].
  destruct (host_in_scope _ base sub) eqn:E2; [|discriminate].
  destruct (negb pages_only || _) eqn:E3; [|discriminate].
  cbn [andb]. intros E. inversion E; subst v. exists pu.
  repeat split; auto.
  - intros ->. exact E3.
  - apply urlunsplit_http; auto.
    apply no_dslash_startswith, sub_slashes_fix_iff.
    apply (normalize_path_normal (path pu)).
Qed.

End FilterSteps.

(** ** Properties of the two URL filters *)

(** X16.  [_normalize_path] produces a normal form and is idempotent: the
    result is never empty, has no two adjacent slashes, ends in a slash only
    when it is ["/"] itself, holds no character the path did not have (but
    for a slash), and is left unchanged by a second pass. *)
Theorem normalize_path_idempotent :
  forall p,
    _normalize_path p <> [] /\
    no_dslash (_normalize_path p) /\
    (_normalize_path p = lit "/" \/
     Py.endswith "/" (_normalize_path p) = false) /\
    (forall c, In c (_normalize_path p) -> In c p \/ c = "/"%char) /\
    _normalize_path (_normalize_path p) = _normalize_path p.
Proof.
  intros p. pose proof (normalize_path_normal p) as Hn.
  pose proof Hn as (Hne & Hfix & Hend).
  repeat split; auto.
  - apply sub_slashes_fix_iff; auto.
  - intros c. apply normalize_path_In.
  - apply normalize_path_fix; auto.
Qed.

Section FilterLaws.

Variable chk : str -> option string.

(** X11.  The shape of what the filters return: every URL of the output is
    [scheme://host/path] followed by an optional [?query] and [#fragment],
    with scheme http or https, a lower-case host in scope of the base host
    and a rooted path in normal form.  Without [preserve_qf] the query and
    fragment are dropped, so the URL holds neither [?] nor [#]. *)
Theorem filter_output_shape :
  forall pages_only urls base sub pqf out v,
    filter_urls chk pages_only urls base sub pqf = Ok out ->
    In v out ->
    exists sch host p q f,
      v = sch ++ lit "://" ++ host ++ p ++ query_part q ++ fragment_part f /\
      (sch = lit "http" \/ sch = lit "https") /\
      Py.lower host = host /\
      host_in_scope host base sub = true /\
      (exists t, p = "/"%char :: t) /\
      _normalize_path p = p /\
      (pqf = false ->
       v = sch ++ lit "://" ++ host ++ p /\
       ~ In "?"%char v /\ ~ In "#"%char v).
Proof.
  intros pages_only urls base sub pqf out v H Hv.
  apply (filter_urls_In chk _ _ _ _ _ _ H) in Hv as (u & _ & Hu).
  apply filter_step_shape in Hu as (pu & Hp & Hs & Hh & _ & Hshape).
  pose proof (urlsplit_wf _ _ _ Hp) as Hwf.
  pose proof (normalize_path_normal (path pu)) as Hnorm.
  destruct (lead_slash_normal _ Hnorm) as (Hnp & t & Ht).
  exists (scheme pu), (Py.lower (netloc pu)),
         (lead_slash (_normalize_path (path pu))),
         (if pqf then query pu else lit ""),
         (if pqf then fragment pu else lit "").
  split; [exact Hshape|].
  split; [apply http_scheme_cases; auto|].
  split; [apply lower_idem|].
  split; [exact Hh|].
  split; [eauto|].
  split; [apply normalize_path_fix; auto|].
  intros ->. rewrite query_part_nil, fragment_part_nil, !app_nil_r in Hshape.
  split; [exact Hshape|].
  assert (Hplain : forall c, In c v -> netloc_delim c = true ->
                             c = "/"%char).
  { intros c Hc Hd. rewrite Hshape in Hc.
    apply in_app_or in Hc as [Hc|Hc].
    { destruct (http_scheme_cases _ Hs) as [E|E]; rewrite E in Hc;
        simpl in Hc;
        repeat (destruct Hc as [<- |Hc]; [discriminate Hd|]); destruct Hc. }
    apply in_app_or in Hc as [Hc|Hc].
    { destruct Hc as [<- |[<- |[<- |[]]]]; auto; discriminate. }
    apply in_app_or in Hc as [Hc|Hc].
    { apply in_map_iff in Hc as (d & <- & Hd').
      rewrite netloc_delim_lower in Hd.
      pose proof (wf_netloc _ _ Hwf) as Hnl. rewrite Forall_forall in Hnl.
      rewrite (Hnl d Hd') in Hd. discriminate. }
    apply lead_slash_In in Hc as [Hc|Hc]; auto.
    apply normalize_path_In in Hc as [Hc|Hc]; auto.
    destruct (Ascii.eqb_spec c "/"); auto.
    destruct (Ascii.eqb_spec c "?");
      [subst; exfalso; apply (wf_path_q _ _ Hwf); auto|].
    destruct (Ascii.eqb_spec c "#");
      [subst; exfalso; apply (wf_path_f _ _ Hwf); auto|].
    unfold netloc_delim, Py.mem in Hd. simpl in Hd.
    apply orb_true_iff in Hd as [Hd|Hd];
      [apply Ascii.eqb_eq in Hd; congruence|].
    apply orb_true_iff in Hd as [Hd|Hd];
      [apply Ascii.eqb_eq in Hd; congruence|].
    apply orb_true_iff in Hd as [Hd|Hd];
      [apply Ascii.eqb_eq in Hd; congruence | discriminate]. }
  split; intros Hin; specialize (Hplain _ Hin eq_refl); discriminate.
Qed.

(** X12.  The filters depend only on which URLs the input holds, not on
    their order or on repetitions: two lists with the same members give the
    same output. *)
Theorem filter_same_members_same_output :
  forall pages_only urls urls' base sub pqf out,
    (forall u, In u urls <-> In u urls') ->
    filter_urls chk pages_only urls base sub pqf = Ok out ->
    filter_urls chk pages_only urls' base sub pqf = Ok out.
Proof.
  intros pages_only urls urls' base sub pqf out Hsame H.
  pose proof H as H0. rewrite filter_urls_unfold in H0.
  apply bind_Ok in H0 as (l & Hl & _).
  destruct (collect_total (filter_step chk pages_only base sub pqf) urls')
    as (l' & Hl').
  { intros u Hu. apply (collect_Ok_steps _ _ _ Hl). apply Hsame; auto. }
  assert (H' : filter_urls chk pages_only urls' base sub pqf
               = Ok (Py.sorted Py.str_leb (Py.set l'))).
  { rewrite filter_urls_unfold, Hl'. reflexivity. }
  rewrite H'. f_equal. apply ascending_unique.
  - eapply filter_urls_ascending; eauto.
  - eapply filter_urls_ascending; eauto.
  - intros v.
    rewrite (filter_urls_In chk _ _ _ _ _ _ H' v),
            (filter_urls_In chk _ _ _ _ _ _ H v).
    split; intros (u & Hu & Hs); exists u; split; auto; apply Hsame; auto.
Qed.

(** X13.  Including subdomains only ever adds URLs: what a filter returns
    with [include_subdomains] off is contained in what it returns, from the
    same input, with the option on. *)
Theorem filter_subdomains_monotone :
  forall pages_only urls base pqf out,
    filter_urls chk pages_only urls base false pqf = Ok out ->
    exists out',
      filter_urls chk pages_only urls base true pqf = Ok out' /\
      forall v, In v out -> In v out'.
Proof.
  intros pages_only urls base pqf out H.
  pose proof H as H0. rewrite filter_urls_unfold in H0.
  apply bind_Ok in H0 as (l & Hl & _).
  destruct (collect_total (filter_step chk pages_only base true pqf) urls)
    as (l' & Hl').
  { intros u Hu. apply filter_step_Ok_iff.
    apply (filter_step_Ok_iff chk pages_only base false pqf).
    apply (collect_Ok_steps _ _ _ Hl); auto. }
  assert (H' : filter_urls chk pages_only urls base true pqf
               = Ok (Py.sorted Py.str_leb (Py.set l'))).
  { rewrite filter_urls_unfold, Hl'. reflexivity. }
  eexists. split; [exact H'|]. intros v Hv.
  apply (filter_urls_In chk _ _ _ _ _ _ H') .
  apply (filter_urls_In chk _ _ _ _ _ _ H) in Hv as (u & Hu & Hs).
  exists u. split; auto.
  destruct (filter_step_cases chk pages_only base false pqf u)
    as [(Hs0 & E)|[(Hs0 & e' & He & E)|(Hs0 & pu & Hp & E)]];
    rewrite E in Hs; try discriminate.
  destruct (filter_step_cases chk pages_only base true pqf u)
    as [(Hs1 & E')|[(Hs1 & e' & He & E')|(Hs1 & pu' & Hp' & E')]];
    try congruence.
  rewrite E'. assert (pu' = pu) by congruence. subst pu'.
  destruct (http_scheme (scheme pu)); [|discriminate].
  destruct (host_in_scope _ base false) eqn:Eh; [|discriminate].
  rewrite (host_in_scope_subdomains _ _ Eh). exact Hs.
Qed.

(** X14.  A filter returns exactly when [urlsplit] accepts every entry that
    is not blank; one link [urlsplit] rejects makes the whole call raise the
    [ValueError] of the first such link, whatever the host, the extension or
    the options are. *)
Theorem filter_raises_iff_unparsable :
  forall pages_only urls base sub pqf,
    ((exists out, filter_urls chk pages_only urls base sub pqf = Ok out) <->
     (forall u, In u urls ->
        Py.strip u = [] \/ exists pu, urlsplit chk (Py.strip u) = Ok pu)) /\
    (forall e,
       filter_urls chk pages_only urls base sub pqf = Raise e ->
       exists pre u post msg,
         urls = pre ++ u :: post /\
         (forall v, In v pre ->
            Py.strip v = [] \/ exists pu, urlsplit chk (Py.strip v) = Ok pu) /\
         Py.strip u <> [] /\
         urlsplit chk (Py.strip u) = Raise (ValueError msg) /\
         e = ValueError msg).
Proof.
  intros pages_only urls base sub pqf. rewrite filter_urls_unfold.
  split; [split|].
  - intros (out & H). apply bind_Ok in H as (l & Hl & _).
    intros u Hu. apply (filter_step_Ok_iff chk pages_only base sub pqf).
    apply (collect_Ok_steps _ _ _ Hl); auto.
  - intros H.
    destruct (collect_total (filter_step chk pages_only base sub pqf) urls)
      as (l & Hl).
    { intros u Hu. apply filter_step_Ok_iff; auto. }
    rewrite Hl. cbn [bind]. eauto.
  - intros e H. apply bind_Raise in H as [H|(l & _ & H)]; [|discriminate].
    apply collect_Raise in H as (pre & u & post & -> & Hu & Hpre).
    apply filter_step_Raise in Hu as (Hne & Hu).
    destruct (urlsplit_total chk (Py.strip u)) as [(pu & Hp)|(msg & Hm)];
      [congruence|].
    exists pre, u, post, msg. repeat split; auto; [|congruence].
    intros v Hv. apply (filter_step_Ok_iff chk pages_only base sub pqf).
    auto.
Qed.

(** X15.  [preserve_qf] only decides whether query and fragment are kept:
    from the same input, the URLs returned without the option are exactly
    the URLs returned with it, cut before their query and fragment. *)
Theorem filter_preserve_qf_relation :
  forall pages_only urls base sub kept,
    filter_urls chk pages_only urls base sub true = Ok kept ->
    exists cut,
      filter_urls chk pages_only urls base sub false = Ok cut /\
      (forall w, In w kept ->
         exists v q f,
           In v cut /\ w = v ++ query_part q ++ fragment_part f) /\
      (forall v, In v cut ->
         exists w q f,
           In w kept /\ w = v ++ query_part q ++ fragment_part f).
Proof.
  intros pages_only urls base sub kept H.
  pose proof H as H0. rewrite filter_urls_unfold in H0.
  apply bind_Ok in H0 as (l & Hl & _).
  destruct (collect_total (filter_step chk pages_only base sub false) urls)
    as (l' & Hl').
  { intros u Hu. apply filter_step_Ok_iff.
    apply (filter_step_Ok_iff chk pages_only base sub true).
    apply (collect_Ok_steps _ _ _ Hl); auto. }
  assert (H' : filter_urls chk pages_only urls base sub false
               = Ok (Py.sorted Py.str_leb (Py.set l'))).
  { rewrite filter_urls_unfold, Hl'. reflexivity. }
  assert (Hstep : forall u,
            (forall w, filter_step chk pages_only base sub true u
                       = Ok (Some w) ->
               exists v q f,
                 filter_step chk pages_only base sub false u = Ok (Some v) /\
                 w = v ++ query_part q ++ fragment_part f) /\
            (forall v, filter_step chk pages_only base sub false u
                       = Ok (Some v) ->
               exists w q f,
                 filter_step chk pages_only base sub true u = Ok (Some w) /\
                 w = v ++ query_part q ++ fragment_part f)).
  { intros u.
    destruct (filter_step_cases chk pages_only base sub true u)
      as [(Hs1 & E)|[(Hs1 & e' & He & E)|(Hs1 & pu & Hp & E)]];
      destruct (filter_step_cases chk pages_only base sub false u)
      as [(Hs2 & E')|[(Hs2 & e2 & He2 & E')|(Hs2 & pu' & Hp' & E')]];
      rewrite E, E'; try congruence;
      try (split; intros ? ?; discriminate).
    assert (pu' = pu) by congruence. subst pu'.
    destruct (http_scheme (scheme pu)) eqn:Es;
      [|split; intros ? ?; discriminate].
    destruct (_ && _); [|split; intros ? ?; discriminate].
    assert (Hd : Py.startswith "//" (_normalize_path (path pu)) = false).
    { apply no_dslash_startswith, sub_slashes_fix_iff.
      apply (normalize_path_normal (path pu)). }
    rewrite !(urlunsplit_http _ _ _ _ _ Es Hd).
    rewrite query_part_nil, fragment_part_nil, !app_nil_r.
    split; intros x Hx; injection Hx as <-.
    - exists (scheme pu ++ lit "://" ++ Py.lower (netloc pu)
              ++ lead_slash (_normalize_path (path pu))),
             (query pu), (fragment pu).
      split; [reflexivity|].
      exact (app4_assoc (scheme pu) (lit "://") _ _ _).
    - eexists. exists (query pu), (fragment pu).
      split; [reflexivity|].
      exact (app4_assoc (scheme pu) (lit "://") _ _ _). }
  eexists. split; [exact H'|]. split.
  - intros w Hw.
    apply (filter_urls_In chk _ _ _ _ _ _ H) in Hw as (u & Hu & Hs).
    destruct (proj1 (Hstep u) w Hs) as (v & q & f & Hv & Hw).
    exists v, q, f. split; auto.
    apply (filter_urls_In chk _ _ _ _ _ _ H'). eauto.
  - intros v Hv.
    apply (filter_urls_In chk _ _ _ _ _ _ H') in Hv as (u & Hu & Hs).
    destruct (proj2 (Hstep u) v Hs) as (w & q & f & Hw & Hv).
    exists w, q, f. split; auto.
    apply (filter_urls_In chk _ _ _ _ _ _ H). eauto.
Qed.

End FilterLaws.

(** ** Re-parsing a URL with any scheme *)

Lemma scheme_chars_tail (c : ascii) :
  Py.mem c scheme_chars = true -> Re.scheme_tail_char c = true.
Proof. all_chars_in c. Qed.

Lemma alpha_lower (c : ascii) :
  Py.isascii_alpha c = true -> Py.isascii_alpha (Py.lower_char c) = true.
Proof. all_chars_in c. Qed.

Lemma scheme_chars_lower (c : ascii) :
  Py.mem c scheme_chars = true -> Py.mem (Py.lower_char c) scheme_chars = true.
Proof. all_chars_in c. Qed.

Lemma valid_scheme_spec (s : str) :
  valid_scheme s = true <->
  exists c0 pre,
    s = c0 :: pre /\ Py.isascii_alpha c0 = true /\
    Forall (fun c => Py.mem c scheme_chars = true) s.
Proof.
  unfold valid_scheme. destruct s as [|c0 pre].
  - split; [discriminate | intros (? & ? & E & _); discriminate].
  - rewrite andb_true_iff, forallb_forall. split.
    + intros [Ha Hf]. exists c0, pre. rewrite Forall_forall. auto.
    + intros (c & p & E & Ha & Hf). rewrite Forall_forall in Hf.
      inversion E; subst. auto.
Qed.

Lemma valid_scheme_lower (s : str) :
  valid_scheme s = true -> valid_scheme (Py.lower s) = true.
Proof.
  rewrite !valid_scheme_spec. intros (c0 & pre & -> & Ha & Hf).
  exists (Py.lower_char c0), (Py.lower pre). split; [reflexivity|].
  split; [apply alpha_lower; auto|].
  unfold Py.lower. apply Forall_map.
  eapply Forall_impl; [|exact Hf]. apply scheme_chars_lower.
Qed.

Lemma match_scheme_prefix_valid (sch x : str) :
  valid_scheme sch = true ->
  Re.match_scheme_prefix (sch ++ lit "://" ++ x) = true.
Proof.
  rewrite valid_scheme_spec. intros (c0 & pre & -> & Ha & Hf).
  inversion Hf as [|? ? _ Hpre]; subst.
  cbv beta iota delta [Re.match_scheme_prefix].
  change ((c0 :: pre) ++ lit "://" ++ x) with (c0 :: pre ++ lit "://" ++ x).
  cbv beta iota. rewrite Ha. cbn [andb].
  destruct (take_while_app Re.scheme_tail_char pre (lit "://" ++ x))
    as (_ & ->).
  - eapply Forall_impl; [|exact Hpre]. apply scheme_chars_tail.
  - reflexivity.
  - apply startswith_app.
Qed.

Section ReparseAnyScheme.

Variable chk : str -> option string.

Lemma urlsplit_scheme_valid (url : str) (pu : SplitResult) :
  urlsplit chk url = Ok pu -> scheme pu <> [] ->
  valid_scheme (scheme pu) = true /\ Py.lower (scheme pu) = scheme pu.
Proof.
  intros H Hne. apply urlsplit_Ok_inv in H as (r & _ & _ & Hs & _).
  unfold split_scheme in Hs.
  destruct (Py.partition ":" (prepare url)) as [[[|c0 pre] post]|];
    try (inversion Hs; congruence).
  destruct (Py.isascii_alpha c0
            && forallb (fun c => Py.mem c scheme_chars) (c0 :: pre)) eqn:E;
    [|inversion Hs; congruence].
  injection Hs as E1 E2. rewrite <- E1. split.
  - apply (valid_scheme_lower (c0 :: pre)). exact E.
  - apply (lower_idem (c0 :: pre)).
Qed.

Lemma urlsplit_compose_scheme (sch n p q f : str) :
  valid_scheme sch = true ->
  Forall (fun c => safe_char c = true) (n ++ p ++ q ++ f) ->
  Forall (fun c => netloc_delim c = false) n ->
  bracket_mismatch n = false ->
  (Py.mem "[" n && Py.mem "]" n = true -> chk n = None) ->
  (exists t, p = "/"%char :: t) ->
  ~ In "?"%char p -> ~ In "#"%char p -> ~ In "#"%char q ->
  urlsplit chk
    (sch ++ lit "://" ++ n ++ p ++ query_part q ++ fragment_part f)
  = Ok (mkSplit (Py.lower sch) n p q f).
Proof.
  intros Hs Hsafe Hn Hb Hc (t & Hp) Hpq Hpf Hqf.
  pose proof Hs as Hv. apply valid_scheme_spec in Hv as (c0 & pre & E & Ha & Hf).
  apply Forall_app in Hsafe as [Hsn Hsafe].
  apply Forall_app in Hsafe as [Hsp Hsafe].
  apply Forall_app in Hsafe as [Hsq Hsf].
  set (rest := p ++ query_part q ++ fragment_part f).
  assert (Hrest : Forall (fun c => safe_char c = true) (n ++ rest)).
  { repeat apply safe_chars_app;
      auto using query_part_safe, fragment_part_safe. }
  assert (Hschsafe : Forall (fun c => safe_char c = true) sch).
  { eapply Forall_impl; [|exact Hf].
    intros c Hcs. apply scheme_tail_safe, scheme_chars_tail; auto. }
  assert (Hprep : prepare (sch ++ lit "://" ++ n ++ rest)
                  = sch ++ lit "://" ++ n ++ rest).
  { unfold prepare.
    assert (El : Py.lstrip_by c0_control_or_space
                   (sch ++ lit "://" ++ n ++ rest)
                 = sch ++ lit "://" ++ n ++ rest).
    { unfold Py.lstrip_by. apply drop_while_none. rewrite E. simpl.
      apply alpha_not_c0; auto. }
    rewrite El. apply filter_all. fold safe_char.
    apply safe_chars_app; auto.
    apply (safe_chars_app (lit "://")); [repeat constructor | auto]. }
  assert (Hsch : split_scheme (sch ++ lit "://" ++ n ++ rest)
                 = (Py.lower sch, "/"%char :: "/"%char :: n ++ rest)).
  { unfold split_scheme.
    assert (Epart : Py.partition ":" (sch ++ lit "://" ++ n ++ rest)
                    = Some (sch, "/"%char :: "/"%char :: n ++ rest)).
    { apply (proj2 (partition_Some _ _ _ _)). split; [reflexivity|].
      intros Hin. rewrite Forall_forall in Hf.
      apply (scheme_tail_not_colon ":"); [|reflexivity].
      apply scheme_chars_tail; auto. }
    rewrite Epart. rewrite E. rewrite E in Hs. unfold valid_scheme in Hs.
    rewrite Hs. reflexivity. }
  rewrite urlsplit_unfold, Hprep, Hsch.
  rewrite split_authority_compose; auto.
  2:{ unfold rest. rewrite Hp. reflexivity. }
  cbn [bind]. unfold rest.
  rewrite (app_assoc p), split_fragment_compose.
  2:{ intros Hin. apply in_app_or in Hin as [Hin|Hin]; [exact (Hpf Hin)|].
      apply (query_part_In chk) in Hin as [Hin|Hin];
        [discriminate | exact (Hqf Hin)]. }
  rewrite split_query_compose; auto.
Qed.

Hypothesis chk_lower : forall n, chk n = None -> chk (Py.lower n) = None.

(** What [normalize_input_url] returns parses back into its parts. *)
Lemma normalize_input_url_reparse (raw r : str) :
  normalize_input_url chk raw = Ok r ->
  exists pu,
    urlsplit chk (with_scheme (Py.strip raw)) = Ok pu /\
    netloc pu <> [] /\
    r = scheme pu ++ lit "://" ++ Py.lower (netloc pu)
        ++ _normalize_path (path pu) /\
    Re.match_scheme_prefix r = true /\
    urlsplit chk r =
    Ok (mkSplit (scheme pu) (Py.lower (netloc pu))
                (_normalize_path (path pu)) (lit "") (lit "")).
Proof.
  intros H. apply normalize_input_url_Ok in H as (Hne & pu & Hpu & Hn & Hr).
  exists pu. split; auto. split; auto.
  destruct (input_scheme_nonempty chk _ _ Hpu) as [Hs _].
  destruct (urlsplit_scheme_valid _ _ Hpu Hs) as (Hv & Hlow).
  pose proof (urlsplit_wf _ _ _ Hpu) as Hwf.
  destruct (normalize_path_rooted (path pu) (wf_rooted _ _ Hwf Hn)) as (t & Ht).
  rewrite Hlow in Hr.
  assert (Hshape : r = scheme pu ++ lit "://" ++ Py.lower (netloc pu)
                       ++ _normalize_path (path pu)).
  { rewrite Hr. apply urlunsplit_bare; eauto.
    destruct (netloc pu); [congruence | discriminate]. }
  split; [exact Hshape|].
  split; [rewrite Hshape; apply match_scheme_prefix_valid; auto|].
  destruct Hwf as [Hsafe Hnl Hpq Hpf Hqf Hbr Hck Hroot].
  apply Forall_app in Hsafe as [Hsn Hsafe].
  apply Forall_app in Hsafe as [Hsp Hsafe].
  rewrite Hshape.
  replace (scheme pu ++ lit "://" ++ Py.lower (netloc pu)
           ++ _normalize_path (path pu))
    with (scheme pu ++ lit "://" ++ Py.lower (netloc pu)
          ++ _normalize_path (path pu)
          ++ query_part (lit "") ++ fragment_part (lit ""))
    by (rewrite query_part_nil, fragment_part_nil, !app_nil_r; reflexivity).
  rewrite urlsplit_compose_scheme; [rewrite Hlow; reflexivity | exact Hv | ..].
  - apply Forall_app. split; [|apply Forall_app; split].
    + unfold Py.lower. apply Forall_map.
      eapply Forall_impl; [|exact Hsn]. intros c Hcs.
      rewrite safe_char_lower; auto.
    + apply Forall_forall. intros c Hin.
      apply normalize_path_In in Hin as [Hin| ->]; [|reflexivity].
      rewrite Forall_forall in Hsp; auto.
    + constructor.
  - unfold Py.lower. apply Forall_map.
    eapply Forall_impl; [|exact Hnl]. intros c Hcs.
    rewrite netloc_delim_lower; auto.
  - rewrite bracket_mismatch_lower; auto.
  - rewrite (mem_lower "[" (netloc pu)), (mem_lower "]" (netloc pu))
      by reflexivity.
    intros Hm. apply chk_lower; auto.
  - eauto.
  - intros Hin. apply normalize_path_In in Hin as [Hin|Hin];
      [auto | discriminate].
  - intros Hin. apply normalize_path_In in Hin as [Hin|Hin];
      [auto | discriminate].
  - intros [].
Qed.

End ReparseAnyScheme.

Section InputUrlLaws.

Variable chk : str -> option string.

Hypothesis chk_lower : forall n, chk n = None -> chk (Py.lower n) = None.

(** X17.  [normalize_input_url] is idempotent on what it returns, for every
    scheme, provided the result has no trailing white space (which a second
    pass would strip). *)
Theorem normalize_input_url_idempotent :
  forall raw r,
    normalize_input_url chk raw = Ok r ->
    Py.strip r = r ->
    normalize_input_url chk r = Ok r.
Proof.
  intros raw r H Hstrip.
  destruct (normalize_input_url_reparse chk chk_lower _ _ H)
    as (pu & Hpu & Hn & Hshape & Hm & Hre).
  pose proof (normalize_input_url_Ok chk raw r) as [Hinv _].
  destruct (Hinv H) as (_ & pu' & Hpu' & _ & Hr).
  assert (pu' = pu) by congruence. subst pu'.
  destruct (input_scheme_nonempty chk _ _ Hpu) as [Hs _].
  destruct (urlsplit_scheme_valid chk _ _ Hpu Hs) as (_ & Hlow).
  apply normalize_input_url_Ok. rewrite Hstrip. split.
  - rewrite Hshape. destruct (scheme pu); [congruence | discriminate].
  - exists (mkSplit (scheme pu) (Py.lower (netloc pu))
                    (_normalize_path (path pu)) (lit "") (lit "")).
    unfold with_scheme. rewrite Hm. cbn [negb]. split; [exact Hre|].
    cbn [scheme netloc path]. split.
    + destruct (netloc pu); [congruence | discriminate].
    + rewrite lower_idem, normalize_path_fix
        by apply normalize_path_normal.
      exact Hr.
Qed.

(** X18.  The host a run filters by, obtained by parsing the normalised
    base URL again, is the lower-cased authority of the URL the user
    entered: the second [urlsplit] never fails and finds the parts the URL
    was built from.  The host is never empty. *)
Theorem run_host_is_lowered_authority :
  forall raw r,
    normalize_input_url chk raw = Ok r ->
    exists pu,
      urlsplit chk (with_scheme (Py.strip raw)) = Ok pu /\
      urlsplit chk r =
        Ok (mkSplit (scheme pu) (Py.lower (netloc pu))
                    (_normalize_path (path pu)) (lit "") (lit "")) /\
      run_host chk raw = Ok (Py.lower (netloc pu)) /\
      Py.lower (netloc pu) <> [].
Proof.
  intros raw r H.
  destruct (normalize_input_url_reparse chk chk_lower _ _ H)
    as (pu & Hpu & Hn & Hshape & Hm & Hre).
  exists pu. repeat split; auto.
  - unfold run_host. rewrite H. cbn [bind].
    rewrite Hre. cbn [bind netloc].
    rewrite lower_idem. reflexivity.
  - destruct (netloc pu); [congruence | discriminate].
Qed.

End InputUrlLaws.

(** ** Substrings and path segments *)

Lemma contains_spec (sub s : str) :
  Py.contains sub s = true <-> exists a b, s = a ++ sub ++ b.
Proof.
  induction s as [|x t IH].
  - cbn [Py.contains]. rewrite orb_false_r, startswith_spec. split.
    + intros (r & Hr). exists [], r. exact Hr.
    + intros (a & b & H). destruct a; [|discriminate]. eauto.
  - cbn [Py.contains]. rewrite orb_true_iff, startswith_spec, IH. split.
    + intros [(r & Hr)|(a & b & Hab)].
      * exists [], r. exact Hr.
      * exists (x :: a), b. rewrite Hab. reflexivity.
    + intros (a & b & H). destruct a as [|y a].
      * left. eauto.
      * right. inversion H; subst. eauto.
Qed.

Lemma contains_sub (x t y s : str) :
  Py.contains (x ++ t ++ y) s = true -> Py.contains t s = true.
Proof.
  rewrite !contains_spec. intros (a & b & ->).
  exists (a ++ x), (y ++ b). rewrite <- !app_assoc. reflexivity.
Qed.

Lemma split_pieces (c : ascii) (x : str) :
  Forall (fun s => ~ In c s) (Py.split c x).
Proof.
  induction x as [|a x IH]; simpl.
  - constructor; auto.
  - destruct (Ascii.eqb_spec a c) as [E|E].
    + constructor; auto.
    + destruct (Py.split c x) as [|h r].
      * constructor; auto. intros [H|[]]; congruence.
      * inversion IH as [|? ? Hh Hr]; subst. constructor; auto.
        intros [H|H]; [congruence | auto].
Qed.

Lemma Forall2_In_left {A B} (R : A -> B -> Prop) (l : list A) (l' : list B)
    (x : A) :
  Forall2 R l l' -> In x l -> exists y, In y l' /\ R x y.
Proof.
  induction 1 as [|a b l l' Hab _ IH]; intros Hx; [destruct Hx|].
  destruct Hx as [<- |Hx].
  - exists b. split; [left; auto | auto].
  - destruct (IH Hx) as (y & Hy & Hr). exists y. split; [right; auto | auto].
Qed.

Lemma Forall2_In_right {A B} (R : A -> B -> Prop) (l : list A) (l' : list B)
    (y : B) :
  Forall2 R l l' -> In y l' -> exists x, In x l /\ R x y.
Proof.
  induction 1 as [|a b l l' Hab _ IH]; intros Hy; [destruct Hy|].
  destruct Hy as [<- |Hy].
  - exists a. split; [left; auto | auto].
  - destruct (IH Hy) as (x & Hx & Hr). exists x. split; [right; auto | auto].
Qed.

Lemma max_loop_bound (ds : list nat) :
  Nat.max 1 (fold_right Nat.max 0 (map S ds)) = S (fold_right Nat.max 0 ds).
Proof.
  induction ds as [|d ds IH]; [reflexivity|].
  cbn [map fold_right]. lia.
Qed.

Lemma fold_max_ge (ds : list nat) (d : nat) :
  In d ds -> d <= fold_right Nat.max 0 ds.
Proof.
  induction ds as [|x ds IH]; intros H; [destruct H|].
  cbn [fold_right]. destruct H as [-> |H]; [lia|]. specialize (IH H). lia.
Qed.

Lemma fold_max_attained (ds : list nat) :
  ds <> [] -> In (fold_right Nat.max 0 ds) ds.
Proof.
  induction ds as [|x ds IH]; intros H; [congruence|].
  cbn [fold_right]. destruct ds as [|y ds].
  - left. cbn [fold_right]. lia.
  - destruct (Nat.max_spec x (fold_right Nat.max 0 (y :: ds)))
      as [[_ E]|[_ E]]; rewrite E.
    + right. apply IH. discriminate.
    + left. reflexivity.
Qed.

Section Metrics.

Variable chk : str -> option string.

Lemma compute_depth_chain (u : str) (d : nat) :
  compute_depth chk u = Ok d <->
  exists c, chain_of chk u = Ok c /\ List.length c = S d.
Proof.
  unfold compute_depth. split.
  - intros H. apply bind_Ok in H as (pu & Hp & H). inversion H; subst d.
    eexists. split; [apply chain_of_Ok; eauto|]. reflexivity.
  - intros (c & Hc & Hl). apply chain_of_Ok in Hc as (pu & Hp & ->).
    rewrite Hp. cbn [bind]. simpl in Hl. inversion Hl. reflexivity.
Qed.

Lemma compute_depth_total (u : str) :
  parses chk u <-> exists d, compute_depth chk u = Ok d.
Proof.
  unfold parses, compute_depth. split.
  - intros (pu & ->). cbn [bind]. eauto.
  - intros (d & H). apply bind_Ok in H as (pu & Hp & _). eauto.
Qed.

Lemma looks_like_login_total (u : str) :
  parses chk u <-> exists b, looks_like_login chk u = Ok b.
Proof.
  unfold parses, looks_like_login. split.
  - intros (pu & ->). cbn [bind]. eauto.
  - intros (d & H). apply bind_Ok in H as (pu & Hp & _). eauto.
Qed.

Lemma depths_of_Ok (urls : list str) (ds : list nat) :
  depths_of chk urls = Ok ds <->
  Forall2 (fun u d => compute_depth chk u = Ok d) urls ds.
Proof.
  revert ds; induction urls as [|u urls IH]; intros ds; simpl.
  - split.
    + intros H; inversion H. constructor.
    + intros H; inversion H. reflexivity.
  - split.
    + intros H. apply bind_Ok in H as (d & Hd & H).
      apply bind_Ok in H as (ds' & Hds & H). inversion H; subst.
      constructor; auto. apply IH; auto.
    + intros H. inversion H as [|? d ? ds' Hd Hds]; subst.
      rewrite Hd. cbn [bind]. apply IH in Hds. rewrite Hds. reflexivity.
Qed.

Lemma depths_of_total (urls : list str) :
  (forall u, In u urls -> parses chk u) <->
  exists ds, depths_of chk urls = Ok ds.
Proof.
  induction urls as [|u urls IH]; simpl.
  - split; [eauto | intros _ u []].
  - split.
    + intros H.
      destruct (proj1 (compute_depth_total u) (H u (or_introl eq_refl)))
        as (d & ->).
      destruct (proj1 IH) as (ds & ->); [intros; apply H; auto|].
      cbn [bind]. eauto.
    + intros (ds & H). apply bind_Ok in H as (d & Hd & H).
      apply bind_Ok in H as (ds' & Hds & _).
      intros v [<- |Hv].
      * apply compute_depth_total. eauto.
      * apply (proj2 IH); eauto.
Qed.

Lemma any_login_total (urls : list str) :
  (forall u, In u urls -> parses chk u) ->
  exists b, any_login chk urls = Ok b.
Proof.
  induction urls as [|u urls IH]; intros H; simpl; eauto.
  destruct (proj1 (looks_like_login_total u) (H u (or_introl eq_refl)))
    as (b & ->).
  cbn [bind]. destruct b; [eauto|].
  apply IH. intros; apply H; right; auto.
Qed.

Lemma any_login_spec (urls : list str) (b : bool) :
  any_login chk urls = Ok b ->
  (b = true <-> exists u, In u urls /\ looks_like_login chk u = Ok true).
Proof.
  induction urls as [|u urls IH]; simpl; intros H.
  - inversion H; subst. split; [discriminate | intros (? & [] & _)].
  - apply bind_Ok in H as (b0 & Hb0 & H). destruct b0.
    + inversion H; subst. split; auto. intros _. exists u. auto.
    + rewrite (IH H). split.
      * intros (v & Hv & Hl). exists v. auto.
      * intros (v & [<- |Hv] & Hl); [congruence|]. exists v. auto.
Qed.

Lemma max_segments_loop_spec (urls : list str) (ds : list nat) (acc : nat) :
  depths_of chk urls = Ok ds ->
  max_segments_loop chk acc urls
  = Ok (Nat.max acc (fold_right Nat.max 0 (map S ds))).
Proof.
  revert ds acc; induction urls as [|u urls IH]; intros ds acc H; simpl in *.
  - inversion H; subst. simpl. rewrite Nat.max_0_r. reflexivity.
  - apply bind_Ok in H as (d & Hd & H).
    apply bind_Ok in H as (ds' & Hds & H). inversion H; subst.
    rewrite Hd. cbn [bind]. rewrite (IH ds' _ Hds). cbn [map fold_right].
    f_equal. lia.
Qed.

Lemma max_segments_Ok_depths (urls : list str) (acc m : nat) :
  max_segments_loop chk acc urls = Ok m ->
  exists ds, depths_of chk urls = Ok ds.
Proof.
  revert acc; induction urls as [|u urls IH]; intros acc H; simpl in *;
    eauto.
  apply bind_Ok in H as (d & Hd & H). rewrite Hd. cbn [bind].
  destruct (IH _ H) as (ds & ->). cbn [bind]. eauto.
Qed.

End Metrics.

(** ** Properties of the page metrics *)

Section MetricLaws.

Variable chk : str -> option string.

(** X19.  The depth of a URL is the length of its treemap chain without
    the host: [compute_depth] returns [d] exactly when the chain of the URL
    has [d + 1] entries, and it raises exactly what [urlsplit] raises. *)
Theorem compute_depth_is_chain_length :
  forall u,
    (forall d,
       compute_depth chk u = Ok d <->
       exists c, chain_of chk u = Ok c /\ List.length c = S d) /\
    (forall e, compute_depth chk u = Raise e <-> urlsplit chk u = Raise e).
Proof.
  intros u. split.
  - intros d. apply compute_depth_chain.
  - intros e. unfold compute_depth.
    destruct (urlsplit chk u) as [pu|e']; cbn [bind].
    + split; discriminate.
    + split; intros H; inversion H; reflexivity.
Qed.

(** X20.  The level a run asks the treemap for is large enough for every
    URL: with [levels = max_segments] no chain is cut, so the leaf node of
    each URL is its whole chain [host, segment, ...]. *)
Theorem run_treemap_never_truncates :
  forall urls t,
    run_treemap chk urls = Ok t ->
    exists m st,
      max_segments chk urls = Ok m /\ 1 <= m /\
      aggregate chk urls (Z.of_nat m) = Ok st /\
      (forall u, In u urls ->
         exists c, chain_of chk u = Ok c /\ List.length c <= m /\
                   leaf_of chk (clamp_levels (Z.of_nat m)) u = Ok c).
Proof.
  intros urls t H. unfold run_treemap in H.
  apply bind_Ok in H as (m & Hm & H).
  apply render_Ok_inv in H as (st & Hst & _).
  exists m, st. unfold max_segments in *.
  destruct (max_segments_Ok_depths chk _ _ _ Hm) as (ds & Hds).
  pose proof Hm as Hm0.
  rewrite (max_segments_loop_spec chk _ _ 1 Hds) in Hm.
  assert (Em : Nat.max 1 (fold_right Nat.max 0 (map S ds)) = m)
    by congruence.
  clear Hm.
  split; [exact Hm0|].
  split; [rewrite <- Em; apply Nat.le_max_l|]. split; [exact Hst|].
  intros u Hu. apply depths_of_Ok in Hds.
  destruct (Forall2_In_left _ _ _ _ Hds Hu) as (d & Hd & Hcd).
  apply compute_depth_chain in Hcd as (c & Hc & Hl).
  assert (Hle : List.length c <= m).
  { rewrite Hl, <- Em.
    pose proof (fold_max_ge (map S ds) (S d) (in_map S _ _ Hd)). lia. }
  exists c. repeat split; auto.
  apply leaf_of_Ok. exists c. split; auto.
  destruct (clamp_levels_spec (Z.of_nat m)) as (H2 & Hge & Hlt).
  assert (Hcl : List.length c <= clamp_levels (Z.of_nat m)).
  { destruct (Z_lt_ge_dec (Z.of_nat m) 2) as [Hz|Hz].
    - rewrite (Hlt Hz). lia.
    - assert (Z.of_nat (clamp_levels (Z.of_nat m)) = Z.of_nat m)
        by (apply Hge; lia).
      lia. }
  rewrite Nat.min_r by exact Hcl. symmetry. apply firstn_all.
Qed.

(** X21.  The two loops of a run agree: the treemap level [max_segments]
    is one more than the [max_depth] shown on the dashboard (and 1 for an
    empty list, where [max_depth] is 0). *)
Theorem max_segments_is_max_depth_plus_one :
  forall urls s,
    page_stats chk urls = Ok s ->
    max_segments chk urls = Ok (1 + max_depth s).
Proof.
  intros urls s H. unfold page_stats in H.
  apply bind_Ok in H as (ds & Hds & H).
  apply bind_Ok in H as (b & _ & H). inversion H; subst s; clear H.
  cbn [max_depth]. unfold max_segments.
  rewrite (max_segments_loop_spec chk _ _ 1 Hds), max_loop_bound.
  destruct urls as [|u urls].
  - simpl in Hds. inversion Hds; subst. reflexivity.
  - reflexivity.
Qed.

(** X22.  The dashboard statistics: they are computed exactly when every
    URL parses; [n_pages] is the length of the list, [max_depth] bounds the
    depth of every URL and is the depth of one of them (0 for an empty
    list), and [login_found] says that some URL looks like a login page. *)
Theorem page_stats_meaning :
  forall urls,
    ((exists s, page_stats chk urls = Ok s) <->
     (forall u, In u urls -> exists pu, urlsplit chk u = Ok pu)) /\
    (forall s,
       page_stats chk urls = Ok s ->
       n_pages s = List.length urls /\
       (forall u d, In u urls -> compute_depth chk u = Ok d ->
                    d <= max_depth s) /\
       (urls <> [] ->
        exists u, In u urls /\ compute_depth chk u = Ok (max_depth s)) /\
       (urls = [] -> max_depth s = 0) /\
       (login_found s = true <->
        exists u, In u urls /\ looks_like_login chk u = Ok true)).
Proof.
  intros urls. split; [split|].
  - intros (s & H). unfold page_stats in H.
    apply bind_Ok in H as (ds & Hds & _).
    apply (proj2 (depths_of_total chk urls)). eauto.
  - intros H. unfold page_stats.
    destruct (proj1 (depths_of_total chk urls) H) as (ds & ->).
    destruct (any_login_total chk urls H) as (b & ->).
    cbn [bind]. eauto.
  - intros s H. unfold page_stats in H.
    apply bind_Ok in H as (ds & Hds & H).
    apply bind_Ok in H as (b & Hb & H). inversion H; subst s; clear H.
    cbn [n_pages max_depth login_found].
    apply depths_of_Ok in Hds.
    split; [reflexivity|]. split; [|split; [|split]].
    + intros u d Hu Hd.
      destruct (Forall2_In_left _ _ _ _ Hds Hu) as (d' & Hd' & Hcd).
      assert (d' = d) by congruence. subst d'.
      destruct urls as [|v urls]; [destruct Hu|].
      cbn [List.length Nat.eqb]. apply fold_max_ge; auto.
    + intros Hne. destruct urls as [|v urls]; [congruence|].
      cbn [List.length Nat.eqb].
      assert (Hds' : ds <> []) by (inversion Hds; discriminate).
      destruct (Forall2_In_right _ _ _ _ Hds (fold_max_attained ds Hds'))
        as (u & Hu & Hcd).
      eauto.
    + intros ->. reflexivity.
    + apply any_login_spec; auto.
Qed.

(** X23.  The table-of-contents section of a URL is the second entry of
    its treemap chain, and ["/"] when the chain is the host alone; it is
    never empty, and it is ["/"] exactly for the URLs of depth 0. *)
Theorem first_section_is_second_of_chain :
  forall u s,
    first_section chk u = Ok s ->
    exists c,
      chain_of chk u = Ok c /\
      s = nth 1 c (lit "/") /\
      s <> [] /\
      (s = lit "/" <-> compute_depth chk u = Ok 0).
Proof.
  intros u s H. unfold first_section in H.
  apply bind_Ok in H as (pu & Hp & H). cbv zeta in H.
  match type of H with
  | context [match ?X with [] => _ | _ :: _ => _ end] =>
      remember X as segs eqn:Esegs
  end.
  assert (Hc : chain_of chk u
               = Ok ((if Py.is_empty (netloc pu) then lit "/" else netloc pu)
                     :: segs))
    by (apply chain_of_Ok; exists pu; split; [exact Hp | rewrite Esegs; reflexivity]).
  assert (Hd : compute_depth chk u = Ok (List.length segs)).
  { apply compute_depth_chain. eexists. split; [exact Hc | reflexivity]. }
  assert (Hseg : Forall (fun x => x <> [] /\ ~ In "/"%char x) segs).
  { apply Forall_forall. intros x Hx. rewrite Esegs in Hx.
    apply filter_In in Hx as (Hx & Hne).
    split.
    - apply is_empty_false. destruct (Py.is_empty x); [discriminate | auto].
    - pose proof (split_pieces "/" (if Py.is_empty (path pu) then lit "/"
                                    else path pu)) as Hall.
      rewrite Forall_forall in Hall. auto. }
  eexists. split; [exact Hc|]. clear Esegs.
  destruct segs as [|x segs']; inversion H; subst s.
  - split; [reflexivity|]. split; [discriminate|].
    split; [intros _; exact Hd | reflexivity].
  - inversion Hseg as [|? ? (Hx1 & Hx2) _]; subst.
    split; [reflexivity|]. split; [exact Hx1|]. split.
    + intros E. exfalso. apply Hx2. rewrite E. left; reflexivity.
    + intros E. rewrite Hd in E. discriminate E.
Qed.

(** X24.  What "looks like a login page" means: the lower-cased
    [path?query] of the URL contains one of seven tokens.  The other five
    tokens of the list ([wp-login], [user/login], [users/login],
    [account/login], [/admin/login]) never decide, since each of them
    contains [login]. *)
Theorem login_tokens_redundant :
  forall u b,
    looks_like_login chk u = Ok b ->
    exists pu,
      urlsplit chk u = Ok pu /\
      b = existsb
            (fun t => Py.contains t
                        (Py.lower (path pu ++ lit "?" ++ query pu)))
            (lits ["login"; "sign-in"; "signin"; "my-account"; "auth";
                   "session/new"; "wp-admin"]) /\
      (b = true <->
       exists t a c,
         In t (lits ["login"; "sign-in"; "signin"; "my-account"; "auth";
                     "session/new"; "wp-admin"]) /\
         Py.lower (path pu ++ lit "?" ++ query pu) = a ++ t ++ c).
Proof.
  intros u b H. unfold looks_like_login in H.
  apply bind_Ok in H as (pu & Hp & H). exists pu. split; auto.
  set (s := Py.lower (path pu ++ lit "?" ++ query pu)) in *.
  assert (Hred : forall x, Py.contains (x ++ lit "login" ++ lit "") s = true ->
                           Py.contains (lit "login") s = true).
  { intros x. apply contains_sub. }
  assert (Eb : b = existsb (fun t => Py.contains t s)
                     (lits ["login"; "sign-in"; "signin"; "my-account";
                            "auth"; "session/new"; "wp-admin"])).
  { assert (Hb : b = existsb (fun t => Py.contains t s) LOGIN_TOKENS)
      by (cbv zeta in H; fold s in H; congruence).
    rewrite Hb. clear H Hb.
    unfold LOGIN_TOKENS, lits. cbn [map existsb].
    destruct (Py.contains (lit "login") s) eqn:EL; [reflexivity|].
    assert (E1 : Py.contains (lit "wp-login") s = false).
    { destruct (Py.contains (lit "wp-login") s) eqn:E; auto.
      pose proof (Hred (lit "wp-") E) as X. congruence. }
    assert (E2 : Py.contains (lit "user/login") s = false).
    { destruct (Py.contains (lit "user/login") s) eqn:E; auto.
      pose proof (Hred (lit "user/") E) as X. congruence. }
    assert (E3 : Py.contains (lit "users/login") s = false).
    { destruct (Py.contains (lit "users/login") s) eqn:E; auto.
      pose proof (Hred (lit "users/") E) as X. congruence. }
    assert (E4 : Py.contains (lit "account/login") s = false).
    { destruct (Py.contains (lit "account/login") s) eqn:E; auto.
      pose proof (Hred (lit "account/") E) as X. congruence. }
    assert (E5 : Py.contains (lit "/admin/login") s = false).
    { destruct (Py.contains (lit "/admin/login") s) eqn:E; auto.
      pose proof (Hred (lit "/admin/") E) as X. congruence. }
    rewrite E1, E2, E3, E4, E5. cbn [orb].
    destruct (Py.contains (lit "sign-in") s),
             (Py.contains (lit "signin") s),
             (Py.contains (lit "my-account") s),
             (Py.contains (lit "auth") s),
             (Py.contains (lit "session/new") s),
             (Py.contains (lit "wp-admin") s); reflexivity. }
  split; [exact Eb|]. rewrite Eb, existsb_exists. split.
  - intros (t & Ht & Hc). apply contains_spec in Hc as (a & c & Hs).
    exists t, a, c. auto.
  - intros (t & a & c & Ht & Hs). exists t. split; auto.
    apply contains_spec. eauto.
Qed.

End MetricLaws.

(** ** From the filters to the dashboard and the treemap *)

Lemma nodup_singleton {A} (l : list A) (a : A) :
  NoDup l -> (forall x, In x l -> x = a) -> In a l -> l = [a].
Proof.
  intros Hn Hall Hin. destruct l as [|x l]; [destruct Hin|].
  assert (x = a) by (apply Hall; left; auto). subst x.
  destruct l as [|y l]; auto.
  assert (y = a) by (apply Hall; right; left; auto). subst y.
  inversion Hn as [|? ? Hnot _]; subst. exfalso. apply Hnot. left; auto.
Qed.

Lemma node_key_lt_length (a b : node) :
  node_key_compare a b = Lt -> List.length a <= List.length b.
Proof.
  unfold node_key_compare.
  destruct (Nat.compare_spec (List.length a) (List.length b)) as [E|E|E];
    intros H; try lia. discriminate.
Qed.

Section AfterFilter.

Variable chk : str -> option string.

Lemma page_stats_total (urls : list str) :
  (forall u, In u urls -> parses chk u) ->
  exists s, page_stats chk urls = Ok s /\ n_pages s = List.length urls.
Proof.
  intros H. unfold page_stats.
  destruct (proj1 (depths_of_total chk urls) H) as (ds & ->).
  destruct (any_login_total chk urls H) as (b & ->).
  cbn [bind]. eexists. split; reflexivity.
Qed.

Lemma run_treemap_total (urls : list str) :
  (forall u, In u urls -> parses chk u) ->
  exists t, run_treemap chk urls = Ok t.
Proof.
  intros H. unfold run_treemap, max_segments.
  destruct (proj1 (depths_of_total chk urls) H) as (ds & Hds).
  rewrite (max_segments_loop_spec chk _ _ 1 Hds). cbn [bind].
  destruct (agg_loop_total chk
              (clamp_levels
                 (Z.of_nat (Nat.max 1 (fold_right Nat.max 0 (map S ds)))))
              urls agg_init H) as (st & Hst).
  eapply render_of_aggregate; exact Hst.
Qed.

Lemma run_treemap_inv (urls : list str) (t : Treemap) :
  run_treemap chk urls = Ok t ->
  exists m, max_segments chk urls = Ok m /\
            render_treemap_go_from_urls chk urls (Z.of_nat m) = Ok t.
Proof.
  unfold run_treemap. intros H. apply bind_Ok in H as (m & Hm & H). eauto.
Qed.

(** The host node is counted for every URL that parses. *)
Lemma host_counted (levels : Z) (u h : str) (parts : list str) :
  chain_of chk u = Ok (h :: parts) ->
  counted_at chk (clamp_levels levels) [h] u = true.
Proof.
  intros Hc. set (L := clamp_levels levels).
  assert (HL : 2 <= L) by apply clamp_levels_spec.
  assert (El : leaf_of chk L u
               = Ok (firstn (Nat.min L (List.length (h :: parts)))
                       (h :: parts))).
  { apply leaf_of_Ok. eauto. }
  assert (Ek : exists k, Nat.min L (List.length (h :: parts)) = S k).
  { simpl List.length. exists (Nat.min (L - 1) (List.length parts)). lia. }
  destruct Ek as (k & Ek). rewrite Ek in El. simpl firstn in El.
  unfold counted_at. rewrite El. apply covers_spec. split; [discriminate|].
  exists (firstn k parts). reflexivity.
Qed.

Hypothesis chk_lower : forall n, chk n = None -> chk (Py.lower n) = None.

(** What a filter returns parses back into the parts it was built from. *)
Lemma filter_output_reparse pages_only urls base sub pqf out v :
  filter_urls chk pages_only urls base sub pqf = Ok out -> In v out ->
  exists sch host p q f,
    urlsplit chk v = Ok (mkSplit sch host p q f) /\
    host_in_scope host base sub = true /\
    (exists t, p = "/"%char :: t).
Proof.
  intros H Hv.
  apply (filter_urls_In chk _ _ _ _ _ _ H) in Hv as (u & _ & Hu).
  apply filter_step_shape in Hu as (pu & Hp & Hs & Hh & _ & Hshape).
  pose proof (urlsplit_wf _ _ _ Hp) as Hwf.
  destruct (canonical_reparse chk chk_lower pu pqf Hwf Hs)
    as (Hv & Hre & _ & _).
  rewrite <- Hshape in Hv. rewrite Hv in Hre.
  destruct (lead_slash_normal _ (normalize_path_normal (path pu)))
    as (_ & t & Ht).
  do 5 eexists. split; [exact Hre|]. split; [exact Hh|]. eauto.
Qed.

Lemma filter_output_parses pages_only urls base sub pqf out :
  filter_urls chk pages_only urls base sub pqf = Ok out ->
  forall v, In v out -> parses chk v.
Proof.
  intros H v Hv.
  destruct (filter_output_reparse _ _ _ _ _ _ _ H Hv)
    as (sch & host & p & q & f & Hre & _).
  unfold parses. eauto.
Qed.

Lemma filter_output_chain pages_only urls base pqf out v :
  base <> [] ->
  filter_urls chk pages_only urls base false pqf = Ok out -> In v out ->
  exists parts, chain_of chk v = Ok (base :: parts).
Proof.
  intros Hb H Hv.
  destruct (filter_output_reparse _ _ _ _ _ _ _ H Hv)
    as (sch & host & p & q & f & Hre & Hh & _).
  apply host_in_scope_spec in Hh as [-> |(E & _)]; [|discriminate].
  eexists. apply chain_of_Ok. exists (mkSplit sch base p q f).
  split; [exact Hre|]. cbn [netloc path].
  apply is_empty_false in Hb. rewrite Hb. reflexivity.
Qed.

End AfterFilter.

Section PipelineLaws.

Variable chk : str -> option string.

Hypothesis chk_lower : forall n, chk n = None -> chk (Py.lower n) = None.

(** X25.  Once a filter has returned, the rest of a run cannot fail: every
    URL of its output parses, so the dashboard statistics and the treemap
    are both computed, the statistics count every URL and the top-level
    boxes of the treemap add up to that number. *)
Theorem run_after_filter_never_raises :
  forall pages_only links base sub pqf urls,
    filter_urls chk pages_only links base sub pqf = Ok urls ->
    exists s t,
      page_stats chk urls = Ok s /\
      n_pages s = List.length urls /\
      run_treemap chk urls = Ok t /\
      list_sum (root_values t) = List.length urls.
Proof.
  intros pages_only links base sub pqf urls H.
  pose proof (filter_output_parses chk chk_lower _ _ _ _ _ _ H) as Hp.
  destruct (page_stats_total chk urls Hp) as (s & Hs & Hn).
  destruct (run_treemap_total chk urls Hp) as (t & Ht).
  exists s, t. repeat split; auto.
  apply run_treemap_inv in Ht as (m & _ & Hr).
  apply render_Ok_inv in Hr as (st & Hst & He).
  apply emit_spec in He as (_ & Hpar & Hv). simpl in Hpar, Hv.
  unfold root_values. rewrite Hpar, Hv, combine_map_same, filter_map_comm.
  rewrite map_map. cbn [fst snd].
  rewrite (filter_ext (fun n => Py.is_empty (parent_id n))
             (fun n => List.length n =? 1))
    by (intros n; apply parent_id_root).
  eapply roots_sum; eauto.
Qed.

(** X26.  Without subdomains the treemap of a run has a single top-level
    box: the first row is the base host, it is the only row without a
    parent, and its value is the number of URLs. *)
Theorem run_treemap_single_root :
  forall pages_only links base pqf urls t,
    base <> [] ->
    filter_urls chk pages_only links base false pqf = Ok urls ->
    urls <> [] ->
    run_treemap chk urls = Ok t ->
    root_values t = [List.length urls] /\
    exists rest, ids t = (lit "|" ++ base) :: rest.
Proof.
  intros pages_only links base pqf urls t Hb H Hne Ht.
  apply run_treemap_inv in Ht as (m & _ & Hr).
  apply render_Ok_inv in Hr as (st & Hst & He).
  apply emit_spec in He as (Hi & Hpar & Hv). simpl in Hi, Hpar, Hv.
  set (L := clamp_levels (Z.of_nat m)) in *.
  assert (Hchain : forall v, In v urls ->
            exists parts, chain_of chk v = Ok (base :: parts)).
  { intros v Hv'. eapply filter_output_chain; eauto. }
  assert (Hroot : forall n, In n (nodes_sorted st) -> List.length n = 1 ->
                            n = [base]).
  { intros n Hn Hl. apply nodes_sorted_In in Hn.
    apply (aggregate_key_iff chk _ _ _ _ Hst) in Hn as (u & Hu & Hc).
    apply counted_at_shape in Hc as (_ & _ & _ & c & r & Hc & Hcr).
    destruct (Hchain u Hu) as (parts & Hc').
    rewrite Hc in Hc'. injection Hc' as Ec. rewrite Hcr in Ec.
    destruct n as [|a [|b n]]; simpl in Hl; try discriminate.
    simpl in Ec. inversion Ec. reflexivity. }
  assert (Hin : In [base] (nodes_sorted st)).
  { destruct urls as [|u urls']; [congruence|].
    destruct (Hchain u (or_introl eq_refl)) as (parts & Hc).
    apply nodes_sorted_In. apply (aggregate_key_iff chk _ _ _ _ Hst).
    exists u. split; [left; auto|]. eapply host_counted; eauto. }
  pose proof (aggregate_nodes_strict chk _ _ _ Hst) as Hsorted.
  split.
  - assert (Ef : filter (fun n : list str => List.length n =? 1)
                   (nodes_sorted st) = [[base]]).
    { apply nodup_singleton.
      - apply NoDup_filter.
        eapply (sorted_lt_NoDup node_key_compare node_key_compare_eq); eauto.
      - intros n Hn. apply filter_In in Hn as (Hn & Hl).
        apply Nat.eqb_eq in Hl. auto.
      - apply filter_In. split; auto. }
    pose proof (roots_sum chk _ _ _ Hst) as Hsum.
    match type of Hsum with
    | context [@filter ?A ?g (nodes_sorted st)] =>
        assert (Ef1 : @filter A g (nodes_sorted st) = [[base]]) by exact Ef;
        rewrite Ef1 in Hsum
    end.
    unfold root_values.
    rewrite Hpar, Hv, combine_map_same, filter_map_comm.
    rewrite map_map. cbn [fst snd].
    rewrite (filter_ext (fun n => Py.is_empty (parent_id n))
               (fun n : list str => List.length n =? 1))
      by (intros n; apply parent_id_root).
    match goal with
    | |- context [@filter ?A ?g (nodes_sorted st)] =>
        assert (Ef2 : @filter A g (nodes_sorted st) = [[base]]) by exact Ef;
        rewrite Ef2
    end.
    cbn [map list_sum fold_right] in *. f_equal. lia.
  - destruct (nodes_sorted st) as [|n0 rest] eqn:En; [destruct Hin|].
    assert (Hn0 : n0 = [base]).
    { destruct Hin as [E|Hin]; auto.
      inversion Hsorted as [|? ? _ Hall]; subst.
      rewrite Forall_forall in Hall.
      pose proof (node_key_lt_length _ _ (Hall _ Hin)) as Hle.
      simpl in Hle.
      assert (Hn0in : In n0 (nodes_sorted st)) by (rewrite En; left; auto).
      destruct (aggregate_node_shape chk _ _ _ _ Hst Hn0in) as (Hnn & _).
      apply Hroot; [rewrite <- En; exact Hn0in|].
      destruct n0; [congruence|]. simpl in *. lia. }
    subst n0. exists (map node_id rest). rewrite Hi. reflexivity.
Qed.

End PipelineLaws.

(** ** Instances of the aggregation and rendering laws *)

Lemma rollup_with_own_urls_witness :
  exists st,
    aggregate accept_bracketed
      (lits ["https://x.com/a/b"; "https://x.com/a/c"; "https://x.com/a"])
      3%Z = Ok st /\
    count_of (lits ["x.com"; "a"]) (counts st)
    = List.length
        (filter (leaf_is accept_bracketed (clamp_levels 3)
                   (lits ["x.com"; "a"]))
           (lits ["https://x.com/a/b"; "https://x.com/a/c";
                  "https://x.com/a"]))
      + children_sum st (lits ["x.com"; "a"]).
Proof.
  eexists. split; [vm_compute; reflexivity|].
  apply (rollup_with_own_urls accept_bracketed
           (lits ["https://x.com/a/b"; "https://x.com/a/c"; "https://x.com/a"])
           3%Z _ (lits ["x.com"; "a"])).
  - vm_compute. reflexivity.
  - discriminate.
Defined.

Lemma ancestor_count_ge_descendant_witness :
  exists st,
    aggregate accept_bracketed
      (lits ["https://x.com/a/b"; "https://x.com/c"]) 3%Z = Ok st /\
    count_of (lits ["x.com"] ++ lits ["a"; "b"]) (counts st)
    <= count_of (lits ["x.com"]) (counts st).
Proof.
  eexists. split; [vm_compute; reflexivity|].
  apply (ancestor_count_ge_descendant accept_bracketed
           (lits ["https://x.com/a/b"; "https://x.com/c"]) 3%Z _
           (lits ["x.com"]) (lits ["a"; "b"])).
  - vm_compute. reflexivity.
  - discriminate.
Defined.

Lemma node_id_injective_witness :
  node_id (lits ["x.com"; "a"]) = lit "|x.com|a" /\
  lits ["x.com"; "a"] = lits ["x.com"; "a"].
Proof.
  split; [reflexivity|].
  apply (node_id_injective_without_separator
           (lits ["x.com"; "a"]) (lits ["x.com"; "a"])).
  - discriminate.
  - discriminate.
  - repeat constructor; intros H; vm_compute in H; intuition discriminate.
  - repeat constructor; intros H; vm_compute in H; intuition discriminate.
  - reflexivity.
Defined.

Lemma render_parents_listed_first_witness :
  exists t,
    render_treemap_go_from_urls accept_bracketed
      (lits ["https://x.com/a/b"; "https://x.com/c"]) 3%Z = Ok t /\
    exists j, j < 3 /\ nth_error (ids t) j = Some (lit "|x.com|a").
Proof.
  eexists. split; [vm_compute; reflexivity|].
  apply (render_parents_listed_first accept_bracketed
           (lits ["https://x.com/a/b"; "https://x.com/c"]) 3%Z _ 3
           (lit "|x.com|a")).
  - vm_compute. reflexivity.
  - vm_compute. reflexivity.
  - discriminate.
Defined.

Lemma render_permutation_invariant_witness :
  exists t,
    render_treemap_go_from_urls accept_bracketed
      (lits ["https://x.com/b"; "http://x.com/a"]) 2%Z = Ok t /\
    exists t',
      render_treemap_go_from_urls accept_bracketed
        (lits ["http://x.com/a"; "https://x.com/b"]) 2%Z = Ok t' /\
      ids t' = ids t /\ labels t' = labels t /\
      parents t' = parents t /\ values t' = values t.
Proof.
  eexists. split; [vm_compute; reflexivity|].
  apply (render_permutation_invariant accept_bracketed
           (lits ["https://x.com/b"; "http://x.com/a"])
           (lits ["http://x.com/a"; "https://x.com/b"]) 2%Z).
  - apply perm_swap.
  - vm_compute. reflexivity.
Defined.

Lemma render_roots_sum_witness :
  exists t,
    render_treemap_go_from_urls accept_bracketed
      (lits ["https://x.com/a/b"; "https://y.org/"; "https://x.com/"]) 2%Z
    = Ok t /\
    list_sum (root_values t)
    = List.length
        (lits ["https://x.com/a/b"; "https://y.org/"; "https://x.com/"]).
Proof.
  eexists. split; [vm_compute; reflexivity|].
  apply (render_roots_sum_to_url_count accept_bracketed
           (lits ["https://x.com/a/b"; "https://y.org/"; "https://x.com/"])
           2%Z).
  vm_compute. reflexivity.
Defined.

Lemma render_columns_and_labels_witness :
  exists t,
    render_treemap_go_from_urls accept_bracketed
      (lits ["https://x.com/a/b"; "x.com//c/"]) 1%Z = Ok t /\
    exists nodes,
      ids t = map node_id nodes /\
      labels t = map (fun n => last n []) nodes /\
      parents t = map parent_id nodes /\
      List.length (values t) = List.length nodes /\
      List.length (customdata t) = List.length nodes /\
      Forall (fun n => 1 <= List.length n <= clamp_levels 1 /\
                       Forall (fun s => s <> []) n) nodes /\
      Forall (fun l => l <> []) (labels t).
Proof.
  eexists. split; [vm_compute; reflexivity|].
  apply (render_columns_and_labels accept_bracketed
           (lits ["https://x.com/a/b"; "x.com//c/"]) 1%Z).
  vm_compute. reflexivity.
Defined.

Lemma hover_of_aggregated_node_witness :
  exists st,
    aggregate accept_bracketed
      (lits ["http://x.com/a/b"; "https://x.com/a/c"]) 3%Z = Ok st /\
    exists ex pu,
      find (counted_at accept_bracketed (clamp_levels 3)
              (lits ["x.com"; "a"]))
           (lits ["http://x.com/a/b"; "https://x.com/a/c"]) = Some ex /\
      urlsplit accept_bracketed ex = Ok pu /\
      hover_text accept_bracketed st (lits ["x.com"; "a"]) =
      Ok (Py.str_of_nat
            (List.length
               (filter (counted_at accept_bracketed (clamp_levels 3)
                          (lits ["x.com"; "a"]))
                  (lits ["http://x.com/a/b"; "https://x.com/a/c"])))
          ++ lit " URLs under "
          ++ (if Py.is_empty ex then lit "https" else scheme pu)
          ++ lit "://" ++ hd [] (lits ["x.com"; "a"]) ++ lit "/"
          ++ Py.join "/" (tl (lits ["x.com"; "a"]))).
Proof.
  eexists. split; [vm_compute; reflexivity|].
  apply (hover_of_aggregated_node accept_bracketed
           (lits ["http://x.com/a/b"; "https://x.com/a/c"]) 3%Z _
           (lits ["x.com"; "a"])).
  - vm_compute. reflexivity.
  - vm_compute. auto.
  - vm_compute. discriminate.
Defined.

Lemma render_rows_count_urls_witness :
  exists t,
    render_treemap_go_from_urls accept_bracketed
      (lits ["https://x.com/a/b"; "https://x.com/a"]) 2%Z = Ok t /\
    exists st,
      aggregate accept_bracketed
        (lits ["https://x.com/a/b"; "https://x.com/a"]) 2%Z = Ok st /\
      let L := clamp_levels 2 in
      let nodes := nodes_sorted st in
      StronglySorted (fun a b => node_key_compare a b = Lt) nodes /\
      (forall n,
         In n nodes <->
         exists u, In u (lits ["https://x.com/a/b"; "https://x.com/a"]) /\
                   counted_at accept_bracketed L n u = true) /\
      (forall n u,
         counted_at accept_bracketed L n u = true <->
         n <> [] /\
         exists chain rest,
           chain_of accept_bracketed u = Ok chain /\
           firstn (Nat.min L (List.length chain)) chain = n ++ rest) /\
      ids t = map node_id nodes /\
      values t =
        map (fun n =>
               List.length
                 (filter (counted_at accept_bracketed L n)
                    (lits ["https://x.com/a/b"; "https://x.com/a"]))) nodes /\
      Forall2 (fun n hv => hover_text accept_bracketed st n = Ok hv) nodes
        (customdata t).
Proof.
  eexists. split; [vm_compute; reflexivity|].
  apply (render_rows_count_urls accept_bracketed
           (lits ["https://x.com/a/b"; "https://x.com/a"]) 2%Z).
  vm_compute. reflexivity.
Defined.

(** ** Instances of the filter, input and metric laws *)

Lemma accept_bracketed_lower :
  forall n, accept_bracketed n = None -> accept_bracketed (Py.lower n) = None.
Proof. intros n _. reflexivity. Qed.

Lemma filter_output_shape_witness :
  exists sch host p q f,
    lit "https://x.com/a"
    = sch ++ lit "://" ++ host ++ p ++ query_part q ++ fragment_part f /\
    (sch = lit "http" \/ sch = lit "https") /\
    Py.lower host = host /\
    host_in_scope host "x.com" false = true /\
    (exists t, p = "/"%char :: t) /\
    _normalize_path p = p /\
    (false = false ->
     lit "https://x.com/a" = sch ++ lit "://" ++ host ++ p /\
     ~ In "?"%char (lit "https://x.com/a") /\
     ~ In "#"%char (lit "https://x.com/a")).
Proof.
  apply (filter_output_shape accept_bracketed true
           (lits ["HTTPS://X.com//a/?q=1#f"]) "x.com" false false
           (lits ["https://x.com/a"]) (lit "https://x.com/a")).
  - vm_compute. reflexivity.
  - left. reflexivity.
Defined.

Lemma filter_same_members_witness :
  filter_urls accept_bracketed true
    (lits ["https://x.com/a"; "https://x.com/b"]) "x.com" false false
  = Ok (lits ["https://x.com/a"; "https://x.com/b"]).
Proof.
  apply (filter_same_members_same_output accept_bracketed true
           (lits ["https://x.com/b"; "https://x.com/a"; "https://x.com/b"])
           (lits ["https://x.com/a"; "https://x.com/b"])
           "x.com" false false
           (lits ["https://x.com/a"; "https://x.com/b"])).
  - intros u. unfold lits. cbn [map In]. tauto.
  - vm_compute. reflexivity.
Defined.

Lemma filter_subdomains_monotone_witness :
  exists out',
    filter_urls accept_bracketed false
      (lits ["https://x.com/a"; "https://blog.x.com/p"]) "x.com" true false
    = Ok out' /\
    forall v, In v (lits ["https://x.com/a"]) -> In v out'.
Proof.
  apply (filter_subdomains_monotone accept_bracketed false
           (lits ["https://x.com/a"; "https://blog.x.com/p"]) "x.com" false
           (lits ["https://x.com/a"])).
  vm_compute. reflexivity.
Defined.

Lemma filter_preserve_qf_witness :
  exists cut,
    filter_urls accept_bracketed true (lits ["https://x.com/a?q=1#f"])
      "x.com" false false = Ok cut /\
    (forall w, In w (lits ["https://x.com/a?q=1#f"]) ->
       exists v q f,
         In v cut /\ w = v ++ query_part q ++ fragment_part f) /\
    (forall v, In v cut ->
       exists w q f,
         In w (lits ["https://x.com/a?q=1#f"]) /\
         w = v ++ query_part q ++ fragment_part f).
Proof.
  apply (filter_preserve_qf_relation accept_bracketed true
           (lits ["https://x.com/a?q=1#f"]) "x.com" false
           (lits ["https://x.com/a?q=1#f"])).
  vm_compute. reflexivity.
Defined.

Lemma normalize_input_url_idempotent_witness :
  normalize_input_url accept_bracketed "https://x.com/a"
  = Ok (lit "https://x.com/a").
Proof.
  apply (normalize_input_url_idempotent accept_bracketed
           accept_bracketed_lower " X.com/a/ " (lit "https://x.com/a")).
  - vm_compute. reflexivity.
  - vm_compute. reflexivity.
Defined.

Lemma run_host_witness :
  exists pu,
    urlsplit accept_bracketed (with_scheme (Py.strip "X.com:80/a")) = Ok pu /\
    urlsplit accept_bracketed (lit "https://x.com:80/a") =
      Ok (mkSplit (scheme pu) (Py.lower (netloc pu))
                  (_normalize_path (path pu)) (lit "") (lit "")) /\
    run_host accept_bracketed "X.com:80/a" = Ok (Py.lower (netloc pu)) /\
    Py.lower (netloc pu) <> [].
Proof.
  apply (run_host_is_lowered_authority accept_bracketed
           accept_bracketed_lower "X.com:80/a" (lit "https://x.com:80/a")).
  vm_compute. reflexivity.
Defined.

Lemma run_treemap_never_truncates_witness :
  exists m st,
    max_segments accept_bracketed
      (lits ["https://x.com/a/b"; "https://x.com/"]) = Ok m /\ 1 <= m /\
    aggregate accept_bracketed
      (lits ["https://x.com/a/b"; "https://x.com/"]) (Z.of_nat m) = Ok st /\
    (forall u, In u (lits ["https://x.com/a/b"; "https://x.com/"]) ->
       exists c, chain_of accept_bracketed u = Ok c /\ List.length c <= m /\
                 leaf_of accept_bracketed (clamp_levels (Z.of_nat m)) u
                 = Ok c).
Proof.
  eapply (run_treemap_never_truncates accept_bracketed
            (lits ["https://x.com/a/b"; "https://x.com/"])).
  vm_compute. reflexivity.
Defined.

Lemma max_segments_witness :
  exists s,
    page_stats accept_bracketed
      (lits ["https://x.com/a/b"; "https://x.com/login"]) = Ok s /\
    max_segments accept_bracketed
      (lits ["https://x.com/a/b"; "https://x.com/login"])
    = Ok (1 + max_depth s).
Proof.
  eexists. split; [vm_compute; reflexivity|].
  apply (max_segments_is_max_depth_plus_one accept_bracketed
           (lits ["https://x.com/a/b"; "https://x.com/login"])).
  vm_compute. reflexivity.
Defined.

Lemma first_section_witness :
  exists c,
    chain_of accept_bracketed "https://x.com/docs/a" = Ok c /\
    lit "docs" = nth 1 c (lit "/") /\
    lit "docs" <> [] /\
    (lit "docs" = lit "/" <->
     compute_depth accept_bracketed "https://x.com/docs/a" = Ok 0).
Proof.
  apply (first_section_is_second_of_chain accept_bracketed
           "https://x.com/docs/a" (lit "docs")).
  vm_compute. reflexivity.
Defined.

Lemma login_tokens_witness :
  exists pu,
    urlsplit accept_bracketed "https://x.com/WP-Login.php" = Ok pu /\
    true = existsb
             (fun t => Py.contains t
                         (Py.lower (path pu ++ lit "?" ++ query pu)))
             (lits ["login"; "sign-in"; "signin"; "my-account"; "auth";
                    "session/new"; "wp-admin"]) /\
    (true = true <->
     exists t a c,
       In t (lits ["login"; "sign-in"; "signin"; "my-account"; "auth";
                   "session/new"; "wp-admin"]) /\
       Py.lower (path pu ++ lit "?" ++ query pu) = a ++ t ++ c).
Proof.
  apply (login_tokens_redundant accept_bracketed
           "https://x.com/WP-Login.php" true).
  vm_compute. reflexivity.
Defined.

Lemma run_after_filter_witness :
  exists s t,
    page_stats accept_bracketed (lits ["https://x.com/a"]) = Ok s /\
    n_pages s = List.length (lits ["https://x.com/a"]) /\
    run_treemap accept_bracketed (lits ["https://x.com/a"]) = Ok t /\
    list_sum (root_values t) = List.length (lits ["https://x.com/a"]).
Proof.
  apply (run_after_filter_never_raises accept_bracketed
           accept_bracketed_lower true
           (lits ["https://x.com/a"; "https://x.com/b.png"]) "x.com"
           false false (lits ["https://x.com/a"])).
  vm_compute. reflexivity.
Defined.

Lemma run_treemap_single_root_witness :
  exists t,
    run_treemap accept_bracketed
      (lits ["http://x.com/a"; "https://x.com/b/c"]) = Ok t /\
    root_values t
    = [List.length (lits ["http://x.com/a"; "https://x.com/b/c"])] /\
    exists rest, ids t = (lit "|" ++ lit "x.com") :: rest.
Proof.
  eexists. split; [vm_compute; reflexivity|].
  apply (run_treemap_single_root accept_bracketed accept_bracketed_lower
           false
           (lits ["https://x.com/b/c"; "http://x.com/a"; "https://y.org/"])
           (lit "x.com") false
           (lits ["http://x.com/a"; "https://x.com/b/c"])).
  - discriminate.
  - vm_compute. reflexivity.
  - discriminate.
  - vm_compute. reflexivity.
Defined.
